(** * Smart Grid: the first-fit grid plugin, embedded and verified

    Two variants of the plugin exist in the repository.

    - [FirstFit] is the current plugin: sizes are drawn from pools
      ([sizes], [startsWith], [classSizes]), every element is committed to
      the first empty cell, the last element is stretched by three
      normalisation passes, and separator lines are grouped from the grid.
    - [Scanning] is the older [js/grid.js]: sizes are read from the markup
      and a while loop advances a position until the element is allocable.

    Conventions shared by both: a position is [[X, Y]] = (row, column), a
    size is [[rows, cols]], and the grid is a JavaScript array of rows, each
    row a JavaScript array of element ids. *)

From Stdlib Require Import ZArith Lia.
From stdpp Require Import base list strings.

(** ** JavaScript arrays

    An array is a list of slots; [None] is a hole or an explicit
    [undefined] (the two are indistinguishable to [=== undefined] and to
    [>= 0]).  Reading past the end gives [undefined]; writing past the end
    extends the array with holes. *)

Abbreviation jsarray A := (list (option A)).

Definition aget {A} (a : jsarray A) (i : nat) : option A :=
  match a !! i with
  | Some v => v
  | None => None
  end.

Definition aset {A} (a : jsarray A) (i : nat) (v : option A) : jsarray A :=
  if decide (i < length a) then <[i := v]> a
  else a ++ replicate (i - length a) None ++ [v].

(** ** Outcomes of a run

    [TypeError] is what JavaScript throws on [grid[i][j]] when [grid[i]] is
    [undefined].  The other two outcomes are the model's own: [OutOfFuel]
    for a [while] loop that has not exited within the steps it was given,
    [OutOfModel] for a run on which a row count would fall below zero, which
    the natural numbers of the model do not hold. *)

Inductive result (A : Type) : Type :=
| Ok (a : A)
| TypeError
| OutOfFuel
| OutOfModel.

Arguments Ok {A} a.
Arguments TypeError {A}.
Arguments OutOfFuel {A}.
Arguments OutOfModel {A}.

Definition rbind {A B} (m : result A) (k : A → result B) : result B :=
  match m with
  | Ok a => k a
  | TypeError => TypeError
  | OutOfFuel => OutOfFuel
  | OutOfModel => OutOfModel
  end.

Notation "'let*' x ':=' m 'in' k" := (rbind m (fun x => k))
  (at level 10, x pattern, m at level 100, k at level 200).

(** A [for] loop over the indices in [l] whose body updates a state and may
    throw. *)
Fixpoint forM {S} (l : list nat) (body : nat → S → result S) (s : S) : result S :=
  match l with
  | [] => Ok s
  | i :: l' => let* s' := body i s in forM l' body s'
  end.

(** ** Data shared by the two variants *)

Abbreviation pos := (nat * nat)%type.    (* [X, Y] = (row, column) *)
Abbreviation size := (nat * nat)%type.   (* [rows, cols] *)
Abbreviation row := (jsarray nat).
Abbreviation grid := (jsarray row).

(** [grid[i][j]]: throws when [grid[i]] is undefined. *)
Definition cellRead (g : grid) (i j : nat) : result (option nat) :=
  match aget g i with
  | None => TypeError
  | Some r => Ok (aget r j)
  end.

(** [grid[i][j] = v], on a row that must exist. *)
Definition cellWrite (g : grid) (i j : nat) (v : option nat) : result grid :=
  match aget g i with
  | None => TypeError
  | Some r => Ok (aset g i (Some (aset r j v)))
  end.

(** The occupant of a cell when nothing is thrown: a missing row reads as
    no occupant. *)
Definition cell (g : grid) (i j : nat) : option nat :=
  match aget g i with
  | None => None
  | Some r => aget r j
  end.

(** Element data as stored by [$(this).data(config)]. *)
Record item : Type := Item {
  item_id : nat;
  item_pos : pos;
  item_rows : nat;
  item_cols : nat
}.

Definition in_rect (it : item) (i j : nat) : Prop :=
  (item_pos it).1 ≤ i < (item_pos it).1 + item_rows it ∧
  (item_pos it).2 ≤ j < (item_pos it).2 + item_cols it.

Global Instance in_rect_dec it i j : Decision (in_rect it i j).
Proof. unfold in_rect. apply _. Defined.

(** Marking of an element in the virtual grid (the same loop in both
    variants):
<<
  for (i = pos[X]; i < pos[X] + rows; i++) {
    if (grid[i] === undefined) { grid[i] = []; }
    for (j = pos[Y]; j < pos[Y] + cols; j++) { grid[i][j] = id; }
  }
>> *)
Definition materialize (g : grid) (i : nat) : grid :=
  match aget g i with
  | None => aset g i (Some [])
  | Some _ => g
  end.

Definition markRow (p : pos) (cols id : nat) (i : nat) (g : grid) : result grid :=
  forM (seq p.2 cols) (λ j g, cellWrite g i j (Some id)) (materialize g i).

Definition mark (g : grid) (p : pos) (rows cols id : nat) : result grid :=
  forM (seq p.1 rows) (markRow p cols id) g.

(** * The current plugin *)

Module FirstFit.

Section Plugin.

(** [s.cols], and the stream of values behind [Math.random()]: the [k]-th
    call of [Math.floor(Math.random() * n)] yields [rnd k mod n], so every
    sequence of in-range draws is the run of some [rnd]. *)
Variable cols : nat.
Variable rnd : nat → nat.

(** [grid[i] !== undefined && grid[i][j] >= 0] *)
Definition taken (g : grid) (i j : nat) : bool :=
  match aget g i with
  | None => false
  | Some r => bool_decide (is_Some (aget r j))
  end.

(** [isAllocable(size, pos)].  The width test [pos[Y] + size[Y] - 1 >=
    s.cols] is written without the subtraction, which is the same
    comparison over the integers. *)
Definition isAllocable (g : grid) (sz : size) (p : pos) : bool :=
  if decide (cols + 1 ≤ p.2 + sz.2) then false
  else forallb (λ i, forallb (λ j, negb (taken g i j)) (seq p.2 sz.2))
               (seq p.1 sz.1).

(** [firstEmptySpace()]: the inner loop over [j < s.cols] and the outer
    loop over [i < grid.length]. *)
Fixpoint scanRow (g : grid) (i j n : nat) : result (option nat) :=
  match n with
  | 0 => Ok None
  | S n' =>
      let* c := cellRead g i j in
      match c with
      | None => Ok (Some j)
      | Some _ => scanRow g i (S j) n'
      end
  end.

Fixpoint scanGrid (g : grid) (i n : nat) : result pos :=
  match n with
  | 0 => Ok (length g, 0)
  | S n' =>
      let* r := scanRow g i 0 cols in
      match r with
      | Some j => Ok (i, j)
      | None => scanGrid g (S i) n'
      end
  end.

Definition firstEmptySpace (g : grid) : result pos :=
  scanGrid g 0 (length g).

(** [shuffle(array)]: Fisher-Yates on the array that was passed.  [k]
    counts the calls of [Math.random()] made so far. *)
Definition swap (array : list size) (i j : nat) : list size :=
  match array !! i, array !! j with
  | Some temporaryValue, Some other =>
      <[j := temporaryValue]> (<[i := other]> array)
  | _, _ => array
  end.

Fixpoint shuffleFrom (currentIndex : nat) (array : list size) (k : nat)
  : list size * nat :=
  match currentIndex with
  | 0 => (array, k)
  | S currentIndex' =>
      let randomIndex := rnd k mod currentIndex in
      shuffleFrom currentIndex' (swap array currentIndex' randomIndex) (S k)
  end.

Definition shuffle (array : list size) (k : nat) : list size * nat :=
  shuffleFrom (length array) array k.

(** The [for] loop of [getRandomSize] with its fall-through [[1, 1]]. *)
Fixpoint firstAllocable (g : grid) (p : pos) (l : list size) : size :=
  match l with
  | [] => (1, 1)
  | sz :: l' => if isAllocable g sz p then sz else firstAllocable g p l'
  end.

(** ** The store

    [s.sizes] and the arrays of [s.classSizes] are objects shared between
    calls; [shuffle] writes into them.  They are taken to be distinct
    arrays.  [classSizes] keeps the enumeration order of
    [for (var key in s.classSizes)]. *)
Record state : Type := State {
  st_grid : grid;
  st_id : nat;
  st_data : list item;
  st_sizes : list size;
  st_classSizes : list (string * list size);
  st_draws : nat
}.

Inductive poolRef : Type :=
| Sizes                       (* s.sizes *)
| ClassSizes (n : nat).       (* s.classSizes[key], [key] the n-th key *)

Definition readPool (st : state) (ref : poolRef) : list size :=
  match ref with
  | Sizes => st_sizes st
  | ClassSizes n =>
      match st_classSizes st !! n with
      | Some (_, l) => l
      | None => []
      end
  end.

Definition writePool (st : state) (ref : poolRef) (l : list size) (k : nat) : state :=
  match ref with
  | Sizes =>
      State (st_grid st) (st_id st) (st_data st) l (st_classSizes st) k
  | ClassSizes n =>
      State (st_grid st) (st_id st) (st_data st) (st_sizes st)
            (alter (λ kv, (kv.1, l)) n (st_classSizes st)) k
  end.

(** [getRandomSize(pos, elementsRemaining, sizes)], [sizes] given by
    reference. *)
Definition getRandomSize (p : pos) (elementsRemaining : nat) (ref : poolRef)
    (st : state) : size * state :=
  let '(shuffled, k) := shuffle (readPool st ref) (st_draws st) in
  let st' := writePool st ref shuffled k in
  if decide (elementsRemaining = 1) then ((1, 1), st')
  else (firstAllocable (st_grid st) p shuffled, st').

(** ** 1. Insert each element in grid using First Fit *)

(** [s.startsWith]; an index without an entry reads as [undefined]. *)
Variable startsWith : jsarray size.

(** One turn of [for (var key in s.classSizes)], at the [n]-th key, for an
    element with classes [cl].  [stringify] joins a size with a comma, so
    the [indexOf] test is membership of the pair. *)
Definition classOverride (p : pos) (elementsRemaining : nat) (cl : list string)
    (n : nat) (acc : size * state) : size * state :=
  match st_classSizes acc.2 !! n with
  | Some (key, pool) =>
      let sizeInClassSizes := bool_decide (acc.1 ∈ pool) in
      if bool_decide (key ∈ cl) && negb sizeInClassSizes
      then getRandomSize p elementsRemaining (ClassSizes n) acc.2
      else acc
  | None => acc
  end.

(** The size of element [i]: pool choice, then [s.startsWith[i] || size],
    then the class loop. *)
Definition resolveSize (p : pos) (elementsRemaining i : nat) (cl : list string)
    (st : state) : size * state :=
  let chosen := getRandomSize p elementsRemaining Sizes st in
  let sz := match aget startsWith i with
            | Some pinned => pinned
            | None => chosen.1
            end in
  foldl (λ acc n, classOverride p elementsRemaining cl n acc)
        (sz, chosen.2) (seq 0 (length (st_classSizes chosen.2))).

(** The body of [$elements.each(function(i) { ... })] for the element at
    index [i] of [total], whose classes are [cl]. *)
Definition place (total i : nat) (cl : list string) (st : state) : result state :=
  let* p := firstEmptySpace (st_grid st) in
  let resolved := resolveSize p (total - i) i cl st in
  let sz := resolved.1 in
  let st1 := resolved.2 in
  let config := Item (st_id st1) p sz.1 sz.2 in
  let* g := mark (st_grid st1) p (item_rows config) (item_cols config)
                 (item_id config) in
  Ok (State g (S (st_id st1)) (st_data st1 ++ [config])
            (st_sizes st1) (st_classSizes st1) (st_draws st1)).

Fixpoint each (total i : nat) (elements : list (list string)) (st : state)
  : result state :=
  match elements with
  | [] => Ok st
  | cl :: elements' =>
      let* st' := place total i cl st in
      each total (S i) elements' st'
  end.

(** ** Normalisation of the last rows *)

Definition withGrid (st : state) (g : grid) : state :=
  State g (st_id st) (st_data st) (st_sizes st) (st_classSizes st) (st_draws st).

Definition withData (st : state) (d : list item) : state :=
  State (st_grid st) (st_id st) d (st_sizes st) (st_classSizes st) (st_draws st).

(** [shrinkRows($elements[e], shrinkTo)].  [shrinkTo] is an integer: the
    second pass calls with [posLast[X] - 1], which is [-1] on row 0.  An [e]
    that is no element has no [pos], and reading [pos[X]] throws.  The new
    row count [shrinkTo - pos[X] + 1] is a natural number when the element
    starts at row [shrinkTo + 1] or above, as an element found in that row
    does; a call outside this range is [OutOfModel]. *)
Definition shrinkRows (e : nat) (shrinkTo : Z) (st : state) : result state :=
  match st_data st !! e with
  | None => TypeError
  | Some it =>
      if decide (Z.of_nat (item_pos it).1 ≤ shrinkTo + 1)%Z then
        let first := Z.to_nat (shrinkTo + 1) in
        let stop := (item_pos it).1 + item_rows it in
        let* g :=
          forM (seq first (stop - first))
               (λ i g, forM (seq (item_pos it).2 (item_cols it))
                            (λ j g, cellWrite g i j None) g)
               (st_grid st) in
        let rows' := Z.to_nat (shrinkTo - Z.of_nat (item_pos it).1 + 1) in
        Ok (withData (withGrid st g)
              (<[e := Item (item_id it) (item_pos it) rows' (item_cols it)]>
                 (st_data st)))
      else OutOfModel
  end.

(** The loop [for (i = from; i < to; i++)] that shrinks the occupant of
    every taken cell of row [r]. *)
Definition shrinkOccupants (r from to : nat) (shrinkTo : Z) (st : state)
  : result state :=
  forM (seq from (to - from))
       (λ i st,
          let* c := cellRead (st_grid st) r i in
          match c with
          | Some e => shrinkRows e shrinkTo st
          | None => Ok st
          end)
       st.

(** [allFilled = true; for (...) allFilled &= grid[posLast[X]][i] >= 0] *)
Definition allFilled (g : grid) (r from to : nat) : result bool :=
  forM (seq from (to - from))
       (λ i b, let* c := cellRead g r i in Ok (b && bool_decide (is_Some c)))
       true.

Definition normalise (total : nat) (st : state) : result state :=
  match st_data st !! (total - 1) with
  | None => TypeError
  | Some last =>
      let posLast := item_pos last in
      let rowsLast := item_rows last in
      let colsLast := item_cols last in
      let below := posLast.1 + rowsLast in
      (* elements on the left that end lower than the last one *)
      let* st1 :=
        match aget (st_grid st) below with
        | Some _ => shrinkOccupants below 0 posLast.2 (Z.of_nat below - 1) st
        | None => Ok st
        end in
      (* elements on the right that reach the row of the last one *)
      let* filled := allFilled (st_grid st1) posLast.1 (posLast.2 + colsLast) cols in
      let* st2 :=
        if filled then Ok st1
        else shrinkOccupants posLast.1 (posLast.2 + colsLast) cols
                             (Z.of_nat posLast.1 - 1) st1 in
      (* expand the last element to the end of the grid *)
      let* filled' := allFilled (st_grid st2) posLast.1 (posLast.2 + colsLast) cols in
      let* st3 :=
        if filled' then Ok st2
        else
          let* g :=
            forM (seq posLast.1 rowsLast)
                 (λ i g, forM (seq (posLast.2 + colsLast) (cols - (posLast.2 + colsLast)))
                              (λ j g, cellWrite g i j
                                        (item_id <$> st_data st2 !! (total - 1))) g)
                 (st_grid st2) in
          Ok (withData (withGrid st2 g)
                (alter (λ it, Item (item_id it) (item_pos it) (item_rows it)
                                   (cols - posLast.2))
                       (total - 1) (st_data st2))) in
      (* grid.splice(posLast[X] + rowsLast, grid.length - posLast[X] - rowsLast) *)
      Ok (withGrid st3 (take below (st_grid st3)))
  end.

(** ** 2. and 3. Separator lines *)

(** A vertical line right of column [v_col], from row [v_start] to row
    [v_end]; a horizontal line under row [h_row], from column [h_start] to
    column [h_end]. *)
Record vseg : Type := VSeg { v_col : nat; v_start : nat; v_end : nat }.
Record hseg : Type := HSeg { h_row : nat; h_start : nat; h_end : nat }.

Definition isRightFrontier (g : grid) (x y : nat) : bool :=
  match aget g x with
  | None => false
  | Some r => negb (bool_decide (aget r y = aget r (y + 1)))
  end.

Definition isTopFrontier (g : grid) (x y : nat) : result bool :=
  let* a := cellRead g x y in
  let* b := cellRead g (x + 1) y in
  Ok (negb (bool_decide (a = b))).

(** [start] and [end] are [null] together or set together at every test of
    them, so the pair is one optional run.  [x] is the row that the loop
    condition has just tested, the source's [x - 1] after [x++].  Each
    [while] loop is given the steps within which it exits on any grid
    ([lines_stay_in_fuel] below), so [OutOfFuel] is no outcome of the two
    passes. *)
Fixpoint vInner (fuel : nat) (g : grid) (y x : nat) (run : option (nat * nat))
  : result (nat * option (nat * nat)) :=
  match fuel with
  | 0 => OutOfFuel
  | S fuel' =>
      if isRightFrontier g x y then
        vInner fuel' g y (S x)
               (Some (match run with None => x | Some r => r.1 end, x))
      else Ok (S x, run)
  end.

Fixpoint vOuter (fuel : nat) (g : grid) (y x : nat) (run : option (nat * nat))
    (out : list vseg) : result (list vseg) :=
  match fuel with
  | 0 => OutOfFuel
  | S fuel' =>
      if decide (x < length g) then
        let* r := vInner (S (length g)) g y x run in
        match r.2 with
        | Some se => vOuter fuel' g y r.1 None (out ++ [VSeg y se.1 se.2])
        | None => vOuter fuel' g y r.1 None out
        end
      else Ok out
  end.

Definition verticalLines (g : grid) : result (list vseg) :=
  forM (seq 0 (cols - 1)) (λ y out, vOuter (S (length g)) g y 0 None out) [].

Definition rowLength (g : grid) (x : nat) : nat :=
  match aget g x with
  | None => 0
  | Some r => length r
  end.

(** [y] is the column that the loop condition has just tested, the
    source's [y - 1] after [y++]; the source's [y - 2] is [y - 1] here. *)
Fixpoint hInner (fuel : nat) (g : grid) (x y : nat) (run : option (nat * nat))
    (out : list hseg) : result (nat * option (nat * nat) * list hseg) :=
  match fuel with
  | 0 => OutOfFuel
  | S fuel' =>
      let* top := isTopFrontier g x y in
      if top then
        match run with
        | None => hInner fuel' g x (S y) (Some (y, y)) out
        | Some se =>
            if isRightFrontier g x (y - 1) && isRightFrontier g (x + 1) (y - 1)
            then hInner fuel' g x (S y) (Some (y, y)) (out ++ [HSeg x se.1 se.2])
            else hInner fuel' g x (S y) (Some (se.1, y)) out
        end
      else Ok (S y, run, out)
  end.

Fixpoint hOuter (fuel : nat) (g : grid) (x y : nat) (run : option (nat * nat))
    (out : list hseg) : result (list hseg) :=
  match fuel with
  | 0 => OutOfFuel
  | S fuel' =>
      if bool_decide (is_Some (aget g x)) && bool_decide (y < cols) then
        let* r := hInner (S (Nat.max (rowLength g x) (rowLength g (x + 1))))
                         g x y run out in
        match r.1.2 with
        | Some se => hOuter fuel' g x r.1.1 None (r.2 ++ [HSeg x se.1 se.2])
        | None => hOuter fuel' g x r.1.1 None r.2
        end
      else Ok out
  end.

Definition horizontalLines (g : grid) : result (list hseg) :=
  forM (seq 0 (length g - 1)) (λ x out, hOuter (S cols) g x 0 None out) [].

(** ** The plugin call *)

Record output : Type := Output {
  placements : list item;
  occupancy : grid;
  verticalSegments : list vseg;
  horizontalSegments : list hseg;
  totalRows : nat
}.

Definition initial (sizes : list size) (classSizes : list (string * list size))
  : state :=
  State [] 0 [] sizes classSizes 0.

(** [$.fn.grid], from the lookup of [$elements] on.  [elements] lists the
    classes of each selected element. *)
Definition run (sizes : list size) (classSizes : list (string * list size))
    (elements : list (list string)) : result (output * state) :=
  let st0 := initial sizes classSizes in
  match elements with
  | [] => Ok (Output [] [] [] [] 0, st0)
  | _ =>
      let total := length elements in
      let* st := each total 0 elements st0 in
      let* st' := normalise total st in
      let* v := verticalLines (st_grid st') in
      let* h := horizontalLines (st_grid st') in
      Ok (Output (st_data st') (st_grid st') v h (length (st_grid st')), st')
  end.

End Plugin.

End FirstFit.

(** * The older plugin, [js/grid.js] *)

Module Scanning.

(** [{ id, cols, rows }], the sizes read from [data-cols] and [data-rows]. *)
Record element : Type := Element {
  el_id : nat;
  el_cols : nat;
  el_rows : nat
}.

(** [hLines] and [vLines]: arrays of rows that hold [true]. *)
Abbreviation marks := (jsarray (jsarray bool)).

Section Plugin.

Variable cols : nat.

(** [grid[i] !== undefined && grid[i][j]]: a truthy cell, which [0] and
    [undefined] are not. *)
Definition taken (g : grid) (i j : nat) : bool :=
  match aget g i with
  | None => false
  | Some r =>
      match aget r j with
      | None => false
      | Some n => negb (bool_decide (n = 0))
      end
  end.

(** [isAllocable(element, pos)], the width test again without the
    subtraction. *)
Definition isAllocable (g : grid) (el : element) (p : pos) : bool :=
  if decide (cols + 1 ≤ p.2 + el_cols el) then false
  else forallb (λ i, forallb (λ j, negb (taken g i j)) (seq p.2 (el_cols el)))
               (seq p.1 (el_rows el)).

(** The body of [while (!isAllocable(element, pos))]. *)
Definition advance (p : pos) : pos :=
  if decide (p.2 < cols) then (p.1, p.2 + 1)   (* jump a column *)
  else (p.1 + 1, 0).                           (* jump a line *)

(** The loop that finds the first fitting position, run for at most [fuel]
    tests of its condition. *)
Fixpoint findPosition (fuel : nat) (g : grid) (el : element) (p : pos)
  : result pos :=
  match fuel with
  | 0 => OutOfFuel
  | S fuel' =>
      if isAllocable g el p then Ok p
      else findPosition fuel' g el (advance p)
  end.

(** The body of [$(s.selector, this).each(...)] up to the marking of the
    virtual grid: [sz] is the element's [(data-rows, data-cols)], [id] the
    counter before [++id]. *)
Definition place (fuel : nat) (sz : size) (acc : grid * nat * list item)
  : result (grid * nat * list item) :=
  let g := acc.1.1 in
  let id := S acc.1.2 in
  let el := Element id sz.2 sz.1 in
  let* p := findPosition fuel g el (0, 0) in
  let* g' := mark g p (el_rows el) (el_cols el) id in
  Ok (g', id, acc.2 ++ [Item id p (el_rows el) (el_cols el)]).

Fixpoint each (fuel : nat) (elements : list size) (acc : grid * nat * list item)
  : result (grid * nat * list item) :=
  match elements with
  | [] => Ok acc
  | sz :: elements' =>
      let* acc' := place fuel sz acc in
      each fuel elements' acc'
  end.

(** Placements and [grid.length] after step 1. *)
Definition pack (fuel : nat) (elements : list size) : result (list item * nat) :=
  let* acc := each fuel elements ([], 0, []) in
  Ok (acc.2, length acc.1.1).

(** ** Separator marks

    [hLines] and [vLines] are arrays of rows in which [true] is written at
    the top edge and at the left edge of every element that is not in the
    first row or in the first column.  The marks of an element depend on its
    position and size only, not on the marks made before, so they are
    folded over the placements that step 1 has made, in its order. *)

(** [m[i] !== undefined && m[i][j]] *)
Definition marked (m : marks) (i j : nat) : bool :=
  match aget m i with
  | None => false
  | Some r => match aget r j with
              | Some b => b
              | None => false
              end
  end.

(** [if (m[i] === undefined) { m[i] = []; }] *)
Definition materializeMarks (m : marks) (i : nat) : marks :=
  match aget m i with
  | None => aset m i (Some [])
  | Some _ => m
  end.

(** [m[i][j] = true]: throws when [m[i]] is undefined. *)
Definition setMark (m : marks) (i j : nat) : result marks :=
  match aget m i with
  | None => TypeError
  | Some r => Ok (aset m i (Some (aset r j (Some true))))
  end.

(** [if (pos[X] > 0) { ... hLines[pos[X] - 1][i] = true ... }] *)
Definition markH (hLines : marks) (p : pos) (elCols : nat) : result marks :=
  match p.1 with
  | 0 => Ok hLines
  | S x =>
      forM (seq p.2 elCols) (λ i m, setMark m x i) (materializeMarks hLines x)
  end.

(** [if (pos[Y] > 0) { ... vLines[i][pos[Y] - 1] = true ... }] *)
Definition markV (vLines : marks) (p : pos) (elRows : nat) : result marks :=
  match p.2 with
  | 0 => Ok vLines
  | S y =>
      forM (seq p.1 elRows) (λ i m, setMark (materializeMarks m i) i y) vLines
  end.

Fixpoint eachMarks (placed : list item) (hv : marks * marks)
  : result (marks * marks) :=
  match placed with
  | [] => Ok hv
  | it :: placed' =>
      let* hLines := markH hv.1 (item_pos it) (item_cols it) in
      let* vLines := markV hv.2 (item_pos it) (item_rows it) in
      eachMarks placed' (hLines, vLines)
  end.

(** ** 2. Vertical lines, grouped from [vLines] *)

(** The loops are those of the current plugin with
    [vLines[x] !== undefined && vLines[x][y]] for the frontier test and
    [vLines.length] for the bound; segments are the records of [FirstFit]. *)
Fixpoint vInner (fuel : nat) (vLines : marks) (y x : nat) (run : option (nat * nat))
  : result (nat * option (nat * nat)) :=
  match fuel with
  | 0 => OutOfFuel
  | S fuel' =>
      if marked vLines x y then
        vInner fuel' vLines y (S x)
               (Some (match run with None => x | Some r => r.1 end, x))
      else Ok (S x, run)
  end.

Fixpoint vOuter (fuel : nat) (vLines : marks) (y x : nat) (run : option (nat * nat))
    (out : list FirstFit.vseg) : result (list FirstFit.vseg) :=
  match fuel with
  | 0 => OutOfFuel
  | S fuel' =>
      if decide (x < length vLines) then
        let* r := vInner (S (length vLines)) vLines y x run in
        match r.2 with
        | Some se => vOuter fuel' vLines y r.1 None (out ++ [FirstFit.VSeg y se.1 se.2])
        | None => vOuter fuel' vLines y r.1 None out
        end
      else Ok out
  end.

Definition verticalLines (vLines : marks) : result (list FirstFit.vseg) :=
  forM (seq 0 (cols - 1)) (λ y out, vOuter (S (length vLines)) vLines y 0 None out) [].

(** ** 3. Horizontal lines, grouped from [hLines] and split at [vLines] *)

(** [hLines[x][y++]] is tested with [hLines[x]] defined, which the outer
    loop has checked.  The split test
    [vLines[x] !== undefined && vLines[x + 1] !== undefined] followed by
    [vLines[x][y - 2] && vLines[x + 1][y - 2]] is the conjunction of two
    [marked] tests. *)
Fixpoint hInner (fuel : nat) (hLines vLines : marks) (x y : nat)
    (run : option (nat * nat)) (out : list FirstFit.hseg)
  : result (nat * option (nat * nat) * list FirstFit.hseg) :=
  match fuel with
  | 0 => OutOfFuel
  | S fuel' =>
      if marked hLines x y then
        match run with
        | None => hInner fuel' hLines vLines x (S y) (Some (y, y)) out
        | Some se =>
            if marked vLines x (y - 1) && marked vLines (x + 1) (y - 1)
            then hInner fuel' hLines vLines x (S y) (Some (y, y))
                        (out ++ [FirstFit.HSeg x se.1 se.2])
            else hInner fuel' hLines vLines x (S y) (Some (se.1, y)) out
        end
      else Ok (S y, run, out)
  end.

Definition marksRowLength (m : marks) (x : nat) : nat :=
  match aget m x with
  | None => 0
  | Some r => length r
  end.

Fixpoint hOuter (fuel : nat) (hLines vLines : marks) (x y : nat)
    (run : option (nat * nat)) (out : list FirstFit.hseg)
  : result (list FirstFit.hseg) :=
  match fuel with
  | 0 => OutOfFuel
  | S fuel' =>
      if bool_decide (is_Some (aget hLines x)) && bool_decide (y < cols) then
        let* r := hInner (S (marksRowLength hLines x)) hLines vLines x y run out in
        match r.1.2 with
        | Some se => hOuter fuel' hLines vLines x r.1.1 None
                            (r.2 ++ [FirstFit.HSeg x se.1 se.2])
        | None => hOuter fuel' hLines vLines x r.1.1 None r.2
        end
      else Ok out
  end.

Definition horizontalLines (hLines vLines : marks) : result (list FirstFit.hseg) :=
  forM (seq 0 (length hLines)) (λ x out, hOuter (S cols) hLines vLines x 0 None out) [].

(** Steps 1 to 3: the placements, [grid.length], and the lines drawn. *)
Definition run (fuel : nat) (elements : list size)
  : result (list item * nat * list FirstFit.vseg * list FirstFit.hseg) :=
  let* acc := each fuel elements ([], 0, []) in
  let* hv := eachMarks acc.2 ([], []) in
  let* v := verticalLines hv.2 in
  let* h := horizontalLines hv.1 hv.2 in
  Ok (acc.2, length acc.1.1, v, h).

End Plugin.

End Scanning.

(** * Properties to be established *)

(** Every row index below [grid.length] holds a row. *)
Definition rowsDefined (g : grid) : Prop :=
  ∀ i, i < length g → is_Some (aget g i).

(** [p] comes before [q] in the row-major order. *)
Definition before (p q : pos) : Prop :=
  p.1 < q.1 ∨ (p.1 = q.1 ∧ p.2 < q.2).

(** The perfect rectangle: every cell of the first [totalRows] rows and
    [cols] columns holds the id of a placed element whose rectangle covers
    the cell, and no other element's rectangle covers it. *)
Definition perfectRectangle (cols : nat) (out : FirstFit.output) : Prop :=
  ∀ i j, i < FirstFit.totalRows out → j < cols →
    ∃ it, it ∈ FirstFit.placements out ∧
          cell (FirstFit.occupancy out) i j = Some (item_id it) ∧
          in_rect it i j ∧
          ∀ it', it' ∈ FirstFit.placements out → in_rect it' i j → it' = it.

(** A vertical line runs between columns [v_col] and [v_col + 1] from the
    top of row [v_start] to the bottom of row [v_end]; a horizontal line runs
    between rows [h_row] and [h_row + 1] from the left of column [h_start] to
    the right of column [h_end].  They meet in a point interior to both when
    the vertical one passes the row boundary and the horizontal one passes
    the column boundary. *)
Definition crosses (v : FirstFit.vseg) (h : FirstFit.hseg) : Prop :=
  (FirstFit.v_start v ≤ FirstFit.h_row h < FirstFit.v_end v) ∧
  (FirstFit.h_start h ≤ FirstFit.v_col v < FirstFit.h_end h).

(** The test that splits a horizontal run of row [x] between columns [y]
    and [y + 1]. *)
Definition splitAt (g : grid) (x y : nat) : Prop :=
  FirstFit.isRightFrontier g x y = true ∧
  FirstFit.isRightFrontier g (x + 1) y = true.

(** Two states with the same grid, id counter and element data: what a
    size selection leaves alone. *)
Definition sameBoard (st st' : FirstFit.state) : Prop :=
  FirstFit.st_grid st' = FirstFit.st_grid st ∧
  FirstFit.st_id st' = FirstFit.st_id st ∧
  FirstFit.st_data st' = FirstFit.st_data st.

(** A vertical line lies on frontiers only. *)
Definition vsegOk (g : grid) (v : FirstFit.vseg) : Prop :=
  ∀ x, FirstFit.v_start v ≤ x ≤ FirstFit.v_end v →
       FirstFit.isRightFrontier g x (FirstFit.v_col v) = true.

(** A run of row [x] from column [s] to column [e]: every column of it
    is a top frontier, it was not to be split at any boundary inside it, and
    it does not merely continue a frontier on its left. *)
Definition hrunOk (g : grid) (x s e : nat) : Prop :=
  s ≤ e ∧
  (∀ c, s ≤ c ≤ e → FirstFit.isTopFrontier g x c = Ok true) ∧
  (∀ c, s ≤ c < e → ¬ splitAt g x c) ∧
  (0 < s → FirstFit.isTopFrontier g x (s - 1) = Ok true → splitAt g x (s - 1)).

(** A horizontal line is such a run that, when the frontier goes on to its
    right, ends at a split. *)
Definition hsegOk (g : grid) (h : FirstFit.hseg) : Prop :=
  hrunOk g (FirstFit.h_row h) (FirstFit.h_start h) (FirstFit.h_end h) ∧
  (FirstFit.isTopFrontier g (FirstFit.h_row h) (FirstFit.h_end h + 1) = Ok true →
   splitAt g (FirstFit.h_row h) (FirstFit.h_end h)).

(** The state of the horizontal scan of row [x] before column [y] is
    tested. *)
Definition hscanOk (g : grid) (x y : nat) (run : option (nat * nat)) : Prop :=
  match run with
  | None => 0 < y → FirstFit.isTopFrontier g x (y - 1) ≠ Ok true
  | Some se => S se.2 = y ∧ hrunOk g x se.1 se.2
  end.

(** The grid and the element data agree: a cell holds [e] exactly when the
    rectangle stored for element [e] covers it. *)
Definition consistent (g : grid) (d : list item) : Prop :=
  ∀ i j e, cell g i j = Some e ↔ ∃ it, d !! e = Some it ∧ in_rect it i j.

(** The element at index [e] of [$elements] has id [e]. *)
Definition idsOk (d : list item) : Prop :=
  ∀ e it, d !! e = Some it → item_id it = e.

(** What the packing loop maintains when no size is pinned. *)
Definition packed (st : FirstFit.state) : Prop :=
  rowsDefined (FirstFit.st_grid st) ∧
  consistent (FirstFit.st_grid st) (FirstFit.st_data st) ∧
  idsOk (FirstFit.st_data st) ∧
  FirstFit.st_id st = length (FirstFit.st_data st).

(** The element placed last has size [[1, 1]] and sits at a cell before
    which, in row-major order, no cell of the grid's columns is empty. *)
Definition lastPlaced (cols : nat) (st : FirstFit.state) : Prop :=
  ∃ p, FirstFit.st_data st !! (length (FirstFit.st_data st) - 1)
       = Some (Item (length (FirstFit.st_data st) - 1) p 1 1) ∧
       p.2 < cols ∧
       ∀ q, before q p → q.2 < cols → cell (FirstFit.st_grid st) q.1 q.2 ≠ None.

(** A state reached from [st0] during normalisation: grid and data still
    agree, the rows above [r] are as they were, and the element [k], the last
    one, still has the data [last]. *)
Definition settled (r k : nat) (last : item) (st0 st : FirstFit.state) : Prop :=
  rowsDefined (FirstFit.st_grid st) ∧
  consistent (FirstFit.st_grid st) (FirstFit.st_data st) ∧
  idsOk (FirstFit.st_data st) ∧
  length (FirstFit.st_grid st) = length (FirstFit.st_grid st0) ∧
  length (FirstFit.st_data st) = length (FirstFit.st_data st0) ∧
  (∀ i j, i < r → cell (FirstFit.st_grid st) i j = cell (FirstFit.st_grid st0) i j) ∧
  FirstFit.st_data st !! k = Some last.

(** What every run maintains, pinned sizes or not: the rows of the grid
    exist, a cell that holds [e] lies in the rectangle stored for element
    [e], and every stored rectangle ends within the grid's rows. *)
Definition sound (g : grid) (d : list item) : Prop :=
  rowsDefined g ∧
  (∀ i j e, cell g i j = Some e → ∃ it, d !! e = Some it ∧ in_rect it i j) ∧
  (∀ e it, d !! e = Some it → (item_pos it).1 + item_rows it ≤ length g).

(** A size of at least one row and one column, and a store whose pools
    hold such sizes only. *)
Definition validSize (sz : nat * nat) : Prop := 1 ≤ sz.1 ∧ 1 ≤ sz.2.

Definition validPools (st : FirstFit.state) : Prop :=
  Forall validSize (FirstFit.st_sizes st) ∧
  Forall (λ kv : string * list (nat * nat), Forall validSize kv.2)
         (FirstFit.st_classSizes st).

(** Elements in reading order: a later one starts after every earlier one
    in row-major order. *)
Definition readingOrder (d : list item) : Prop :=
  ∀ k k' a b, k < k' → d !! k = Some a → d !! k' = Some b →
              before (item_pos a) (item_pos b).

(** Element data after shrinking: every element keeps its id, position and
    columns, and has at most the rows it had. *)
Definition shrunk (d d' : list item) : Prop :=
  length d' = length d ∧
  ∀ k it', d' !! k = Some it' →
    ∃ it, d !! k = Some it ∧ item_id it' = item_id it ∧
          item_pos it' = item_pos it ∧ item_cols it' = item_cols it ∧
          item_rows it' ≤ item_rows it.

(** Column [c] of the boundary under row [x] lies on one of the lines
    [hs]. *)
Definition hcovered (hs : list FirstFit.hseg) (x c : nat) : Prop :=
  ∃ h, h ∈ hs ∧ FirstFit.h_row h = x ∧ FirstFit.h_start h ≤ c ≤ FirstFit.h_end h.

(** The rows [s] to [e] are a maximal run of the test [F]. *)
Definition maximalRun (F : nat → bool) (s e : nat) : Prop :=
  s ≤ e ∧ (∀ x, s ≤ x ≤ e → F x = true) ∧ F (S e) = false ∧
  (0 < s → F (s - 1) = false).

(** The left edge of a placed element lies between columns [j] and [j + 1]
    at row [i]; its top edge lies between rows [i] and [i + 1] at column
    [j]. *)
Definition leftEdge (d : list item) (i j : nat) : Prop :=
  ∃ it, it ∈ d ∧ (item_pos it).2 = S j ∧
        (item_pos it).1 ≤ i < (item_pos it).1 + item_rows it.

Definition topEdge (d : list item) (i j : nat) : Prop :=
  ∃ it, it ∈ d ∧ (item_pos it).1 = S i ∧
        (item_pos it).2 ≤ j < (item_pos it).2 + item_cols it.

(** * JavaScript arrays: reading after writing *)

Section Arrays.

Context {A : Type}.
Implicit Types (a : jsarray A) (v : option A).

Lemma aget_ge a i : length a ≤ i → aget a i = None.
Proof. intros H. unfold aget. by rewrite lookup_ge_None_2. Qed.

Lemma aget_is_Some_lt a i : is_Some (aget a i) → i < length a.
Proof.
  intros [x Hx]. destruct (decide (i < length a)) as [|Hn]; [done|].
  rewrite aget_ge in Hx; [done | lia].
Qed.

Lemma aset_length a i v : length (aset a i v) = Nat.max (length a) (S i).
Proof.
  unfold aset. case_decide.
  - rewrite length_insert. lia.
  - rewrite !length_app, length_replicate. simpl. lia.
Qed.

Lemma aget_aset_eq a i v : aget (aset a i v) i = v.
Proof.
  unfold aget, aset. case_decide.
  - by rewrite list_lookup_insert_eq.
  - rewrite lookup_app_r by lia.
    rewrite lookup_app_r by (rewrite length_replicate; lia).
    rewrite length_replicate.
    replace (i - length a - (i - length a)) with 0 by lia. done.
Qed.

Lemma aget_aset_ne a i j v : i ≠ j → aget (aset a i v) j = aget a j.
Proof.
  intros Hij. unfold aget, aset. case_decide.
  - by rewrite list_lookup_insert_ne.
  - destruct (decide (j < length a)).
    + by rewrite lookup_app_l.
    + rewrite (lookup_ge_None_2 a j) by lia.
      rewrite lookup_app_r by lia.
      destruct (decide (j - length a < i - length a)).
      * rewrite lookup_app_l by (rewrite length_replicate; lia).
        by rewrite lookup_replicate_2.
      * rewrite lookup_app_r by (rewrite length_replicate; lia).
        rewrite length_replicate.
        rewrite lookup_ge_None_2; [done | simpl; lia].
Qed.

Lemma aget_aset a i j v :
  aget (aset a i v) j = if decide (i = j) then v else aget a j.
Proof.
  case_decide; [subst; apply aget_aset_eq | by apply aget_aset_ne].
Qed.

End Arrays.

(** * Writes into the grid *)

Section GridWrites.

Implicit Types (g : grid) (v : option nat).

Lemma rbind_Ok {A B} (m : result A) (k : A → result B) b :
  rbind m k = Ok b ↔ ∃ a, m = Ok a ∧ k a = Ok b.
Proof.
  destruct m; simpl; split; try done; try (intros (? & ? & ?); congruence).
  eauto.
Qed.

Lemma cellRead_cell g i j : is_Some (aget g i) → cellRead g i j = Ok (cell g i j).
Proof. intros [r Hr]. unfold cellRead, cell. by rewrite Hr. Qed.

Lemma cellRead_Ok g i j c : cellRead g i j = Ok c → c = cell g i j ∧ is_Some (aget g i).
Proof.
  unfold cellRead, cell. destruct (aget g i) eqn:E; [|done].
  intros [= <-]. eauto.
Qed.

Lemma cell_Some_row g i j e : cell g i j = Some e → is_Some (aget g i).
Proof. unfold cell. destruct (aget g i); [eauto | done]. Qed.

Lemma cell_Some_lt g i j e : cell g i j = Some e → i < length g.
Proof. intros H. eapply aget_is_Some_lt, cell_Some_row, H. Qed.

Lemma cellWrite_spec g i j v :
  is_Some (aget g i) →
  ∃ g', cellWrite g i j v = Ok g' ∧
        length g' = length g ∧
        (∀ i', aget g' i' = None ↔ aget g i' = None) ∧
        ∀ i' j', cell g' i' j' = if decide (i' = i ∧ j' = j) then v else cell g i' j'.
Proof.
  intros Hi. pose proof (aget_is_Some_lt _ _ Hi) as Hlt.
  destruct Hi as [r Hr]. unfold cellWrite. rewrite Hr.
  eexists. split; [done|]. split; [|split].
  - rewrite aset_length. lia.
  - intros i'. rewrite aget_aset. case_decide; [subst; by rewrite Hr | done].
  - intros i' j'. unfold cell. rewrite aget_aset.
    destruct (decide (i = i')) as [->|Hne].
    + rewrite Hr, aget_aset.
      destruct (decide (j = j')) as [->|Hne'].
      * by rewrite decide_True.
      * rewrite decide_False; [done | intros [_ ->]; done].
    + rewrite decide_False; [done | intros [-> _]; done].
Qed.

(** The inner loop [for (j = a; j < a + n; j++) grid[i][j] = v]. *)
Lemma writeRow_spec g i a n v :
  is_Some (aget g i) →
  ∃ g', forM (seq a n) (λ j g, cellWrite g i j v) g = Ok g' ∧
        length g' = length g ∧
        (∀ i', aget g' i' = None ↔ aget g i' = None) ∧
        ∀ i' j', cell g' i' j'
                 = if decide (i' = i ∧ a ≤ j' < a + n) then v else cell g i' j'.
Proof.
  revert a g. induction n as [|n IH]; intros a g Hi; simpl.
  - exists g. repeat split; try done.
    intros i' j'. rewrite decide_False; [done | lia].
  - destruct (cellWrite_spec g i a v Hi) as (g1 & -> & Hlen & Hrows & Hcell).
    simpl. destruct (IH (S a) g1) as (g2 & -> & Hlen2 & Hrows2 & Hcell2).
    { destruct (aget g1 i) eqn:E; [eauto|]. apply Hrows in E.
      destruct Hi as [? Hi]. congruence. }
    exists g2. split; [done|]. split; [congruence|]. split.
    { intros i'. by rewrite Hrows2, Hrows. }
    intros i' j'. rewrite Hcell2, Hcell.
    repeat case_decide; try done; lia.
Qed.

(** The two nested loops over a rectangle of existing rows. *)
Lemma writeRect_spec g r n c m v :
  (∀ i, r ≤ i < r + n → is_Some (aget g i)) →
  ∃ g', forM (seq r n)
             (λ i g, forM (seq c m) (λ j g, cellWrite g i j v) g) g = Ok g' ∧
        length g' = length g ∧
        (∀ i', aget g' i' = None ↔ aget g i' = None) ∧
        ∀ i' j', cell g' i' j'
                 = if decide (r ≤ i' < r + n ∧ c ≤ j' < c + m) then v
                   else cell g i' j'.
Proof.
  revert r g. induction n as [|n IH]; intros r g Hrows; simpl.
  - exists g. repeat split; try done.
    intros i' j'. rewrite decide_False; [done | lia].
  - destruct (writeRow_spec g r c m v) as (g1 & -> & Hlen & Hr1 & Hcell).
    { apply Hrows. lia. }
    simpl. destruct (IH (S r) g1) as (g2 & -> & Hlen2 & Hr2 & Hcell2).
    { intros i Hi. destruct (aget g1 i) eqn:E; [eauto|]. apply Hr1 in E.
      destruct (Hrows i) as [? ?]; [lia | congruence]. }
    exists g2. split; [done|]. split; [congruence|]. split.
    { intros i'. by rewrite Hr2, Hr1. }
    intros i' j'. rewrite Hcell2, Hcell.
    repeat case_decide; try done; lia.
Qed.

Lemma materialize_spec g i :
  is_Some (aget (materialize g i) i) ∧
  length (materialize g i) = (if decide (is_Some (aget g i)) then length g
                              else Nat.max (length g) (S i)) ∧
  (∀ i', aget (materialize g i) i' = None ↔ i' ≠ i ∧ aget g i' = None) ∧
  ∀ i' j', cell (materialize g i) i' j' = cell g i' j'.
Proof.
  unfold materialize. destruct (aget g i) as [r|] eqn:E.
  - split; [rewrite E; eauto|]. split; [by rewrite decide_True by eauto|].
    split; [|done]. intros i'. split; [|tauto].
    intros H. split; [|done]. intros ->. congruence.
  - split; [rewrite aget_aset_eq; eauto|].
    split. { rewrite decide_False by (intros [? ?]; done). apply aset_length. }
    split.
    + intros i'. rewrite aget_aset. case_decide.
      * subst. split; [done | intros [? _]; done].
      * split; [intros; split; [congruence | done] | tauto].
    + intros i' j'. unfold cell. rewrite aget_aset.
      case_decide; [subst; by rewrite E | done].
Qed.

(** Marking never throws, whatever the grid. *)
Lemma markRows_spec g p r rows cols id :
  ∃ g', forM (seq r rows) (markRow p cols id) g = Ok g' ∧
        (∀ i', aget g' i' = None ↔ ¬ (r ≤ i' < r + rows) ∧ aget g i' = None) ∧
        (∀ i' j', cell g' i' j'
                  = if decide (r ≤ i' < r + rows ∧ p.2 ≤ j' < p.2 + cols)
                    then Some id else cell g i' j').
Proof.
  revert r g. induction rows as [|n IH]; intros r g; simpl.
  - exists g. split; [done|]. split; [intros; split; [split; [lia|done] | tauto] |].
    intros i' j'. rewrite decide_False; [done | lia].
  - unfold markRow at 1.
    destruct (materialize_spec g r) as (Hs & _ & Hm & Hc).
    destruct (writeRow_spec _ r p.2 cols (Some id) Hs) as (g1 & -> & _ & Hr1 & Hcell).
    simpl. destruct (IH (S r) g1) as (g2 & -> & Hr2 & Hcell2).
    exists g2. split; [done|]. split.
    + intros i'. rewrite Hr2, Hr1, Hm. split.
      * intros (? & ? & ?). split; [lia | done].
      * intros (? & ?). split; [lia|]. split; [lia | done].
    + intros i' j'. rewrite Hcell2, Hcell, Hc.
      repeat case_decide; try done; lia.
Qed.

Lemma mark_spec g p rows cols id :
  ∃ g', mark g p rows cols id = Ok g' ∧
        (∀ i', aget g' i' = None ↔
               ¬ (p.1 ≤ i' < p.1 + rows) ∧ aget g i' = None) ∧
        (∀ i' j', cell g' i' j'
                  = if decide (in_rect (Item id p rows cols) i' j') then Some id
                    else cell g i' j').
Proof.
  destruct (markRows_spec g p p.1 rows cols id) as (g' & H & Hr & Hc).
  exists g'. split; [done|]. split; [done|].
  intros i' j'. rewrite Hc. unfold in_rect. simpl.
  repeat case_decide; try done; tauto.
Qed.

Lemma mark_length g p rows cols id g' :
  rowsDefined g → p.1 ≤ length g →
  mark g p rows cols id = Ok g' →
  rowsDefined g' ∧ length g' = Nat.max (length g) (p.1 + rows).
Proof.
  unfold mark. generalize (p.1) as r. intros r.
  revert r g. induction rows as [|n IH]; intros r g Hdef Hle; simpl.
  - intros [= <-]. split; [done | lia].
  - unfold markRow at 1.
    destruct (materialize_spec g r) as (Hs & Hl & Hm & _).
    destruct (writeRow_spec _ r p.2 cols (Some id) Hs) as (g1 & -> & Hl1 & Hr1 & _).
    simpl. intros H. apply IH in H.
    + destruct H as [? ->]. split; [done|]. rewrite Hl1, Hl. case_decide as E; [|lia].
      apply aget_is_Some_lt in E. lia.
    + intros i Hi. rewrite Hl1, Hl in Hi.
      destruct (aget g1 i) eqn:E; [eauto|]. apply Hr1, Hm in E as [Hne E].
      destruct (Hdef i) as [? ?]; [|congruence].
      case_decide; lia.
    + rewrite Hl1, Hl. case_decide as E; [|lia]. apply aget_is_Some_lt in E. lia.
Qed.

End GridWrites.

(** * [firstEmptySpace] *)

Section FirstEmptySpace.

Variable cols : nat.
Implicit Types (g : grid) (p q : pos).

Lemma scanRow_Ok g i j n r :
  FirstFit.scanRow g i j n = Ok r →
  match r with
  | Some j' => j ≤ j' < j + n ∧ cell g i j' = None ∧
               ∀ j'', j ≤ j'' < j' → cell g i j'' ≠ None
  | None => ∀ j'', j ≤ j'' < j + n → cell g i j'' ≠ None
  end.
Proof.
  revert j. induction n as [|n IH]; intros j; simpl.
  - intros [= <-]. intros; lia.
  - intros H. apply rbind_Ok in H as (c & Hc & H).
    apply cellRead_Ok in Hc as [-> _].
    destruct (cell g i j) as [e|] eqn:E.
    + apply IH in H. destruct r as [j'|].
      * destruct H as (? & ? & H). split; [lia|]. split; [done|].
        intros j'' ?. destruct (decide (j'' = j)) as [->|]; [congruence|].
        apply H. lia.
      * intros j'' ?. destruct (decide (j'' = j)) as [->|]; [congruence|].
        apply H. lia.
    + injection H as <-. split; [lia|]. split; [done|]. intros; lia.
Qed.

Lemma scanRow_total g i j n :
  is_Some (aget g i) → ∃ r, FirstFit.scanRow g i j n = Ok r.
Proof.
  intros Hi. revert j. induction n as [|n IH]; intros j; simpl; [eauto|].
  rewrite cellRead_cell by done. simpl.
  destruct (cell g i j); [apply IH | eauto].
Qed.

Lemma scanGrid_Ok g i n p :
  i + n = length g →
  FirstFit.scanGrid cols g i n = Ok p →
  (i ≤ p.1 < length g ∧ p.2 < cols ∧ cell g p.1 p.2 = None ∧
   ∀ i' j', i ≤ i' → i' < p.1 ∨ (i' = p.1 ∧ j' < p.2) → j' < cols →
            cell g i' j' ≠ None)
  ∨ (p = (length g, 0) ∧
     ∀ i' j', i ≤ i' < length g → j' < cols → cell g i' j' ≠ None).
Proof.
  revert i. induction n as [|n IH]; intros i Hlen; simpl.
  - intros [= <-]. right. split; [done|]. intros; lia.
  - intros H. apply rbind_Ok in H as (r & Hr & H).
    apply scanRow_Ok in Hr. destruct r as [j|].
    + injection H as <-. simpl. left. destruct Hr as (? & ? & Hr).
      split; [lia|]. split; [lia|]. split; [done|].
      intros i' j' ? [?|[-> ?]] ?; [lia|]. apply Hr. lia.
    + apply IH in H; [|lia].
      assert (∀ i' j', i' = i → j' < cols → cell g i' j' ≠ None) as Hrow.
      { intros i' j' -> ?. apply Hr. lia. }
      destruct H as [(? & ? & ? & H)|(-> & H)]; [left|right].
      * split; [lia|]. split; [done|]. split; [done|].
        intros i' j' ? Hb ?. destruct (decide (i' = i)); [by apply Hrow|].
        apply H; [lia | done | done].
      * split; [done|]. intros i' j' ? ?.
        destruct (decide (i' = i)); [by apply Hrow|]. apply H; [lia | done].
Qed.

Lemma scanGrid_total g i n :
  rowsDefined g → i + n = length g →
  ∃ p, FirstFit.scanGrid cols g i n = Ok p.
Proof.
  intros Hdef. revert i. induction n as [|n IH]; intros i Hlen; simpl; [eauto|].
  destruct (scanRow_total g i 0 cols) as [r ->]; [apply Hdef; lia|].
  simpl. destruct r; [eauto|]. apply IH. lia.
Qed.

Lemma firstEmptySpace_total g :
  rowsDefined g → ∃ p, FirstFit.firstEmptySpace cols g = Ok p.
Proof. intros. by apply scanGrid_total. Qed.

(** What the packer uses of the first empty space. *)
Lemma firstEmptySpace_first g p :
  FirstFit.firstEmptySpace cols g = Ok p →
  p.1 ≤ length g ∧ p.2 ≤ cols ∧ (0 < cols → p.2 < cols) ∧
  cell g p.1 p.2 = None ∧
  ∀ q, before q p → q.2 < cols → cell g q.1 q.2 ≠ None.
Proof.
  intros H. apply scanGrid_Ok in H; [|done].
  destruct H as [(? & ? & ? & H)|(-> & H)].
  - split; [lia|]. split; [lia|]. split; [done|]. split; [done|].
    intros q Hq ?. apply H; [lia | exact Hq | done].
  - simpl. split; [done|]. split; [lia|]. split; [done|]. split.
    + unfold cell. by rewrite aget_ge.
    + intros q [Hq|[? ?]] ?; simpl in *; [|lia]. apply H; [lia | done].
Qed.

End FirstEmptySpace.

(** Claim C7.  On a grid whose rows all exist [firstEmptySpace] returns a
    position, and whenever it returns one it is the first empty cell in
    row-major order among the columns below [s.cols]: the cell is empty and
    no cell before it, in an earlier row or further left in its row, is.
    When no cell of the materialised rows is empty the position is
    [(grid.length, 0)]. *)
Theorem firstEmptySpace_row_major (cols : nat) (g : grid) :
  (rowsDefined g → ∃ p, FirstFit.firstEmptySpace cols g = Ok p) ∧
  (∀ p, FirstFit.firstEmptySpace cols g = Ok p →
     (p.1 < length g ∧ p.2 < cols ∧ cell g p.1 p.2 = None ∧
      ∀ q, before q p → q.2 < cols → cell g q.1 q.2 ≠ None)
     ∨ (p = (length g, 0) ∧
        ∀ i j, i < length g → j < cols → cell g i j ≠ None)).
Proof.
  split; [apply firstEmptySpace_total|].
  intros p Hp. apply scanGrid_Ok in Hp; [|done].
  destruct Hp as [(? & ? & ? & H)|(-> & H)]; [left|right].
  - split; [lia|]. split; [done|]. split; [done|].
    intros q Hq ?. apply H; [lia | exact Hq | done].
  - split; [done|]. intros i j ? ?. apply H; [lia | done].
Qed.

Lemma firstEmptySpace_row_major_witness :
  FirstFit.firstEmptySpace 3 [Some [Some 0; Some 1; Some 1];
                              Some [Some 2; None; Some 1]] = Ok (1, 1) ∧
  ((1 < 2 ∧ 1 < 3 ∧
    cell [Some [Some 0; Some 1; Some 1]; Some [Some 2; None; Some 1]] 1 1 = None ∧
    ∀ q, before q (1, 1) → q.2 < 3 →
         cell [Some [Some 0; Some 1; Some 1]; Some [Some 2; None; Some 1]]
              q.1 q.2 ≠ None)
   ∨ ((1, 1) = (2, 0) ∧
      ∀ i j, i < 2 → j < 3 →
             cell [Some [Some 0; Some 1; Some 1]; Some [Some 2; None; Some 1]]
                  i j ≠ None)).
Proof.
  split; [reflexivity|].
  apply (proj2 (firstEmptySpace_row_major 3
                  [Some [Some 0; Some 1; Some 1]; Some [Some 2; None; Some 1]])
           (1, 1)).
  reflexivity.
Defined.

(** * [shuffle] and [getRandomSize] *)

Section Selection.

Variable cols : nat.
Variable rnd : nat → nat.
Implicit Types (g : grid) (p : pos) (l : list (nat * nat)) (st : FirstFit.state).

Lemma swap_length l i j : length (FirstFit.swap l i j) = length l.
Proof.
  unfold FirstFit.swap. destruct (l !! i), (l !! j); try done.
  by rewrite !length_insert.
Qed.

Lemma swap_Permutation l i j : FirstFit.swap l i j ≡ₚ l.
Proof.
  unfold FirstFit.swap.
  destruct (l !! i) as [a|] eqn:Ei; [|done].
  destruct (l !! j) as [b|] eqn:Ej; [|done].
  pose proof (lookup_lt_Some _ _ _ Ei). pose proof (lookup_lt_Some _ _ _ Ej).
  apply Permutation_inj. split; [by rewrite !length_insert|].
  exists (λ n, if decide (n = i) then j else if decide (n = j) then i else n).
  split.
  - intros n m. repeat case_decide; intros; subst; congruence.
  - intros n. rewrite !list_lookup_insert, length_insert.
    repeat case_decide; destruct_and?; subst; try congruence; try lia.
Qed.

Lemma shuffleFrom_Permutation n l k : (FirstFit.shuffleFrom rnd n l k).1 ≡ₚ l.
Proof.
  revert l k. induction n as [|n IH]; intros l k; simpl; [done|].
  rewrite IH. apply swap_Permutation.
Qed.

Lemma shuffle_Permutation l k : (FirstFit.shuffle rnd l k).1 ≡ₚ l.
Proof. apply shuffleFrom_Permutation. Qed.

Lemma firstAllocable_spec g p l :
  (∃ n, l !! n = Some (FirstFit.firstAllocable cols g p l) ∧
        FirstFit.isAllocable cols g (FirstFit.firstAllocable cols g p l) p = true ∧
        ∀ m sz, m < n → l !! m = Some sz →
                FirstFit.isAllocable cols g sz p = false)
  ∨ (FirstFit.firstAllocable cols g p l = (1, 1) ∧
     ∀ sz, sz ∈ l → FirstFit.isAllocable cols g sz p = false).
Proof.
  induction l as [|sz l IH]; simpl.
  - right. split; [done|]. intros sz Hsz. by apply elem_of_nil in Hsz.
  - destruct (FirstFit.isAllocable cols g sz p) eqn:E.
    + left. exists 0. split; [done|]. split; [done|]. intros; lia.
    + destruct IH as [(n & Hn & Ha & Hm)|(H1 & Hall)]; [left|right].
      * exists (S n). split; [done|]. split; [done|].
        intros [|m] sz' ? Hsz'; simpl in Hsz'; [congruence|].
        eapply Hm; [|done]. lia.
      * split; [done|]. intros sz' [->|?]%elem_of_cons; [done | by apply Hall].
Qed.

End Selection.

Section GetRandomSize.

Variable cols : nat.
Variable rnd : nat → nat.
Implicit Types (g : grid) (p : pos) (l : list (nat * nat)) (st : FirstFit.state).

Lemma getRandomSize_unfold p rem ref st :
  FirstFit.getRandomSize cols rnd p rem ref st
  = (if decide (rem = 1) then (1, 1)
     else FirstFit.firstAllocable cols (FirstFit.st_grid st) p
            (FirstFit.shuffle rnd (FirstFit.readPool st ref) (FirstFit.st_draws st)).1,
     FirstFit.writePool st ref
       (FirstFit.shuffle rnd (FirstFit.readPool st ref) (FirstFit.st_draws st)).1
       (FirstFit.shuffle rnd (FirstFit.readPool st ref) (FirstFit.st_draws st)).2).
Proof.
  unfold FirstFit.getRandomSize.
  destruct (FirstFit.shuffle rnd _ _) as [shuffled k]. simpl.
  by case_decide.
Qed.

Lemma writePool_sameBoard st ref l k : sameBoard st (FirstFit.writePool st ref l k).
Proof. by destruct ref. Qed.

Lemma getRandomSize_sameBoard p rem ref st :
  sameBoard st (FirstFit.getRandomSize cols rnd p rem ref st).2.
Proof. rewrite getRandomSize_unfold. apply writePool_sameBoard. Qed.

Lemma readPool_writePool st ref l k :
  (∀ n, ref = FirstFit.ClassSizes n → length (FirstFit.st_classSizes st) ≤ n → l = []) →
  FirstFit.readPool (FirstFit.writePool st ref l k) ref = l.
Proof.
  destruct ref as [|n]; simpl; [done|]. intros Hn.
  rewrite list_lookup_alter_eq.
  destruct (FirstFit.st_classSizes st !! n) as [[key old]|] eqn:E; [done|].
  symmetry. apply (Hn n); [done|]. by apply lookup_ge_None.
Qed.

Lemma shuffle_nil k : FirstFit.shuffle rnd [] k = ([], k).
Proof. done. Qed.

(** The size that comes back fits at [p], or is the fall-back [[1, 1]]. *)
Lemma getRandomSize_fits p rem ref st :
  (FirstFit.getRandomSize cols rnd p rem ref st).1 = (1, 1) ∨
  FirstFit.isAllocable cols (FirstFit.st_grid st) (FirstFit.getRandomSize cols rnd p rem ref st).1 p = true.
Proof.
  rewrite getRandomSize_unfold. simpl. case_decide; [by left|].
  destruct (firstAllocable_spec cols (FirstFit.st_grid st) p
              (FirstFit.shuffle rnd (FirstFit.readPool st ref) (FirstFit.st_draws st)).1)
    as [(n & _ & Ha & _)|[H1 _]]; [by right | by left].
Qed.

End GetRandomSize.

(** Claim C6.  [getRandomSize] works on a permutation of the pool.  With one
    element remaining it returns [[1, 1]] whatever the pool holds.  Otherwise
    it returns the first entry of the shuffled pool that is allocable at
    [pos], and [[1, 1]] when no entry is. *)
Theorem getRandomSize_selects (cols : nat) (rnd : nat → nat) (p : nat * nat)
    (rem : nat) (ref : FirstFit.poolRef) (st : FirstFit.state) :
  (FirstFit.shuffle rnd (FirstFit.readPool st ref) (FirstFit.st_draws st)).1
    ≡ₚ FirstFit.readPool st ref ∧
  (rem = 1 → (FirstFit.getRandomSize cols rnd p rem ref st).1 = (1, 1)) ∧
  (rem ≠ 1 →
   (∃ n,
      (FirstFit.shuffle rnd (FirstFit.readPool st ref) (FirstFit.st_draws st)).1 !! n
        = Some (FirstFit.getRandomSize cols rnd p rem ref st).1 ∧
      FirstFit.isAllocable cols (FirstFit.st_grid st)
        (FirstFit.getRandomSize cols rnd p rem ref st).1 p = true ∧
      ∀ m sz, m < n →
        (FirstFit.shuffle rnd (FirstFit.readPool st ref) (FirstFit.st_draws st)).1 !! m
          = Some sz →
        FirstFit.isAllocable cols (FirstFit.st_grid st) sz p = false)
   ∨ ((FirstFit.getRandomSize cols rnd p rem ref st).1 = (1, 1) ∧
      ∀ sz,
        sz ∈ (FirstFit.shuffle rnd (FirstFit.readPool st ref) (FirstFit.st_draws st)).1 →
        FirstFit.isAllocable cols (FirstFit.st_grid st) sz p = false)).
Proof.
  split; [apply shuffle_Permutation|].
  rewrite getRandomSize_unfold. simpl. split.
  - intros ->. by rewrite decide_True.
  - intros Hrem. rewrite decide_False by done. apply firstAllocable_spec.
Qed.

Lemma getRandomSize_selects_witness :
  (FirstFit.getRandomSize 2 (λ _, 0) (0, 0) 1 FirstFit.Sizes
     (FirstFit.initial [(2, 2); (1, 2)] [])).1 = (1, 1).
Proof.
  apply (proj1 (proj2 (getRandomSize_selects 2 (λ _, 0) (0, 0) 1 FirstFit.Sizes
                         (FirstFit.initial [(2, 2); (1, 2)] [])))).
  reflexivity.
Defined.

(** * Size resolution: pool, [startsWith], [classSizes] *)

Section Resolution.

Variable cols : nat.
Variable rnd : nat → nat.
Variable startsWith : list (option (nat * nat)).
Implicit Types (g : grid) (p : pos) (st : FirstFit.state)
  (acc : nat * nat * FirstFit.state).

Lemma foldl_preserves {A B} (f : A → B → A) (P : A → Prop) (l : list B) (a : A) :
  P a → (∀ a b, P a → P (f a b)) → P (foldl f a l).
Proof. revert a. induction l; simpl; auto. Qed.

Lemma sameBoard_trans st1 st2 st3 :
  sameBoard st1 st2 → sameBoard st2 st3 → sameBoard st1 st3.
Proof. unfold sameBoard. intros (-> & -> & ->) (-> & -> & ->). done. Qed.

Lemma classOverride_cases p rem cl n acc :
  FirstFit.classOverride cols rnd p rem cl n acc = acc ∨
  FirstFit.classOverride cols rnd p rem cl n acc
    = FirstFit.getRandomSize cols rnd p rem (FirstFit.ClassSizes n) acc.2.
Proof.
  unfold FirstFit.classOverride.
  destruct (FirstFit.st_classSizes acc.2 !! n) as [[key pool]|]; [|by left].
  destruct (_ && _); [by right | by left].
Qed.

Lemma classOverride_sameBoard p rem cl n acc :
  sameBoard acc.2 (FirstFit.classOverride cols rnd p rem cl n acc).2.
Proof.
  destruct (classOverride_cases p rem cl n acc) as [->| ->]; [done|].
  apply getRandomSize_sameBoard.
Qed.

Lemma classOverride_sizes p rem cl n acc :
  FirstFit.st_sizes (FirstFit.classOverride cols rnd p rem cl n acc).2
  = FirstFit.st_sizes acc.2.
Proof.
  destruct (classOverride_cases p rem cl n acc) as [->| ->]; [done|].
  by rewrite getRandomSize_unfold.
Qed.

Lemma classOverride_fits p rem cl n acc :
  acc.1 = (1, 1) ∨ FirstFit.isAllocable cols (FirstFit.st_grid acc.2) acc.1 p = true →
  (FirstFit.classOverride cols rnd p rem cl n acc).1 = (1, 1) ∨
  FirstFit.isAllocable cols (FirstFit.st_grid acc.2)
    (FirstFit.classOverride cols rnd p rem cl n acc).1 p = true.
Proof.
  destruct (classOverride_cases p rem cl n acc) as [->| ->]; [done|].
  intros _. apply getRandomSize_fits.
Qed.

(** The selection leaves the board alone and leaves [s.sizes] shuffled
    once. *)
Lemma resolveSize_sameBoard p rem i cl st :
  sameBoard st (FirstFit.resolveSize cols rnd startsWith p rem i cl st).2.
Proof.
  unfold FirstFit.resolveSize. apply foldl_preserves.
  - apply getRandomSize_sameBoard.
  - intros acc n H. eapply sameBoard_trans; [exact H|]. apply classOverride_sameBoard.
Qed.

Lemma resolveSize_sizes p rem i cl st :
  FirstFit.st_sizes (FirstFit.resolveSize cols rnd startsWith p rem i cl st).2
  = (FirstFit.shuffle rnd (FirstFit.st_sizes st) (FirstFit.st_draws st)).1.
Proof.
  unfold FirstFit.resolveSize. apply foldl_preserves.
  - by rewrite getRandomSize_unfold.
  - intros acc n H. by rewrite classOverride_sizes.
Qed.

(** Without a pinned size the resolved size fits at [p] or is [[1, 1]]. *)
Lemma resolveSize_fits p rem i cl st :
  aget startsWith i = None →
  (FirstFit.resolveSize cols rnd startsWith p rem i cl st).1 = (1, 1) ∨
  FirstFit.isAllocable cols (FirstFit.st_grid st)
    (FirstFit.resolveSize cols rnd startsWith p rem i cl st).1 p = true.
Proof.
  intros Hsw. unfold FirstFit.resolveSize. rewrite Hsw.
  set (P := λ acc : nat * nat * FirstFit.state,
              sameBoard st acc.2 ∧
              (acc.1 = (1, 1) ∨
               FirstFit.isAllocable cols (FirstFit.st_grid st) acc.1 p = true)).
  cut (P (foldl (λ acc n, FirstFit.classOverride cols rnd p rem cl n acc)
             ((FirstFit.getRandomSize cols rnd p rem FirstFit.Sizes st).1,
              (FirstFit.getRandomSize cols rnd p rem FirstFit.Sizes st).2)
             (seq 0 (length (FirstFit.st_classSizes
                               (FirstFit.getRandomSize cols rnd p rem FirstFit.Sizes st).2))))).
  { intros [_ H]. exact H. }
  apply foldl_preserves.
  - split; [apply getRandomSize_sameBoard | apply getRandomSize_fits].
  - intros acc n [Hb Hf]. split.
    + eapply sameBoard_trans; [exact Hb|]. apply classOverride_sameBoard.
    + destruct Hb as (Hg & _). rewrite <- Hg in Hf |- *.
      by apply classOverride_fits.
Qed.

(** A pinned size stays when every matching class pool contains it. *)
Lemma resolveSize_pinned p rem i cl st pinned :
  aget startsWith i = Some pinned →
  (∀ n key pool, FirstFit.st_classSizes st !! n = Some (key, pool) →
                 key ∈ cl → pinned ∈ pool) →
  (FirstFit.resolveSize cols rnd startsWith p rem i cl st).1 = pinned.
Proof.
  intros Hsw Hpools. unfold FirstFit.resolveSize. rewrite Hsw.
  set (P := λ acc : nat * nat * FirstFit.state,
              acc.1 = pinned ∧
              FirstFit.st_classSizes acc.2 = FirstFit.st_classSizes st).
  cut (P (foldl (λ acc n, FirstFit.classOverride cols rnd p rem cl n acc)
             (pinned, (FirstFit.getRandomSize cols rnd p rem FirstFit.Sizes st).2)
             (seq 0 (length (FirstFit.st_classSizes
                               (FirstFit.getRandomSize cols rnd p rem FirstFit.Sizes st).2))))).
  { intros [H _]. exact H. }
  apply foldl_preserves.
  - split; [done|]. by rewrite getRandomSize_unfold.
  - intros [sz st1] n [Hsz Hcs]. simpl in Hsz, Hcs. subst sz.
    unfold FirstFit.classOverride. simpl. rewrite Hcs.
    destruct (FirstFit.st_classSizes st !! n) as [[key pool]|] eqn:E; [|done].
    destruct (decide (key ∈ cl)) as [Hin|Hnin].
    + rewrite (bool_decide_eq_true_2 (pinned ∈ pool)) by eauto.
      rewrite andb_false_r. done.
    + rewrite (bool_decide_eq_false_2 (key ∈ cl)) by done. done.
Qed.

(** What a successful turn of the packing loop did. *)
Lemma place_Ok total i cl st st' :
  FirstFit.place cols rnd startsWith total i cl st = Ok st' →
  ∃ p g',
    FirstFit.firstEmptySpace cols (FirstFit.st_grid st) = Ok p ∧
    mark (FirstFit.st_grid st) p
         (FirstFit.resolveSize cols rnd startsWith p (total - i) i cl st).1.1
         (FirstFit.resolveSize cols rnd startsWith p (total - i) i cl st).1.2
         (FirstFit.st_id st) = Ok g' ∧
    st' = FirstFit.State g' (S (FirstFit.st_id st))
            (FirstFit.st_data st ++
               [Item (FirstFit.st_id st) p
                  (FirstFit.resolveSize cols rnd startsWith p (total - i) i cl st).1.1
                  (FirstFit.resolveSize cols rnd startsWith p (total - i) i cl st).1.2])
            (FirstFit.st_sizes (FirstFit.resolveSize cols rnd startsWith p (total - i) i cl st).2)
            (FirstFit.st_classSizes (FirstFit.resolveSize cols rnd startsWith p (total - i) i cl st).2)
            (FirstFit.st_draws (FirstFit.resolveSize cols rnd startsWith p (total - i) i cl st).2).
Proof.
  unfold FirstFit.place. intros H.
  apply rbind_Ok in H as (p & Hp & H). simpl in H.
  apply rbind_Ok in H as (g' & Hg & H). injection H as <-.
  destruct (resolveSize_sameBoard p (total - i) i cl st) as (Eg & Ei & Ed).
  rewrite Eg, Ei in Hg. rewrite Ei, Ed.
  exists p, g'. done.
Qed.

End Resolution.

(** Claim C9.  [shuffle] permutes the array it was handed, not a copy: after
    any call of [getRandomSize] the pool that was passed holds the shuffled
    order.  This includes the call for the last element, whose answer is
    [[1, 1]], and every turn of the packing loop leaves [s.sizes] reordered
    in this way.  The order does change: [[[1,1],[2,2]]] becomes
    [[[2,2],[1,1]]] when the draws are all 0. *)
Theorem getRandomSize_shuffles_in_place (cols : nat) (rnd : nat → nat)
    (startsWith : list (option (nat * nat))) (p : nat * nat) (rem : nat)
    (ref : FirstFit.poolRef) (st : FirstFit.state) :
  FirstFit.readPool (FirstFit.getRandomSize cols rnd p rem ref st).2 ref
    = (FirstFit.shuffle rnd (FirstFit.readPool st ref) (FirstFit.st_draws st)).1 ∧
  FirstFit.st_sizes (FirstFit.getRandomSize cols rnd p 1 FirstFit.Sizes st).2
    = (FirstFit.shuffle rnd (FirstFit.st_sizes st) (FirstFit.st_draws st)).1 ∧
  (∀ total i cl st',
     FirstFit.place cols rnd startsWith total i cl st = Ok st' →
     FirstFit.st_sizes st'
       = (FirstFit.shuffle rnd (FirstFit.st_sizes st) (FirstFit.st_draws st)).1) ∧
  (FirstFit.getRandomSize 2 (λ _, 0) (0, 0) 1 FirstFit.Sizes
     (FirstFit.initial [(1, 1); (2, 2)] []))
    = ((1, 1), FirstFit.State [] 0 [] [(2, 2); (1, 1)] [] 2).
Proof.
  split; [|split; [|split]].
  - rewrite getRandomSize_unfold. simpl. apply readPool_writePool.
    intros n -> Hn. simpl. rewrite lookup_ge_None_2 by done. done.
  - by rewrite getRandomSize_unfold.
  - intros total i cl st' H. apply place_Ok in H as (q & g' & _ & _ & ->).
    simpl. apply resolveSize_sizes.
  - reflexivity.
Qed.

Lemma getRandomSize_shuffles_in_place_witness :
  FirstFit.place 2 (λ _, 0) [] 1 0 [] (FirstFit.initial [(1, 1); (2, 2)] [])
  = Ok (FirstFit.State [Some [Some 0]] 1 [Item 0 (0, 0) 1 1] [(2, 2); (1, 1)] [] 2) ∧
  FirstFit.st_sizes
    (FirstFit.State [Some [Some 0]] 1 [Item 0 (0, 0) 1 1] [(2, 2); (1, 1)] [] 2)
  = (FirstFit.shuffle (λ _, 0) [(1, 1); (2, 2)] 0).1.
Proof.
  split; [reflexivity|].
  apply (proj1 (proj2 (proj2 (getRandomSize_shuffles_in_place 2 (λ _, 0) []
                                (0, 0) 1 FirstFit.Sizes
                                (FirstFit.initial [(1, 1); (2, 2)] []))))
           1 0 []).
  reflexivity.
Defined.

(** * Pinned sizes and class pools *)

(** Claim C3, as stated, fails: the element at index 0 has the size [[2, 2]]
    pinned by [startsWith] and carries a class whose pool is [[[1, 1]]]; the
    class loop selects again and the element ends with [[1, 1]]. *)
Lemma pinned_size_replaced_by_class_pool :
  aget [Some (2, 2)] 0 = Some (2, 2) ∧
  (FirstFit.resolveSize 3 (λ _, 0) [Some (2, 2)] (0, 0) 2 0 ["a"%string]
     (FirstFit.initial [(1, 1)] [("a"%string, [(1, 1)])])).1 ≠ (2, 2).
Proof. split; [reflexivity | vm_compute; discriminate]. Qed.

(** The class loop, key by key. *)
Section ClassLoop.

Variable cols : nat.
Variable rnd : nat → nat.
Implicit Types (p : pos) (st : FirstFit.state) (acc : nat * nat * FirstFit.state).

(** A key that the element does not have, or whose pool holds the current
    size, leaves the size and the store alone. *)
Lemma classOverride_skip p rem cl n acc key pool :
  FirstFit.st_classSizes acc.2 !! n = Some (key, pool) →
  (key ∈ cl → acc.1 ∈ pool) →
  FirstFit.classOverride cols rnd p rem cl n acc = acc.
Proof.
  intros Hn Hin. unfold FirstFit.classOverride. rewrite Hn.
  destruct (decide (key ∈ cl)) as [Hkey|Hkey].
  - rewrite (bool_decide_eq_true_2 (acc.1 ∈ pool)) by auto.
    by rewrite andb_false_r.
  - by rewrite (bool_decide_eq_false_2 (key ∈ cl)).
Qed.

(** A key that the element has and whose pool lacks the current size
    selects again, from that pool. *)
Lemma classOverride_reselect p rem cl n acc key pool :
  FirstFit.st_classSizes acc.2 !! n = Some (key, pool) →
  key ∈ cl → acc.1 ∉ pool →
  FirstFit.classOverride cols rnd p rem cl n acc
  = FirstFit.getRandomSize cols rnd p rem (FirstFit.ClassSizes n) acc.2.
Proof.
  intros Hn Hkey Hpool. unfold FirstFit.classOverride. rewrite Hn.
  by rewrite bool_decide_eq_true_2, bool_decide_eq_false_2.
Qed.

(** The turns of the loop over keys that all leave the size alone. *)
Lemma classLoop_skip p rem cl acc a k :
  (∀ m key pool, a ≤ m < a + k →
     FirstFit.st_classSizes acc.2 !! m = Some (key, pool) → key ∈ cl → acc.1 ∈ pool) →
  foldl (λ acc n, FirstFit.classOverride cols rnd p rem cl n acc) acc (seq a k) = acc.
Proof.
  revert a. induction k as [|k IH]; intros a Hskip; cbn [seq foldl]; [done|].
  assert (FirstFit.classOverride cols rnd p rem cl a acc = acc) as ->.
  { destruct (FirstFit.st_classSizes acc.2 !! a) as [[key pool]|] eqn:E.
    - eapply classOverride_skip; [exact E|]. apply (Hskip a); [lia | done].
    - unfold FirstFit.classOverride. by rewrite E. }
  apply IH. intros m key pool Hm. apply Hskip. lia.
Qed.

(** From a size that [getRandomSize] has returned on, the loop ends with a
    size that is [[1, 1]] or fits at [p]. *)
Lemma classLoop_fits p rem cl st acc l :
  sameBoard st acc.2 →
  acc.1 = (1, 1) ∨ FirstFit.isAllocable cols (FirstFit.st_grid st) acc.1 p = true →
  (foldl (λ acc n, FirstFit.classOverride cols rnd p rem cl n acc) acc l).1 = (1, 1) ∨
  FirstFit.isAllocable cols (FirstFit.st_grid st)
    (foldl (λ acc n, FirstFit.classOverride cols rnd p rem cl n acc) acc l).1 p = true.
Proof.
  intros Hb Hf.
  cut (sameBoard st (foldl (λ acc n, FirstFit.classOverride cols rnd p rem cl n acc) acc l).2 ∧
       ((foldl (λ acc n, FirstFit.classOverride cols rnd p rem cl n acc) acc l).1 = (1, 1) ∨
        FirstFit.isAllocable cols (FirstFit.st_grid st)
          (foldl (λ acc n, FirstFit.classOverride cols rnd p rem cl n acc) acc l).1 p = true)).
  { intros [_ H]. exact H. }
  apply (foldl_preserves _ (λ acc : nat * nat * FirstFit.state,
                              sameBoard st acc.2 ∧
                              (acc.1 = (1, 1) ∨
                               FirstFit.isAllocable cols (FirstFit.st_grid st) acc.1 p = true))).
  - done.
  - intros acc' n [Hb' Hf']. split.
    + eapply sameBoard_trans; [exact Hb'|]. apply classOverride_sameBoard.
    + destruct Hb' as (Hg & _). rewrite <- Hg in Hf' |- *. by apply classOverride_fits.
Qed.

End ClassLoop.

(** The first key that the element has and whose pool lacks [x], among the
    first [n] keys, if there is one. *)
Lemma first_lacking (cs : list (string * list (nat * nat))) (cl : list string)
    (x : nat * nat) (n : nat) :
  (∀ m key pool, m < n → cs !! m = Some (key, pool) → key ∈ cl → x ∈ pool) ∨
  ∃ n0 key pool,
    n0 < n ∧ cs !! n0 = Some (key, pool) ∧ key ∈ cl ∧ (x ∉ pool) ∧
    ∀ m key' pool', m < n0 → cs !! m = Some (key', pool') → key' ∈ cl → x ∈ pool'.
Proof.
  induction n as [|n [IH|(n0 & key & pool & ? & ?)]].
  - left. intros; lia.
  - destruct (cs !! n) as [[key pool]|] eqn:E.
    + destruct (decide (key ∈ cl ∧ x ∉ pool)) as [[? ?]|Hnot].
      * right. exists n, key, pool. split; [lia | done].
      * left. intros m key' pool' Hm Hlook Hkey'.
        destruct (decide (m = n)) as [->|]; [|apply (IH m key'); [lia | done..]].
        rewrite E in Hlook. injection Hlook as <- <-.
        destruct (decide (x ∈ pool)) as [|?]; [done|]. by destruct Hnot.
    + left. intros m key' pool' Hm Hlook Hkey'.
      destruct (decide (m = n)) as [->|]; [congruence|].
      apply (IH m key'); [lia | done..].
  - right. exists n0, key, pool. split; [lia | done].
Qed.

(** The resolution of a pinned size that some class pool of the element
    lacks: the loop leaves it alone up to the first such key, selects again
    there, and goes on with the new size. *)
Lemma resolveSize_reselected (cols : nat) (rnd : nat → nat)
    (startsWith : list (option (nat * nat))) (p : nat * nat) (rem i : nat)
    (cl : list string) (st : FirstFit.state) (pinned : nat * nat)
    (n : nat) (key : string) (pool : list (nat * nat)) :
  aget startsWith i = Some pinned →
  FirstFit.st_classSizes st !! n = Some (key, pool) →
  key ∈ cl → pinned ∉ pool →
  (∀ m key' pool', m < n → FirstFit.st_classSizes st !! m = Some (key', pool') →
                   key' ∈ cl → pinned ∈ pool') →
  FirstFit.resolveSize cols rnd startsWith p rem i cl st
  = foldl (λ acc m, FirstFit.classOverride cols rnd p rem cl m acc)
          (FirstFit.getRandomSize cols rnd p rem (FirstFit.ClassSizes n)
             (FirstFit.getRandomSize cols rnd p rem FirstFit.Sizes st).2)
          (seq (S n) (length (FirstFit.st_classSizes st) - S n)).
Proof.
  intros Hsw Hn Hkey Hpool Hfirst.
  set (st1 := (FirstFit.getRandomSize cols rnd p rem FirstFit.Sizes st).2).
  assert (FirstFit.st_classSizes st1 = FirstFit.st_classSizes st) as Hcs1.
  { unfold st1. by rewrite getRandomSize_unfold. }
  unfold FirstFit.resolveSize. rewrite Hsw. fold st1. rewrite Hcs1.
  pose proof (lookup_lt_Some _ _ _ Hn) as Hlt.
  replace (length (FirstFit.st_classSizes st))
    with (n + S (length (FirstFit.st_classSizes st) - S n)) at 1 by lia.
  rewrite seq_app, foldl_app. cbn [seq foldl]. rewrite Nat.add_0_l.
  rewrite (classLoop_skip cols rnd p rem cl (pinned, st1) 0 n).
  - rewrite (classOverride_reselect cols rnd p rem cl n (pinned, st1) key pool);
      [done | simpl; by rewrite Hcs1 | done | done].
  - simpl. intros m key' pool' Hm. rewrite Hcs1. apply Hfirst. lia.
Qed.

(** Such a pinned size is replaced by [[1, 1]] or by a size that fits. *)
Lemma resolveSize_replaced_fits (cols : nat) (rnd : nat → nat)
    (startsWith : list (option (nat * nat))) (p : nat * nat) (rem i : nat)
    (cl : list string) (st : FirstFit.state) (pinned : nat * nat) :
  aget startsWith i = Some pinned →
  (∃ n key pool, FirstFit.st_classSizes st !! n = Some (key, pool) ∧
                 key ∈ cl ∧ pinned ∉ pool) →
  (FirstFit.resolveSize cols rnd startsWith p rem i cl st).1 = (1, 1) ∨
  FirstFit.isAllocable cols (FirstFit.st_grid st)
    (FirstFit.resolveSize cols rnd startsWith p rem i cl st).1 p = true.
Proof.
  intros Hsw (n & key & pool & Hn & Hkey & Hpool).
  assert (∃ n0 key0 pool0,
            FirstFit.st_classSizes st !! n0 = Some (key0, pool0) ∧ key0 ∈ cl ∧
            (pinned ∉ pool0) ∧
            ∀ m key' pool', m < n0 →
              FirstFit.st_classSizes st !! m = Some (key', pool') →
              key' ∈ cl → pinned ∈ pool')
    as (n0 & key0 & pool0 & Hn0 & Hkey0 & Hpool0 & Hfirst).
  { destruct (first_lacking (FirstFit.st_classSizes st) cl pinned n)
      as [Hall|(n0 & key0 & pool0 & _ & ? & ? & ? & ?)].
    - by exists n, key, pool.
    - by exists n0, key0, pool0. }
  rewrite (resolveSize_reselected cols rnd startsWith p rem i cl st pinned n0 key0 pool0)
    by done.
  apply classLoop_fits.
  - eapply sameBoard_trans; apply getRandomSize_sameBoard.
  - destruct (getRandomSize_sameBoard cols rnd p rem FirstFit.Sizes st) as (Hg & _).
    rewrite <- Hg. apply getRandomSize_fits.
Qed.

(** Claim C3, amended.  A size pinned for the element's index replaces the
    choice made from the global pool.  It is the element's resolved size when
    every class of the element that has a pool in [classSizes] has the pinned
    size in that pool.  Otherwise the pinned size does not win: at the first
    key of [classSizes], in its enumeration order, that the element has and
    whose pool lacks the pinned size, the size is selected again from that
    pool, and the class loop goes on from the next key with the new size,
    which a later class pool of the element that lacks it replaces in turn.
    The resolved size is then [[1, 1]] or a size that is allocable at the
    position; it is the size selected at that first key when every later
    class pool of the element holds it. *)
Theorem pinned_size_resolution (cols : nat) (rnd : nat → nat)
    (startsWith : list (option (nat * nat))) (p : nat * nat) (rem i : nat)
    (cl : list string) (st : FirstFit.state) (pinned : nat * nat) :
  aget startsWith i = Some pinned →
  ((∀ n key pool, FirstFit.st_classSizes st !! n = Some (key, pool) →
                  key ∈ cl → pinned ∈ pool) →
   (FirstFit.resolveSize cols rnd startsWith p rem i cl st).1 = pinned) ∧
  (∀ n key pool,
     FirstFit.st_classSizes st !! n = Some (key, pool) →
     key ∈ cl → pinned ∉ pool →
     (∀ m key' pool', m < n → FirstFit.st_classSizes st !! m = Some (key', pool') →
                      key' ∈ cl → pinned ∈ pool') →
     FirstFit.resolveSize cols rnd startsWith p rem i cl st
     = foldl (λ acc m, FirstFit.classOverride cols rnd p rem cl m acc)
             (FirstFit.getRandomSize cols rnd p rem (FirstFit.ClassSizes n)
                (FirstFit.getRandomSize cols rnd p rem FirstFit.Sizes st).2)
             (seq (S n) (length (FirstFit.st_classSizes st) - S n)) ∧
     ((FirstFit.resolveSize cols rnd startsWith p rem i cl st).1 = (1, 1) ∨
      FirstFit.isAllocable cols (FirstFit.st_grid st)
        (FirstFit.resolveSize cols rnd startsWith p rem i cl st).1 p = true) ∧
     ((∀ m key' pool', n < m → FirstFit.st_classSizes st !! m = Some (key', pool') →
                       key' ∈ cl →
                       (FirstFit.getRandomSize cols rnd p rem (FirstFit.ClassSizes n)
                          (FirstFit.getRandomSize cols rnd p rem FirstFit.Sizes st).2).1
                       ∈ pool') →
      (FirstFit.resolveSize cols rnd startsWith p rem i cl st).1
      = (FirstFit.getRandomSize cols rnd p rem (FirstFit.ClassSizes n)
           (FirstFit.getRandomSize cols rnd p rem FirstFit.Sizes st).2).1)).
Proof.
  intros Hsw. split; [by apply resolveSize_pinned|].
  intros n key pool Hn Hkey Hpool Hfirst.
  pose proof (resolveSize_reselected cols rnd startsWith p rem i cl st pinned n key pool
                Hsw Hn Hkey Hpool Hfirst) as Heq.
  split; [exact Heq|]. split.
  - apply (resolveSize_replaced_fits cols rnd startsWith p rem i cl st pinned Hsw).
    by exists n, key, pool.
  - intros Hlater. rewrite Heq. rewrite classLoop_skip; [done|].
    intros m key' pool' Hm Hlook. apply (Hlater m); [lia|].
    rewrite getRandomSize_unfold in Hlook. simpl in Hlook.
    rewrite list_lookup_alter_ne in Hlook by lia.
    by rewrite getRandomSize_unfold in Hlook.
Qed.

Lemma pinned_size_resolution_witness :
  (FirstFit.resolveSize 3 (λ _, 0) [Some (2, 2)] (0, 0) 2 0 ["a"%string]
     (FirstFit.initial [(1, 1)] [("a"%string, [(1, 1); (2, 2)])])).1 = (2, 2) ∧
  (FirstFit.resolveSize 3 (λ _, 0) [Some (2, 2)] (0, 0) 2 0 ["a"%string; "b"%string]
     (FirstFit.initial [(1, 1)]
        [("b"%string, [(2, 2); (1, 2)]); ("a"%string, [(1, 1)])])).1
  = (FirstFit.getRandomSize 3 (λ _, 0) (0, 0) 2 (FirstFit.ClassSizes 1)
       (FirstFit.getRandomSize 3 (λ _, 0) (0, 0) 2 FirstFit.Sizes
          (FirstFit.initial [(1, 1)]
             [("b"%string, [(2, 2); (1, 2)]); ("a"%string, [(1, 1)])])).2).1.
Proof.
  split.
  - apply (proj1 (pinned_size_resolution 3 (λ _, 0) [Some (2, 2)] (0, 0) 2 0
                    ["a"%string]
                    (FirstFit.initial [(1, 1)] [("a"%string, [(1, 1); (2, 2)])])
                    (2, 2) eq_refl)).
    intros n key pool Hn _. destruct n as [|n]; simpl in Hn; [|done].
    injection Hn as <- <-. apply list_elem_of_In. simpl. tauto.
  - apply (proj2 (pinned_size_resolution 3 (λ _, 0) [Some (2, 2)] (0, 0) 2 0
                    ["a"%string; "b"%string]
                    (FirstFit.initial [(1, 1)]
                       [("b"%string, [(2, 2); (1, 2)]); ("a"%string, [(1, 1)])])
                    (2, 2) eq_refl) 1 "a"%string [(1, 1)]).
    + reflexivity.
    + apply list_elem_of_In. simpl. tauto.
    + intros Hin. apply list_elem_of_In in Hin. simpl in Hin.
      destruct Hin as [Hin|[]]. discriminate Hin.
    + intros m key' pool' Hm Hlook _. destruct m as [|m]; [|lia].
      simpl in Hlook. injection Hlook as <- <-. apply list_elem_of_In. simpl. tauto.
    + intros m key' pool' Hm Hlook _. destruct m as [|[|m]]; [lia | lia | done].
Defined.

(** The pinned size [[2, 2]] survives the first key, whose pool holds it,
    and is replaced at the second. *)
Example pinned_size_replaced_at_second_key :
  (FirstFit.resolveSize 3 (λ _, 0) [Some (2, 2)] (0, 0) 2 0 ["a"%string; "b"%string]
     (FirstFit.initial [(1, 1)]
        [("b"%string, [(2, 2); (1, 2)]); ("a"%string, [(1, 1)])])).1 = (1, 1).
Proof. reflexivity. Qed.

(** * A turn of the packing loop *)

Section Place.

Variable cols : nat.
Variable rnd : nat → nat.
Variable startsWith : list (option (nat * nat)).
Implicit Types (st : FirstFit.state).

(** On a grid whose rows all exist a turn of the loop throws nothing. *)
Lemma place_total total i cl st :
  rowsDefined (FirstFit.st_grid st) →
  ∃ st', FirstFit.place cols rnd startsWith total i cl st = Ok st'.
Proof.
  intros Hdef. destruct (firstEmptySpace_total cols _ Hdef) as [p Hp].
  unfold FirstFit.place. rewrite Hp. simpl.
  destruct (mark_spec
              (FirstFit.st_grid (FirstFit.resolveSize cols rnd startsWith p (total - i) i cl st).2)
              p
              (FirstFit.resolveSize cols rnd startsWith p (total - i) i cl st).1.1
              (FirstFit.resolveSize cols rnd startsWith p (total - i) i cl st).1.2
              (FirstFit.st_id (FirstFit.resolveSize cols rnd startsWith p (total - i) i cl st).2))
    as (g' & -> & _).
  simpl. eauto.
Qed.

End Place.

(** With a single size in [s.sizes] and no class pools the draws do not
    matter. *)
Section SingletonPool.

Variable cols : nat.
Variables rnd rnd' : nat → nat.
Variable startsWith : list (option (nat * nat)).
Variable x : nat * nat.

Lemma shuffle_singleton (r : nat → nat) k : FirstFit.shuffle r [x] k = ([x], S k).
Proof.
  unfold FirstFit.shuffle.
  change (FirstFit.shuffleFrom r (length [x]) [x] k)
    with (FirstFit.shuffleFrom r 0 (FirstFit.swap [x] 0 (r k mod 1)) (S k)).
  by rewrite Nat.mod_1_r.
Qed.

Lemma resolveSize_singleton p rem i cl st :
  FirstFit.st_sizes st = [x] → FirstFit.st_classSizes st = [] →
  FirstFit.resolveSize cols rnd startsWith p rem i cl st
  = FirstFit.resolveSize cols rnd' startsWith p rem i cl st ∧
  FirstFit.st_sizes (FirstFit.resolveSize cols rnd startsWith p rem i cl st).2 = [x] ∧
  FirstFit.st_classSizes (FirstFit.resolveSize cols rnd startsWith p rem i cl st).2 = [].
Proof.
  intros Hs Hc. unfold FirstFit.resolveSize. rewrite !getRandomSize_unfold. simpl.
  rewrite Hs, Hc, !shuffle_singleton. done.
Qed.

Lemma place_singleton total i cl st :
  FirstFit.st_sizes st = [x] → FirstFit.st_classSizes st = [] →
  FirstFit.place cols rnd startsWith total i cl st
  = FirstFit.place cols rnd' startsWith total i cl st ∧
  ∀ st', FirstFit.place cols rnd startsWith total i cl st = Ok st' →
         FirstFit.st_sizes st' = [x] ∧ FirstFit.st_classSizes st' = [].
Proof.
  intros Hs Hc. split.
  - unfold FirstFit.place.
    destruct (FirstFit.firstEmptySpace cols (FirstFit.st_grid st)) as [p| | |]; simpl; try done.
    by destruct (resolveSize_singleton p (total - i) i cl st Hs Hc) as (-> & _).
  - intros st' H. apply place_Ok in H as (p & g' & _ & _ & ->). simpl.
    by destruct (resolveSize_singleton p (total - i) i cl st Hs Hc) as (_ & -> & ->).
Qed.

Lemma each_singleton total i elements st :
  FirstFit.st_sizes st = [x] → FirstFit.st_classSizes st = [] →
  FirstFit.each cols rnd startsWith total i elements st
  = FirstFit.each cols rnd' startsWith total i elements st.
Proof.
  revert i st. induction elements as [|cl elements IH]; intros i st Hs Hc; simpl; [done|].
  destruct (place_singleton total i cl st Hs Hc) as [<- Hst].
  destruct (FirstFit.place cols rnd startsWith total i cl st) as [st'| | |]; simpl; try done.
  destruct (Hst st' eq_refl). by apply IH.
Qed.

Lemma run_singleton elements :
  FirstFit.run cols rnd startsWith [x] [] elements
  = FirstFit.run cols rnd' startsWith [x] [] elements.
Proof.
  unfold FirstFit.run. destruct elements as [|cl elements]; [done|].
  by rewrite each_singleton.
Qed.

End SingletonPool.

(** * No elements *)

(** Claim C8.  Without elements the call returns at once, throwing
    nothing: no placements, no vertical and no horizontal lines, a grid of
    zero rows, and the pools as they were, no draw made. *)
Theorem no_elements_no_output (cols : nat) (rnd : nat → nat)
    (startsWith : list (option (nat * nat))) (sizes : list (nat * nat))
    (classSizes : list (string * list (nat * nat))) :
  ∃ out st,
    FirstFit.run cols rnd startsWith sizes classSizes [] = Ok (out, st) ∧
    FirstFit.placements out = [] ∧
    FirstFit.verticalSegments out = [] ∧
    FirstFit.horizontalSegments out = [] ∧
    FirstFit.totalRows out = 0 ∧
    FirstFit.occupancy out = [] ∧
    st = FirstFit.initial sizes classSizes.
Proof.
  eexists _, _. split; [reflexivity|]. simpl.
  split; [done|]. split; [done|]. split; [done|]. split; [done|]. split; done.
Qed.

(** * The position-scanning loop of [js/grid.js] *)

Section ScanningLoop.

Variable cols : nat.
Implicit Types (g : grid) (p q : pos) (el : Scanning.element).

Lemma scanning_taken_ge g i j : length g ≤ i → Scanning.taken g i j = false.
Proof. intros H. unfold Scanning.taken. by rewrite aget_ge. Qed.

Lemma isAllocable_too_wide g el p :
  cols < Scanning.el_cols el → Scanning.isAllocable cols g el p = false.
Proof. intros H. unfold Scanning.isAllocable. rewrite decide_True; [done | lia]. Qed.

Lemma isAllocable_fresh_row g el i :
  Scanning.el_cols el ≤ cols → length g ≤ i →
  Scanning.isAllocable cols g el (i, 0) = true.
Proof.
  intros Hw Hi. unfold Scanning.isAllocable. simpl.
  rewrite decide_False by lia.
  apply forallb_forall. intros x Hx%in_seq.
  apply forallb_forall. intros y _.
  rewrite scanning_taken_ge; [done | lia].
Qed.

Lemma findPosition_fuel_mono fuel fuel' g el p q :
  Scanning.findPosition cols fuel g el p = Ok q → fuel ≤ fuel' →
  Scanning.findPosition cols fuel' g el p = Ok q.
Proof.
  revert fuel' p. induction fuel as [|fuel IH]; intros fuel' p; simpl; [done|].
  intros H Hle. destruct fuel' as [|fuel']; [lia|]. simpl.
  destruct (Scanning.isAllocable cols g el p); [done|].
  apply IH; [done | lia].
Qed.

Lemma findPosition_allocable fuel g el p q :
  Scanning.findPosition cols fuel g el p = Ok q →
  Scanning.isAllocable cols g el q = true.
Proof.
  revert p. induction fuel as [|fuel IH]; intros p; simpl; [done|].
  destruct (Scanning.isAllocable cols g el p) eqn:E; [|apply IH].
  by intros [= <-].
Qed.

Lemma findPosition_never fuel g el p :
  cols < Scanning.el_cols el →
  Scanning.findPosition cols fuel g el p = OutOfFuel.
Proof.
  intros Hw. revert p. induction fuel as [|fuel IH]; intros p; simpl; [done|].
  by rewrite isAllocable_too_wide.
Qed.

(** From a position inside the materialised rows, or at the start of the
    first row below them, the loop exits before the steps run out. *)
Lemma findPosition_terminates fuel g el p :
  Scanning.el_cols el ≤ cols →
  (p.1 < length g ∧ p.2 ≤ cols) ∨ p = (length g, 0) →
  (length g - p.1) * (cols + 1) + 1 ≤ fuel + p.2 →
  ∃ q, Scanning.findPosition cols fuel g el p = Ok q.
Proof.
  intros Hw. revert p. induction fuel as [|fuel IH]; intros p Hp Hfuel.
  - destruct Hp as [[? ?]| ->]; simpl in *; nia.
  - simpl. destruct (Scanning.isAllocable cols g el p) eqn:E; [eauto|].
    destruct Hp as [[Hrow Hcol]| ->];
      [|by rewrite isAllocable_fresh_row in E].
    apply IH; unfold Scanning.advance; case_decide; simpl.
    + left. lia.
    + destruct (decide (p.1 + 1 < length g)); [left; lia | right; f_equal; lia].
    + lia.
    + nia.
Qed.

End ScanningLoop.

(** Claim C10.  In [js/grid.js] an element that is at most [s.cols] wide is
    allocable at the start of the first row that does not exist yet, and the
    loop that looks for its position exits within
    [grid.length * (s.cols + 1) + 1] tests, at an allocable position.  An
    element wider than [s.cols] is allocable nowhere, and the loop does not
    exit however many steps it is given. *)
Theorem scanning_loop_termination (cols : nat) (g : grid) (el : Scanning.element) :
  (Scanning.el_cols el ≤ cols →
   Scanning.isAllocable cols g el (length g, 0) = true ∧
   ∀ fuel, length g * (cols + 1) + 1 ≤ fuel →
     ∃ q, Scanning.findPosition cols fuel g el (0, 0) = Ok q ∧
          Scanning.isAllocable cols g el q = true) ∧
  (cols < Scanning.el_cols el →
   (∀ p, Scanning.isAllocable cols g el p = false) ∧
   ∀ fuel p, Scanning.findPosition cols fuel g el p = OutOfFuel).
Proof.
  split.
  - intros Hw. split; [by apply isAllocable_fresh_row|].
    intros fuel Hfuel.
    destruct (findPosition_terminates cols fuel g el (0, 0) Hw) as [q Hq].
    + simpl. destruct g; [by right | left; simpl; lia].
    + simpl. lia.
    + exists q. split; [done|]. by eapply findPosition_allocable.
  - intros Hw. split; intros; [by apply isAllocable_too_wide|].
    by apply findPosition_never.
Qed.

Lemma scanning_loop_termination_witness :
  (∃ q, Scanning.findPosition 4 11 [Some [Some 1; Some 2; Some 2]; Some [Some 3]]
          (Scanning.Element 4 3 1) (0, 0) = Ok q ∧
        Scanning.isAllocable 4 [Some [Some 1; Some 2; Some 2]; Some [Some 3]]
          (Scanning.Element 4 3 1) q = true) ∧
  (∀ fuel p, Scanning.findPosition 4 fuel [Some [Some 1; Some 2; Some 2]; Some [Some 3]]
               (Scanning.Element 4 5 1) p = OutOfFuel).
Proof.
  split.
  - apply (proj1 (scanning_loop_termination 4
                    [Some [Some 1; Some 2; Some 2]; Some [Some 3]]
                    (Scanning.Element 4 3 1))); simpl; lia.
  - apply (proj2 (scanning_loop_termination 4
                    [Some [Some 1; Some 2; Some 2]; Some [Some 3]]
                    (Scanning.Element 4 5 1))). simpl. lia.
Defined.

(** * Scenario A *)

Section ScanningFuel.

Variable cols : nat.

Lemma scanning_place_fuel_mono fuel fuel' sz acc acc' :
  Scanning.place cols fuel sz acc = Ok acc' → fuel ≤ fuel' →
  Scanning.place cols fuel' sz acc = Ok acc'.
Proof.
  unfold Scanning.place. intros H Hle.
  apply rbind_Ok in H as (p & Hp & H).
  by rewrite (findPosition_fuel_mono _ _ _ _ _ _ _ Hp Hle).
Qed.

Lemma scanning_each_fuel_mono fuel fuel' elements acc acc' :
  Scanning.each cols fuel elements acc = Ok acc' → fuel ≤ fuel' →
  Scanning.each cols fuel' elements acc = Ok acc'.
Proof.
  revert acc. induction elements as [|sz elements IH]; intros acc; simpl; [done|].
  intros H Hle. apply rbind_Ok in H as (acc1 & H1 & H).
  rewrite (scanning_place_fuel_mono _ _ _ _ _ H1 Hle). simpl. by apply IH.
Qed.

Lemma scanning_pack_fuel_mono fuel fuel' elements r :
  Scanning.pack cols fuel elements = Ok r → fuel ≤ fuel' →
  Scanning.pack cols fuel' elements = Ok r.
Proof.
  unfold Scanning.pack. intros H Hle.
  apply rbind_Ok in H as (acc & Hacc & H).
  by rewrite (scanning_each_fuel_mono _ _ _ _ _ Hacc Hle).
Qed.

End ScanningFuel.

(** Claim C2, as stated, fails for the current plugin: with four columns,
    the sizes pinned by [startsWith] and the pool [[[1, 1]]], the third
    element is not at (1, 0) and the grid does not have two rows. *)
Lemma scenario_A_first_fit_differs :
  ∃ out st,
    FirstFit.run 4 (λ _, 0) [Some (1, 1); Some (1, 2); Some (1, 3); Some (2, 1)]
      [(1, 1)] [] [[]; []; []; []] = Ok (out, st) ∧
    item_pos <$> FirstFit.placements out ≠ [(0, 0); (0, 1); (1, 0); (0, 3)] ∧
    FirstFit.totalRows out ≠ 2.
Proof.
  eexists _, _. split; [vm_compute; reflexivity|]. split; vm_compute; discriminate.
Qed.

(** Claim C2, amended.  With four columns, the sizes (1,1), (1,2), (1,3),
    (2,1) pinned in this order and the pool [[[1, 1]]], the current plugin
    commits each element to the first empty cell: the first at (0,0), the
    second at (0,1), the third at (0,3) with its three columns reaching past
    the grid, the fourth at (1,0) with size (2,1); normalisation then
    stretches the fourth to four columns and the grid has three rows.  The
    placements of the claim, third element at (1,0), fourth at (0,3), two
    rows, are those of the position-scanning loop of [js/grid.js] on
    elements of these sizes, once it has 6 steps or more per element. *)
Theorem scenario_A_placements (rnd : nat → nat) (fuel : nat) :
  6 ≤ fuel →
  (∃ st,
     FirstFit.each 4 rnd [Some (1, 1); Some (1, 2); Some (1, 3); Some (2, 1)] 4 0
       [[]; []; []; []] (FirstFit.initial [(1, 1)] []) = Ok st ∧
     FirstFit.st_data st
     = [Item 0 (0, 0) 1 1; Item 1 (0, 1) 1 2; Item 2 (0, 3) 1 3; Item 3 (1, 0) 2 1]) ∧
  (∃ out st,
     FirstFit.run 4 rnd [Some (1, 1); Some (1, 2); Some (1, 3); Some (2, 1)]
       [(1, 1)] [] [[]; []; []; []] = Ok (out, st) ∧
     FirstFit.placements out
     = [Item 0 (0, 0) 1 1; Item 1 (0, 1) 1 2; Item 2 (0, 3) 1 3; Item 3 (1, 0) 2 4] ∧
     FirstFit.totalRows out = 3) ∧
  Scanning.pack 4 fuel [(1, 1); (1, 2); (1, 3); (2, 1)]
  = Ok ([Item 1 (0, 0) 1 1; Item 2 (0, 1) 1 2; Item 3 (1, 0) 1 3; Item 4 (0, 3) 2 1], 2).
Proof.
  intros Hfuel. split; [|split].
  - rewrite (each_singleton 4 rnd (λ _, 0) _ (1, 1)) by done.
    eexists. split; [vm_compute; reflexivity | reflexivity].
  - rewrite (run_singleton 4 rnd (λ _, 0) _ (1, 1)).
    eexists _, _. split; [vm_compute; reflexivity|]. split; reflexivity.
  - apply (scanning_pack_fuel_mono 4 6); [vm_compute; reflexivity | done].
Qed.

Lemma scenario_A_placements_witness :
  Scanning.pack 4 6 [(1, 1); (1, 2); (1, 3); (2, 1)]
  = Ok ([Item 1 (0, 0) 1 1; Item 2 (0, 1) 1 2; Item 3 (1, 0) 1 3; Item 4 (0, 3) 2 1], 2).
Proof.
  apply (proj2 (proj2 (scenario_A_placements (λ _, 0) 6 (le_n 6)))).
Defined.

(** * Separator lines *)

Section VerticalLines.

Variable cols : nat.
Implicit Types (g : grid) (v : FirstFit.vseg).

Lemma isRightFrontier_ge g x y : length g ≤ x → FirstFit.isRightFrontier g x y = false.
Proof. intros H. unfold FirstFit.isRightFrontier. by rewrite aget_ge. Qed.

Lemma vInner_Ok fuel g y x run x' run' :
  FirstFit.vInner fuel g y x run = Ok (x', run') →
  (∀ se, run = Some se → S se.2 = x ∧ vsegOk g (FirstFit.VSeg y se.1 se.2)) →
  x < x' ∧ ∀ se, run' = Some se → vsegOk g (FirstFit.VSeg y se.1 se.2).
Proof.
  revert x run. induction fuel as [|fuel IH]; intros x run; simpl; [done|].
  destruct (FirstFit.isRightFrontier g x y) eqn:E.
  - intros H Hrun. apply IH in H.
    + split; [lia | apply H].
    + intros se [= <-]. simpl. split; [done|].
      destruct run as [[s e]|]; simpl.
      * destruct (Hrun _ eq_refl) as [He Hok]. simpl in *.
        intros x0 Hx0. simpl in Hx0.
        destruct (decide (x0 = x)) as [->|]; [done|].
        apply Hok. simpl. lia.
      * intros x0 Hx0. simpl in *. by replace x0 with x by lia.
  - intros [= <- <-] Hrun. split; [lia|]. intros se Hse. by apply Hrun.
Qed.

Lemma vInner_total fuel g y x run :
  1 ≤ fuel → length g + 1 ≤ fuel + x →
  ∃ r, FirstFit.vInner fuel g y x run = Ok r.
Proof.
  revert x run. induction fuel as [|fuel IH]; intros x run H1 Hfuel; simpl; [lia|].
  destruct (FirstFit.isRightFrontier g x y) eqn:E; [|eauto].
  destruct (decide (x < length g)).
  - apply IH; lia.
  - rewrite isRightFrontier_ge in E by lia. done.
Qed.

Lemma vOuter_S fuel g y x run out :
  FirstFit.vOuter (S fuel) g y x run out
  = if decide (x < length g) then
      let* r := FirstFit.vInner (S (length g)) g y x run in
      match r.2 with
      | Some se => FirstFit.vOuter fuel g y r.1 None (out ++ [FirstFit.VSeg y se.1 se.2])
      | None => FirstFit.vOuter fuel g y r.1 None out
      end
    else Ok out.
Proof. done. Qed.

Lemma vOuter_Ok fuel g y x out vs :
  FirstFit.vOuter fuel g y x None out = Ok vs →
  Forall (vsegOk g) out → Forall (vsegOk g) vs.
Proof.
  revert x out. induction fuel as [|fuel IH]; intros x out; [done|].
  rewrite vOuter_S. case_decide; [|by intros [= <-]].
  intros Hr Hout. apply rbind_Ok in Hr as ([x' run'] & Hin & Hr). simpl in Hr.
  apply vInner_Ok in Hin as [_ Hrun]; [|done].
  destruct run' as [se|]; apply IH in Hr; try done.
  apply Forall_app. split; [done|]. apply Forall_singleton. by apply Hrun.
Qed.

Lemma vOuter_total fuel g y x out :
  1 ≤ fuel → length g + 1 ≤ fuel + x →
  ∃ vs, FirstFit.vOuter fuel g y x None out = Ok vs.
Proof.
  revert x out. induction fuel as [|fuel IH]; intros x out H1 Hfuel.
  - lia.
  - rewrite vOuter_S. case_decide; [|eauto].
    destruct (vInner_total (S (length g)) g y x None) as [[x' run'] Hin]; [lia | lia |].
    rewrite Hin. simpl.
    apply vInner_Ok in Hin as [? _]; [|done].
    destruct run'; apply IH; lia.
Qed.

Lemma verticalLines_Ok g vs :
  FirstFit.verticalLines cols g = Ok vs → Forall (vsegOk g) vs.
Proof.
  unfold FirstFit.verticalLines.
  generalize (seq 0 (cols - 1)) as ys. intros ys.
  assert (Forall (vsegOk g) []) as Hnil by constructor.
  revert Hnil. generalize (@nil FirstFit.vseg) as out.
  induction ys as [|y ys IH]; intros out Hout; cbn [forM].
  - by intros [= <-].
  - intros H. apply rbind_Ok in H as (out' & Hy & H).
    apply vOuter_Ok in Hy; [|done]. by eapply IH.
Qed.

Lemma verticalLines_total g : ∃ vs, FirstFit.verticalLines cols g = Ok vs.
Proof.
  unfold FirstFit.verticalLines.
  generalize (seq 0 (cols - 1)) as ys. intros ys.
  generalize (@nil FirstFit.vseg) as out.
  induction ys as [|y ys IH]; intros out; cbn [forM]; [eauto|].
  destruct (vOuter_total (S (length g)) g y 0 out) as [out' ->]; [lia | lia |].
  cbn [rbind]. apply IH.
Qed.

End VerticalLines.

Section HorizontalLines.

Variable cols : nat.
Implicit Types (g : grid) (h : FirstFit.hseg).

Lemma hInner_S fuel g x y run out :
  FirstFit.hInner (S fuel) g x y run out
  = let* top := FirstFit.isTopFrontier g x y in
    if top then
      match run with
      | None => FirstFit.hInner fuel g x (S y) (Some (y, y)) out
      | Some se =>
          if FirstFit.isRightFrontier g x (y - 1) && FirstFit.isRightFrontier g (x + 1) (y - 1)
          then FirstFit.hInner fuel g x (S y) (Some (y, y))
                 (out ++ [FirstFit.HSeg x se.1 se.2])
          else FirstFit.hInner fuel g x (S y) (Some (se.1, y)) out
      end
    else Ok (S y, run, out).
Proof. done. Qed.

Lemma hOuter_S fuel g x y run out :
  FirstFit.hOuter cols (S fuel) g x y run out
  = if bool_decide (is_Some (aget g x)) && bool_decide (y < cols) then
      let* r := FirstFit.hInner
                  (S (Nat.max (FirstFit.rowLength g x) (FirstFit.rowLength g (x + 1))))
                  g x y run out in
      match r.1.2 with
      | Some se => FirstFit.hOuter cols fuel g x r.1.1 None
                     (r.2 ++ [FirstFit.HSeg x se.1 se.2])
      | None => FirstFit.hOuter cols fuel g x r.1.1 None r.2
      end
    else Ok out.
Proof. done. Qed.

Lemma splitAt_test g x y :
  FirstFit.isRightFrontier g x y && FirstFit.isRightFrontier g (x + 1) y = true
  ↔ splitAt g x y.
Proof. unfold splitAt. by rewrite andb_true_iff. Qed.

Lemma hInner_Ok fuel g x y run out y' run' out' :
  FirstFit.hInner fuel g x y run out = Ok (y', run', out') →
  hscanOk g x y run → Forall (hsegOk g) out →
  y < y' ∧ FirstFit.isTopFrontier g x (y' - 1) = Ok false ∧
  (∀ se, run' = Some se → hsegOk g (FirstFit.HSeg x se.1 se.2)) ∧
  Forall (hsegOk g) out'.
Proof.
  revert y run out. induction fuel as [|fuel IH]; intros y run out; [done|].
  rewrite hInner_S. intros H Hscan Hout.
  apply rbind_Ok in H as (top & Htop & H).
  assert (∀ c, y ≤ c ≤ y → FirstFit.isTopFrontier g x c = Ok top) as Hy.
  { intros c ?. by replace c with y by lia. }
  destruct top.
  - cut (∃ run1 out1, FirstFit.hInner fuel g x (S y) run1 out1 = Ok (y', run', out') ∧
                      hscanOk g x (S y) run1 ∧ Forall (hsegOk g) out1).
    { intros (run1 & out1 & H1 & Hs1 & Ho1).
      destruct (IH _ _ _ H1 Hs1 Ho1) as (? & ? & ? & ?).
      split; [lia | done]. }
    destruct run as [[s e]|]; simpl in Hscan.
    + destruct Hscan as (<- & Hle & Htops & Hin & Hstart). simpl in H.
      replace (e - 0) with e in H by lia.
      destruct (FirstFit.isRightFrontier g x e && FirstFit.isRightFrontier g (x + 1) e)
        eqn:Esplit.
      * apply splitAt_test in Esplit.
        eexists _, _. split; [exact H|]. split.
        -- simpl. split; [done|]. split; [done|]. split; [done|].
           split; [intros; lia|]. intros _ _. by replace (S e - 1) with e by lia.
        -- apply Forall_app. split; [done|]. apply Forall_singleton.
           split; [done|]. by intros _.
      * eexists _, _. split; [exact H|]. split; [|done].
        simpl. split; [done|]. split; [lia|]. split.
        { intros c ?. destruct (decide (c = S e)) as [->|]; [done|]. apply Htops. lia. }
        split; [|done].
        intros c ?. destruct (decide (c = e)) as [->|].
        { rewrite <- splitAt_test. by rewrite Esplit. }
        apply Hin. lia.
    + eexists _, _. split; [exact H|]. split; [|done].
      simpl. split; [done|]. split; [done|]. split; [done|].
      split; [intros; lia|]. intros Hpos Hprev. by destruct (Hscan Hpos).
  - injection H as <- <- <-. replace (S y - 1) with y by lia.
    split; [lia|]. split; [done|]. split; [|done].
    intros [s e] ->. simpl in *. destruct Hscan as (<- & Hrun).
    split; [done|]. simpl. replace (e + 1) with (S e) by lia.
    rewrite Htop. done.
Qed.

Lemma hOuter_Ok fuel g x y out hs :
  FirstFit.hOuter cols fuel g x y None out = Ok hs →
  hscanOk g x y None → Forall (hsegOk g) out → Forall (hsegOk g) hs.
Proof.
  revert y out. induction fuel as [|fuel IH]; intros y out; [done|].
  rewrite hOuter_S. destruct (_ && _); [|by intros [= <-]].
  intros Hr Hscan Hout. apply rbind_Ok in Hr as ([[y' run'] out'] & Hin & Hr).
  simpl in Hr.
  destruct (hInner_Ok _ _ _ _ _ _ _ _ _ Hin Hscan Hout) as (? & Hfalse & Hrun & Hout').
  assert (hscanOk g x y' None) as Hscan'.
  { simpl. intros _. rewrite Hfalse. done. }
  destruct run' as [se|]; apply IH in Hr; try done.
  apply Forall_app. split; [done|]. apply Forall_singleton. by apply Hrun.
Qed.

Lemma horizontalLines_Ok g hs :
  FirstFit.horizontalLines cols g = Ok hs → Forall (hsegOk g) hs.
Proof.
  unfold FirstFit.horizontalLines.
  generalize (seq 0 (length g - 1)) as xs. intros xs.
  assert (Forall (hsegOk g) []) as Hnil by constructor.
  revert Hnil. generalize (@nil FirstFit.hseg) as out.
  induction xs as [|x xs IH]; intros out Hout; cbn [forM].
  - by intros [= <-].
  - intros H. apply rbind_Ok in H as (out' & Hx & H).
    apply hOuter_Ok in Hx; [by eapply IH | | done].
    simpl. lia.
Qed.

End HorizontalLines.

Section LinesTotal.

Variable cols : nat.
Implicit Types (g : grid).

Lemma isTopFrontier_total g x y :
  is_Some (aget g x) → is_Some (aget g (x + 1)) →
  ∃ b, FirstFit.isTopFrontier g x y = Ok b ∧
       (Nat.max (FirstFit.rowLength g x) (FirstFit.rowLength g (x + 1)) ≤ y →
        b = false).
Proof.
  intros [r Hr] [r' Hr']. unfold FirstFit.isTopFrontier, cellRead, FirstFit.rowLength.
  rewrite Hr, Hr'. simpl. eexists. split; [done|].
  intros Hy. rewrite !aget_ge by lia. done.
Qed.

Lemma hInner_total fuel g x y run out :
  is_Some (aget g x) → is_Some (aget g (x + 1)) →
  1 ≤ fuel →
  Nat.max (FirstFit.rowLength g x) (FirstFit.rowLength g (x + 1)) + 1 ≤ fuel + y →
  ∃ r, FirstFit.hInner fuel g x y run out = Ok r ∧ y < r.1.1.
Proof.
  intros Hx Hx'. revert y run out.
  induction fuel as [|fuel IH]; intros y run out H1 Hfuel; [lia|].
  rewrite hInner_S.
  destruct (isTopFrontier_total g x y Hx Hx') as (b & -> & Hb). cbn [rbind].
  destruct b; [|eexists; split; [done | simpl; lia]].
  assert (1 ≤ fuel ∧
          Nat.max (FirstFit.rowLength g x) (FirstFit.rowLength g (x + 1)) + 1
          ≤ fuel + S y) as [? ?].
  { destruct (decide (Nat.max (FirstFit.rowLength g x) (FirstFit.rowLength g (x + 1)) ≤ y))
      as [Hle|?]; [by apply Hb in Hle | lia]. }
  destruct run as [se|]; [destruct (_ && _)|];
    match goal with
    | |- ∃ r, FirstFit.hInner _ _ _ _ ?run1 ?out1 = _ ∧ _ =>
        destruct (IH (S y) run1 out1) as (r & -> & ?); [done | done |];
        exists r; split; [done | lia]
    end.
Qed.

Lemma hOuter_total fuel g x y out :
  is_Some (aget g x) → is_Some (aget g (x + 1)) →
  1 ≤ fuel → cols + 1 ≤ fuel + y →
  ∃ hs, FirstFit.hOuter cols fuel g x y None out = Ok hs.
Proof.
  intros Hx Hx'. revert y out.
  induction fuel as [|fuel IH]; intros y out H1 Hfuel; [lia|].
  rewrite hOuter_S. destruct (bool_decide (y < cols)) eqn:Ey;
    [|rewrite andb_false_r; eauto].
  apply bool_decide_eq_true in Ey.
  destruct (_ && _); [|eauto].
  destruct (hInner_total
              (S (Nat.max (FirstFit.rowLength g x) (FirstFit.rowLength g (x + 1))))
              g x y None out) as ([[y' run'] out'] & -> & Hlt); [done | done | lia | lia |].
  cbn [rbind]. simpl in *. destruct run'; apply IH; lia.
Qed.

Lemma horizontalLines_total g :
  rowsDefined g → ∃ hs, FirstFit.horizontalLines cols g = Ok hs.
Proof.
  intros Hdef. unfold FirstFit.horizontalLines.
  assert (∀ x, x ∈ seq 0 (length g - 1) → x + 1 < length g) as Hxs.
  { intros x Hx%elem_of_seq. lia. }
  revert Hxs. generalize (seq 0 (length g - 1)) as xs. intros xs.
  generalize (@nil FirstFit.hseg) as out.
  induction xs as [|x xs IH]; intros out Hxs; cbn [forM]; [eauto|].
  destruct (hOuter_total (S cols) g x 0 out) as [out' ->].
  - apply Hdef. specialize (Hxs x (list_elem_of_here _ _)). lia.
  - apply Hdef. apply Hxs. apply list_elem_of_here.
  - lia.
  - lia.
  - cbn [rbind]. apply IH. intros x' Hx'. apply Hxs. by apply list_elem_of_further.
Qed.

End LinesTotal.

Section LinesFuel.

Variable cols : nat.
Implicit Types (g : grid).

Lemma isTopFrontier_cases g x y :
  FirstFit.isTopFrontier g x y = TypeError ∨
  ∃ b, FirstFit.isTopFrontier g x y = Ok b ∧
       (Nat.max (FirstFit.rowLength g x) (FirstFit.rowLength g (x + 1)) ≤ y →
        b = false).
Proof.
  unfold FirstFit.isTopFrontier, cellRead, FirstFit.rowLength.
  destruct (aget g x) as [r|]; [|by left].
  destruct (aget g (x + 1)) as [r'|]; [|by left].
  right. simpl. eexists. split; [done|].
  intros Hy. rewrite !aget_ge by lia. done.
Qed.

Lemma hInner_fuel fuel g x y run out :
  1 ≤ fuel →
  Nat.max (FirstFit.rowLength g x) (FirstFit.rowLength g (x + 1)) + 1 ≤ fuel + y →
  FirstFit.hInner fuel g x y run out = TypeError ∨
  ∃ r, FirstFit.hInner fuel g x y run out = Ok r ∧ y < r.1.1.
Proof.
  revert y run out. induction fuel as [|fuel IH]; intros y run out H1 Hfuel; [lia|].
  rewrite hInner_S.
  destruct (isTopFrontier_cases g x y) as [->|(b & -> & Hb)]; [by left|].
  cbn [rbind]. destruct b; [|right; eexists; split; [done | simpl; lia]].
  assert (1 ≤ fuel ∧
          Nat.max (FirstFit.rowLength g x) (FirstFit.rowLength g (x + 1)) + 1
          ≤ fuel + S y) as [? ?].
  { destruct (decide (Nat.max (FirstFit.rowLength g x) (FirstFit.rowLength g (x + 1)) ≤ y))
      as [Hle|?]; [by apply Hb in Hle | lia]. }
  destruct run as [se|]; [destruct (_ && _)|];
    match goal with
    | |- FirstFit.hInner _ _ _ _ ?run1 ?out1 = _ ∨ _ =>
        destruct (IH (S y) run1 out1) as [->|(r & -> & ?)]; [done | done | by left |];
        right; exists r; split; [done | lia]
    end.
Qed.

Lemma hOuter_fuel fuel g x y out :
  1 ≤ fuel → cols + 1 ≤ fuel + y →
  FirstFit.hOuter cols fuel g x y None out = TypeError ∨
  ∃ hs, FirstFit.hOuter cols fuel g x y None out = Ok hs.
Proof.
  revert y out. induction fuel as [|fuel IH]; intros y out H1 Hfuel; [lia|].
  rewrite hOuter_S. destruct (bool_decide (y < cols)) eqn:Ey;
    [|rewrite andb_false_r; eauto].
  apply bool_decide_eq_true in Ey.
  destruct (_ && _); [|eauto].
  destruct (hInner_fuel
              (S (Nat.max (FirstFit.rowLength g x) (FirstFit.rowLength g (x + 1))))
              g x y None out) as [->|([[y' run'] out'] & -> & Hlt)];
    [lia | lia | by left |].
  cbn [rbind]. simpl in *. destruct run'; apply IH; lia.
Qed.

Lemma horizontalLines_fuel g :
  FirstFit.horizontalLines cols g = TypeError ∨
  ∃ hs, FirstFit.horizontalLines cols g = Ok hs.
Proof.
  unfold FirstFit.horizontalLines.
  generalize (seq 0 (length g - 1)) as xs. intros xs.
  generalize (@nil FirstFit.hseg) as out.
  induction xs as [|x xs IH]; intros out; cbn [forM]; [eauto|].
  destruct (hOuter_fuel (S cols) g x 0 out) as [->|[out' ->]];
    [lia | lia | by left |].
  cbn [rbind]. apply IH.
Qed.

(** The steps given to the loops of the two passes are never used up. *)
Lemma lines_stay_in_fuel g :
  (∃ vs, FirstFit.verticalLines cols g = Ok vs) ∧
  (FirstFit.horizontalLines cols g = TypeError ∨
   ∃ hs, FirstFit.horizontalLines cols g = Ok hs).
Proof. split; [apply verticalLines_total | apply horizontalLines_fuel]. Qed.

End LinesFuel.

(** On a grid whose rows all exist both passes return their lines. *)
Lemma lines_total (cols : nat) (g : grid) :
  rowsDefined g →
  ∃ vs hs, FirstFit.verticalLines cols g = Ok vs ∧
           FirstFit.horizontalLines cols g = Ok hs.
Proof.
  intros Hdef. destruct (verticalLines_total cols g) as [vs Hvs].
  destruct (horizontalLines_total cols g Hdef) as [hs Hhs]. eauto.
Qed.


(** * The packing loop without pinned sizes *)

Section Packing.

Variable cols : nat.
Variable rnd : nat → nat.
Variable startsWith : list (option (nat * nat)).
Hypothesis cols_pos : 1 ≤ cols.
Hypothesis not_pinned : ∀ i, aget startsWith i = None.
Implicit Types (g : grid) (p : pos) (st : FirstFit.state).

Lemma taken_cell g i j : FirstFit.taken g i j = false ↔ cell g i j = None.
Proof.
  unfold FirstFit.taken, cell. destruct (aget g i) as [r|]; [|done].
  rewrite bool_decide_eq_false. destruct (aget r j); split; try done.
  intros H. destruct H. eauto.
Qed.

Lemma isAllocable_true g sz p :
  FirstFit.isAllocable cols g sz p = true →
  p.2 + sz.2 ≤ cols ∧
  ∀ i j, p.1 ≤ i < p.1 + sz.1 → p.2 ≤ j < p.2 + sz.2 → cell g i j = None.
Proof.
  unfold FirstFit.isAllocable. case_decide; [done|]. intros Hall. split; [lia|].
  intros i j Hi Hj. rewrite forallb_forall in Hall.
  specialize (Hall i). rewrite forallb_forall in Hall.
  apply taken_cell. apply negb_true_iff. apply Hall; apply in_seq; lia.
Qed.

Lemma isAllocable_unit g p :
  cell g p.1 p.2 = None → p.2 < cols → FirstFit.isAllocable cols g (1, 1) p = true.
Proof.
  intros Hc Hp. unfold FirstFit.isAllocable. simpl.
  rewrite decide_False by lia. apply taken_cell in Hc. by rewrite Hc.
Qed.

Lemma resolveSize_last p i cl st :
  (FirstFit.resolveSize cols rnd startsWith p 1 i cl st).1 = (1, 1).
Proof.
  unfold FirstFit.resolveSize. rewrite not_pinned.
  apply (foldl_preserves _ (λ acc, acc.1 = (1, 1))).
  - by rewrite getRandomSize_unfold.
  - intros acc n Hacc.
    destruct (classOverride_cases cols rnd p 1 cl n acc) as [->| ->]; [done|].
    by rewrite getRandomSize_unfold.
Qed.

Lemma place_packed total i cl st st' :
  packed st →
  FirstFit.place cols rnd startsWith total i cl st = Ok st' →
  packed st' ∧
  length (FirstFit.st_data st') = S (length (FirstFit.st_data st)) ∧
  (total - i = 1 → lastPlaced cols st').
Proof.
  intros (Hdef & Hcons & Hids & Hid) H. unfold consistent in Hcons.
  apply place_Ok in H as (p & g' & Hp & Hmark & ->).
  set (sz := (FirstFit.resolveSize cols rnd startsWith p (total - i) i cl st).1) in *.
  apply firstEmptySpace_first in Hp as (Hp1 & _ & Hp2 & Hempty & Hbefore).
  specialize (Hp2 cols_pos).
  assert (FirstFit.isAllocable cols (FirstFit.st_grid st) sz p = true) as Halloc.
  { destruct (resolveSize_fits cols rnd startsWith p (total - i) i cl st (not_pinned i))
      as [H1|H]; [|done].
    fold sz in H1. rewrite H1. by apply isAllocable_unit. }
  apply isAllocable_true in Halloc as [Hwidth Hfree].
  destruct (mark_length _ _ _ _ _ _ Hdef Hp1 Hmark) as [Hdef' Hlen'].
  destruct (mark_spec (FirstFit.st_grid st) p sz.1 sz.2 (FirstFit.st_id st))
    as (g'' & Hg'' & _ & Hcell).
  rewrite Hmark in Hg''. injection Hg'' as <-.
  assert (∀ x y, in_rect (Item (FirstFit.st_id st) p sz.1 sz.2) x y →
                 cell (FirstFit.st_grid st) x y = None) as Hfree'.
  { intros x y [? ?]. by apply Hfree. }
  split; [|split].
  - split; [done|]. simpl. split; [|split].
    + intros x y e. rewrite Hcell. case_decide as Hin.
      * split.
        -- intros [= <-]. eexists. split; [|exact Hin].
           rewrite Hid. apply list_lookup_middle. done.
        -- intros (it & Hit & Hrect).
           destruct (decide (e = length (FirstFit.st_data st))) as [->|Hne].
           { by rewrite Hid. }
           assert (e < length (FirstFit.st_data st)) as Hlt.
           { apply lookup_lt_Some in Hit. rewrite length_app in Hit. simpl in Hit. lia. }
           rewrite lookup_app_l in Hit by done.
           assert (cell (FirstFit.st_grid st) x y = Some e) as Hc.
           { apply Hcons. eauto. }
           rewrite Hfree' in Hc by done. done.
      * rewrite Hcons. split.
        -- intros (it & Hit & Hrect). exists it. split; [|done].
           by apply lookup_app_l_Some.
        -- intros (it & Hit & Hrect).
           destruct (decide (e < length (FirstFit.st_data st))) as [Hlt|Hge].
           { rewrite lookup_app_l in Hit by done. eauto. }
           rewrite lookup_app_r in Hit by lia.
           destruct (e - length (FirstFit.st_data st)) as [|k] eqn:Ek; [|done].
           injection Hit as <-. done.
    + intros e it Hit.
      destruct (decide (e < length (FirstFit.st_data st))) as [Hlt|Hge].
      * rewrite lookup_app_l in Hit by done. by apply Hids.
      * rewrite lookup_app_r in Hit by lia.
        apply lookup_lt_Some in Hit as Hlt. simpl in Hlt.
        replace (e - length (FirstFit.st_data st)) with 0 in Hit by lia.
        injection Hit as <-. simpl. lia.
    + rewrite length_app. simpl. lia.
  - simpl. rewrite length_app. simpl. lia.
  - intros Hlast. exists p. simpl. rewrite length_app. simpl.
    replace (length (FirstFit.st_data st) + 1 - 1) with (length (FirstFit.st_data st)) by lia.
    split; [|split; [done|]].
    + rewrite list_lookup_middle by done. subst sz. rewrite Hlast, resolveSize_last.
      simpl. by rewrite Hid.
    + intros q Hq Hqc. rewrite Hcell. case_decide; [done|]. by apply Hbefore.
Qed.

End Packing.

Section PackingLoop.

Variable cols : nat.
Variable rnd : nat → nat.
Variable startsWith : list (option (nat * nat)).
Hypothesis cols_pos : 1 ≤ cols.
Hypothesis not_pinned : ∀ i, aget startsWith i = None.

Lemma each_packed total i elements st :
  packed st → length (FirstFit.st_data st) = i → i + length elements = total →
  ∃ st', FirstFit.each cols rnd startsWith total i elements st = Ok st' ∧
         packed st' ∧ length (FirstFit.st_data st') = total ∧
         (elements ≠ [] → lastPlaced cols st').
Proof.
  revert i st. induction elements as [|cl elements IH]; intros i st Hp Hi Htotal.
  - simpl in *. exists st. split; [done|]. split; [done|]. split; [lia | done].
  - simpl in Htotal. cbn [FirstFit.each].
    destruct (place_total cols rnd startsWith total i cl st) as [st1 Hst1]; [apply Hp|].
    rewrite Hst1. cbn [rbind].
    destruct (place_packed cols rnd startsWith cols_pos not_pinned total i cl st st1 Hp Hst1)
      as (Hp1 & Hlen1 & Hlast1).
    destruct (IH (S i) st1 Hp1) as (st' & Hst' & Hp' & Hlen' & Hlast'); [lia | lia |].
    exists st'. split; [done|]. split; [done|]. split; [done|]. intros _.
    destruct elements as [|cl' elements]; [|by apply Hlast'].
    simpl in Hst'. injection Hst' as <-. apply Hlast1. simpl in Htotal. lia.
Qed.

End PackingLoop.

(** * Normalisation *)

Section Normalisation.

Variable cols : nat.
Implicit Types (g : grid) (st : FirstFit.state) (d : list item).

Lemma shrinkRows_spec e r j st :
  rowsDefined (FirstFit.st_grid st) →
  consistent (FirstFit.st_grid st) (FirstFit.st_data st) →
  idsOk (FirstFit.st_data st) →
  cell (FirstFit.st_grid st) r j = Some e →
  ∃ st' it,
    FirstFit.shrinkRows e (Z.of_nat r - 1) st = Ok st' ∧
    FirstFit.st_data st !! e = Some it ∧ in_rect it r j ∧
    rowsDefined (FirstFit.st_grid st') ∧
    consistent (FirstFit.st_grid st') (FirstFit.st_data st') ∧
    idsOk (FirstFit.st_data st') ∧
    length (FirstFit.st_grid st') = length (FirstFit.st_grid st) ∧
    length (FirstFit.st_data st') = length (FirstFit.st_data st) ∧
    (∀ k, k ≠ e → FirstFit.st_data st' !! k = FirstFit.st_data st !! k) ∧
    (∀ i' j', cell (FirstFit.st_grid st') i' j'
              = if decide (in_rect it i' j' ∧ r ≤ i') then None
                else cell (FirstFit.st_grid st) i' j').
Proof.
  intros Hdef Hcons Hids Hcell. unfold consistent in Hcons.
  destruct (proj1 (Hcons r j e) Hcell) as (it & Hit & Hrect).
  unfold FirstFit.shrinkRows. rewrite Hit.
  rewrite decide_True by (destruct Hrect as [? _]; lia).
  replace (Z.to_nat (Z.of_nat r - 1 + 1)) with r by lia.
  replace (Z.to_nat (Z.of_nat r - 1 - Z.of_nat (item_pos it).1 + 1))
    with (r - (item_pos it).1) by lia.
  destruct (writeRect_spec (FirstFit.st_grid st) r
              ((item_pos it).1 + item_rows it - r) (item_pos it).2 (item_cols it) None)
    as (g' & -> & Hlen & Hrows & Hwrite).
  { intros i Hi. eapply cell_Some_row. apply (Hcons i j e). exists it.
    split; [done|]. destruct Hrect as [? ?]. split; [lia | done]. }
  cbn [rbind]. eexists _, it. split; [done|]. split; [done|]. split; [done|].
  simpl.
  assert (∀ i' j', cell g' i' j'
                   = if decide (in_rect it i' j' ∧ r ≤ i') then None
                     else cell (FirstFit.st_grid st) i' j') as Hcell'.
  { intros i' j'. rewrite Hwrite. unfold in_rect in *.
    repeat case_decide; try done; lia. }
  assert (e < length (FirstFit.st_data st)) as Hlt by (by eapply lookup_lt_Some).
  split; [|split; [|split; [|split; [|split; [|split]]]]]; try done.
  - intros i Hi. rewrite Hlen in Hi. destruct (aget g' i) eqn:E; [eauto|].
    apply Hrows in E. destruct (Hdef i Hi). congruence.
  - intros i' j' e'. rewrite Hcell'.
    destruct (decide (e' = e)) as [->|Hne].
    + rewrite list_lookup_insert_eq by done. case_decide as Hin; split.
      * done.
      * intros (it' & [= <-] & Hr'). exfalso.
        unfold in_rect in *. simpl in *. lia.
      * intros Hc. apply Hcons in Hc as (it' & Hit' & Hr').
        rewrite Hit in Hit'. injection Hit' as <-.
        eexists. split; [done|]. unfold in_rect in *. simpl. lia.
      * intros (it' & [= <-] & Hr'). apply Hcons. exists it. split; [done|].
        unfold in_rect in *. simpl in *. lia.
    + rewrite list_lookup_insert_ne by done. case_decide as Hin; [|apply Hcons].
      split; [done|]. intros (it' & Hit' & Hr'). exfalso. apply Hne.
      assert (cell (FirstFit.st_grid st) i' j' = Some e') as H1 by (apply Hcons; eauto).
      assert (cell (FirstFit.st_grid st) i' j' = Some e) as H2.
      { apply Hcons. exists it. split; [done | apply Hin]. }
      congruence.
  - intros e' it'. destruct (decide (e' = e)) as [->|Hne].
    + rewrite list_lookup_insert_eq by done. intros [= <-]. simpl. by apply Hids.
    + rewrite list_lookup_insert_ne by done. apply Hids.
  - by rewrite length_insert.
  - intros k Hk. by rewrite list_lookup_insert_ne.
Qed.

End Normalisation.

Section NormalisationPasses.

Variable cols : nat.
Implicit Types (g : grid) (st : FirstFit.state) (d : list item).

(** The loop that shrinks the occupants of row [r] between two columns:
    it empties the cells it visits, changes no row above [r], only ever
    empties cells, and leaves alone every element that covers none of the
    visited cells. *)
Lemma shrinkOccupants_spec r n from st :
  rowsDefined (FirstFit.st_grid st) →
  consistent (FirstFit.st_grid st) (FirstFit.st_data st) →
  idsOk (FirstFit.st_data st) →
  r < length (FirstFit.st_grid st) →
  ∃ st',
    FirstFit.shrinkOccupants r from (from + n) (Z.of_nat r - 1) st = Ok st' ∧
    rowsDefined (FirstFit.st_grid st') ∧
    consistent (FirstFit.st_grid st') (FirstFit.st_data st') ∧
    idsOk (FirstFit.st_data st') ∧
    length (FirstFit.st_grid st') = length (FirstFit.st_grid st) ∧
    length (FirstFit.st_data st') = length (FirstFit.st_data st) ∧
    (∀ i' j', i' < r →
              cell (FirstFit.st_grid st') i' j' = cell (FirstFit.st_grid st) i' j') ∧
    (∀ i' j', cell (FirstFit.st_grid st') i' j' = None ∨
              cell (FirstFit.st_grid st') i' j' = cell (FirstFit.st_grid st) i' j') ∧
    (∀ i, from ≤ i < from + n → cell (FirstFit.st_grid st') r i = None) ∧
    (∀ k it, FirstFit.st_data st !! k = Some it →
             (∀ i, from ≤ i < from + n → ¬ in_rect it r i) →
             FirstFit.st_data st' !! k = Some it).
Proof.
  unfold FirstFit.shrinkOccupants.
  replace (from + n - from) with n by lia.
  revert from st. induction n as [|n IH]; intros from st Hdef Hcons Hids Hr.
  - exists st. cbn [seq forM]. split; [done|].
    split; [done|]. split; [done|]. split; [done|]. split; [done|].
    split; [done|]. split; [done|]. split; [by right|].
    split; [intros; lia|]. by intros k it Hk _.
  - cbn [seq forM].
    rewrite cellRead_cell by (apply Hdef; lia). cbn [rbind].
    destruct (cell (FirstFit.st_grid st) r from) as [e|] eqn:Ecell.
    + destruct (shrinkRows_spec e r from st Hdef Hcons Hids Ecell)
        as (st1 & ite & -> & Hite & Hrect & Hdef1 & Hcons1 & Hids1 & Hlg1 & Hld1
            & Hother & Hcell1).
      cbn [rbind].
      destruct (IH (S from) st1 Hdef1 Hcons1 Hids1) as
        (st' & Hst' & Hdef' & Hcons' & Hids' & Hlg' & Hld' & Habove & Hmono & Hscan & Hprot);
        [lia|].
      exists st'. split; [exact Hst'|].
      split; [done|]. split; [done|]. split; [done|].
      split; [congruence|]. split; [congruence|]. split; [|split; [|split]].
      * intros i' j' Hi'. rewrite Habove by done. rewrite Hcell1.
        rewrite decide_False; [done | lia].
      * intros i' j'. destruct (Hmono i' j') as [?| ->]; [by left|].
        rewrite Hcell1. case_decide; [by left | by right].
      * intros i Hi. destruct (decide (i = from)) as [->|]; [|apply Hscan; lia].
        destruct (Hmono r from) as [?| ->]; [done|].
        rewrite Hcell1. rewrite decide_True; [done|]. split; [done | lia].
      * intros k it Hk Hfree. apply Hprot.
        -- rewrite Hother; [done|]. intros ->.
           rewrite Hite in Hk. injection Hk as <-.
           apply (Hfree from); [lia | done].
        -- intros i Hi. apply Hfree. lia.
    + destruct (IH (S from) st Hdef Hcons Hids Hr) as
        (st' & Hst' & Hdef' & Hcons' & Hids' & Hlg' & Hld' & Habove & Hmono & Hscan & Hprot).
      exists st'. split; [exact Hst'|].
      split; [done|]. split; [done|]. split; [done|].
      split; [done|]. split; [done|]. split; [done|]. split; [done|]. split.
      * intros i Hi. destruct (decide (i = from)) as [->|]; [|apply Hscan; lia].
        destruct (Hmono r from) as [?| ->]; done.
      * intros k it Hk Hfree. apply Hprot; [done|]. intros i Hi. apply Hfree. lia.
Qed.

Lemma allFilled_loop g r n from b0 :
  is_Some (aget g r) →
  ∃ b, forM (seq from n)
            (λ i b, let* c := cellRead g r i in Ok (b && bool_decide (is_Some c))) b0
       = Ok b ∧
       (b = true ↔ b0 = true ∧ ∀ i, from ≤ i < from + n → cell g r i ≠ None).
Proof.
  intros Hr. revert from b0. induction n as [|n IH]; intros from b0; cbn [seq forM].
  - exists b0. split; [done|]. split; [|tauto]. intros ->. split; [done|]. intros; lia.
  - rewrite cellRead_cell by done. cbn [rbind].
    destruct (IH (S from) (b0 && bool_decide (is_Some (cell g r from)))) as (b & -> & Hb).
    exists b. split; [done|]. rewrite Hb, andb_true_iff, bool_decide_eq_true.
    split.
    + intros [[-> [e He]] Hall]. split; [done|]. intros i Hi.
      destruct (decide (i = from)) as [->|]; [congruence|]. apply Hall. lia.
    + intros [-> Hall]. split; [split; [done|]|].
      * specialize (Hall from). destruct (cell g r from); [eauto|]. exfalso.
        apply Hall; [lia | done].
      * intros i Hi. apply Hall. lia.
Qed.

Lemma allFilled_spec g r from to :
  is_Some (aget g r) →
  ∃ b, FirstFit.allFilled g r from to = Ok b ∧
       (b = true ↔ ∀ i, from ≤ i < to → cell g r i ≠ None).
Proof.
  intros Hr. unfold FirstFit.allFilled.
  destruct (allFilled_loop g r (to - from) from true Hr) as (b & -> & Hb).
  exists b. split; [done|]. rewrite Hb. split.
  - intros [_ H] i Hi. apply H. lia.
  - intros H. split; [done|]. intros i Hi. apply H. lia.
Qed.

End NormalisationPasses.

Section NormaliseLast.

Variable cols : nat.
Implicit Types (g : grid) (st : FirstFit.state) (d : list item).

Lemma aget_take {A} (a : list (option A)) k i :
  aget (take k a) i = if decide (i < k) then aget a i else None.
Proof.
  unfold aget. case_decide.
  - by rewrite lookup_take_lt.
  - by rewrite lookup_take_ge by lia.
Qed.

Lemma cell_take g k i j :
  cell (take k g) i j = if decide (i < k) then cell g i j else None.
Proof. unfold cell. rewrite aget_take. by case_decide. Qed.

Lemma rowsDefined_take g k : rowsDefined g → rowsDefined (take k g).
Proof.
  intros Hdef i Hi. rewrite length_take in Hi. rewrite aget_take.
  rewrite decide_True by lia. apply Hdef. lia.
Qed.

Lemma settled_refl r k last st :
  rowsDefined (FirstFit.st_grid st) →
  consistent (FirstFit.st_grid st) (FirstFit.st_data st) →
  idsOk (FirstFit.st_data st) →
  FirstFit.st_data st !! k = Some last →
  settled r k last st st.
Proof. intros. unfold settled. do 6 (split; [done|]). done. Qed.

(** The first pass: elements on the left that end lower than the last
    one. *)
Lemma normalise_left k p st :
  rowsDefined (FirstFit.st_grid st) →
  consistent (FirstFit.st_grid st) (FirstFit.st_data st) →
  idsOk (FirstFit.st_data st) →
  FirstFit.st_data st !! k = Some (Item k p 1 1) →
  ∃ st1,
    match aget (FirstFit.st_grid st) (p.1 + 1) with
    | Some _ => FirstFit.shrinkOccupants (p.1 + 1) 0 p.2 (Z.of_nat (p.1 + 1) - 1) st
    | None => Ok st
    end = Ok st1 ∧
    settled (p.1 + 1) k (Item k p 1 1) st st1.
Proof.
  intros Hdef Hcons Hids Hlast.
  destruct (aget (FirstFit.st_grid st) (p.1 + 1)) as [row|] eqn:Erow.
  - destruct (shrinkOccupants_spec (p.1 + 1) p.2 0 st Hdef Hcons Hids)
      as (st1 & Hst1 & Hdef1 & Hcons1 & Hids1 & Hlg & Hld & Habove & _ & _ & Hprot).
    { apply aget_is_Some_lt. rewrite Erow. eauto. }
    exists st1. split; [exact Hst1|].
    split; [done|]. split; [done|]. split; [done|]. split; [done|].
    split; [done|]. split; [done|].
    apply Hprot; [done|]. intros i _ [Hrow _]. simpl in Hrow. lia.
  - exists st. split; [done|]. by apply settled_refl.
Qed.

End NormaliseLast.

Section NormaliseRight.

Variable cols : nat.
Implicit Types (g : grid) (st : FirstFit.state) (d : list item).

Lemma shrinkOccupants_range r from to st :
  from ≤ to →
  rowsDefined (FirstFit.st_grid st) →
  consistent (FirstFit.st_grid st) (FirstFit.st_data st) →
  idsOk (FirstFit.st_data st) →
  r < length (FirstFit.st_grid st) →
  ∃ st',
    FirstFit.shrinkOccupants r from to (Z.of_nat r - 1) st = Ok st' ∧
    rowsDefined (FirstFit.st_grid st') ∧
    consistent (FirstFit.st_grid st') (FirstFit.st_data st') ∧
    idsOk (FirstFit.st_data st') ∧
    length (FirstFit.st_grid st') = length (FirstFit.st_grid st) ∧
    length (FirstFit.st_data st') = length (FirstFit.st_data st) ∧
    (∀ i' j', i' < r →
              cell (FirstFit.st_grid st') i' j' = cell (FirstFit.st_grid st) i' j') ∧
    (∀ i, from ≤ i < to → cell (FirstFit.st_grid st') r i = None) ∧
    (∀ k it, FirstFit.st_data st !! k = Some it →
             (∀ i, from ≤ i < to → ¬ in_rect it r i) →
             FirstFit.st_data st' !! k = Some it).
Proof.
  intros Hle Hdef Hcons Hids Hr.
  destruct (shrinkOccupants_spec r (to - from) from st Hdef Hcons Hids Hr)
    as (st' & Hst' & ? & ? & ? & ? & ? & ? & _ & Hscan & Hprot).
  replace (from + (to - from)) with to in * by lia.
  exists st'. do 7 (split; [done|]). split; [exact Hscan | exact Hprot].
Qed.

(** In a consistent state the last element, one cell big, owns its cell. *)
Lemma last_cell k p st :
  consistent (FirstFit.st_grid st) (FirstFit.st_data st) →
  FirstFit.st_data st !! k = Some (Item k p 1 1) →
  cell (FirstFit.st_grid st) p.1 p.2 = Some k.
Proof.
  intros Hcons Hlast. apply Hcons. eexists. split; [done|].
  unfold in_rect. simpl. lia.
Qed.

(** The second pass: elements on the right that reach the row of the last
    one. *)
Lemma normalise_right k p st0 st1 (filled : bool) :
  settled (p.1 + 1) k (Item k p 1 1) st0 st1 →
  (∀ j, j < p.2 → cell (FirstFit.st_grid st0) p.1 j ≠ None) →
  ∃ st2,
    (if filled then Ok st1
     else FirstFit.shrinkOccupants p.1 (p.2 + 1) cols (Z.of_nat p.1 - 1) st1) = Ok st2 ∧
    settled p.1 k (Item k p 1 1) st0 st2 ∧
    (∀ j, j ≤ p.2 → cell (FirstFit.st_grid st2) p.1 j ≠ None) ∧
    (filled = true → st2 = st1) ∧
    (filled = false →
     ∀ i, p.2 + 1 ≤ i < cols → cell (FirstFit.st_grid st2) p.1 i = None).
Proof.
  intros (Hdef1 & Hcons1 & Hids1 & Hlg1 & Hld1 & Habove1 & Hlast1) Hleft.
  pose proof (last_cell k p st1 Hcons1 Hlast1) as Hown.
  assert (∀ j, j ≤ p.2 → cell (FirstFit.st_grid st1) p.1 j ≠ None) as Hleft1.
  { intros j Hj. destruct (decide (j = p.2)) as [->|]; [by rewrite Hown|].
    rewrite Habove1 by lia. apply Hleft. lia. }
  destruct filled.
  - exists st1. split; [done|]. split; [|split; [done|split; [done|done]]].
    do 5 (split; [done|]). split; [|done]. intros i j Hi. apply Habove1. lia.
  - destruct (decide (p.2 + 1 ≤ cols)) as [Hle|Hgt].
    + destruct (shrinkOccupants_range p.1 (p.2 + 1) cols st1 Hle Hdef1 Hcons1 Hids1)
        as (st2 & Hst2 & Hdef2 & Hcons2 & Hids2 & Hlg2 & Hld2 & Habove2 & Hscan & Hprot).
      { eapply cell_Some_lt, Hown. }
      assert (FirstFit.st_data st2 !! k = Some (Item k p 1 1)) as Hlast2.
      { apply Hprot; [done|]. intros i Hi [_ Hc]. simpl in Hc. lia. }
      exists st2. split; [exact Hst2|]. split; [|split; [|split; [done|]]].
      * do 3 (split; [done|]). split; [congruence|]. split; [congruence|].
        split; [|done]. intros i j Hi. rewrite Habove2 by done. apply Habove1. lia.
      * intros j Hj. destruct (decide (j = p.2)) as [->|Hne].
        { by rewrite (last_cell k p st2 Hcons2 Hlast2). }
        destruct (cell (FirstFit.st_grid st1) p.1 j) as [e|] eqn:Ecell;
          [|by destruct (Hleft1 j Hj)].
        destruct (proj1 (Hcons1 p.1 j e) Ecell) as (it & Hit & Hrect).
        assert (FirstFit.st_data st2 !! e = Some it) as Hit2.
        { apply Hprot; [done|]. intros i Hi Hrect'.
          assert (cell (FirstFit.st_grid st1) p.1 p.2 = Some e) as Hc.
          { apply Hcons1. exists it. split; [done|].
            unfold in_rect in *. lia. }
          rewrite Hown in Hc. injection Hc as ->.
          rewrite Hlast1 in Hit. injection Hit as <-.
          destruct Hrect as [_ Hc]. simpl in Hc. lia. }
        assert (cell (FirstFit.st_grid st2) p.1 j = Some e) as ->; [|done].
        apply Hcons2. eauto.
      * intros _. exact Hscan.
    + unfold FirstFit.shrinkOccupants.
      replace (cols - (p.2 + 1)) with 0 by lia. cbn [seq forM].
      exists st1. split; [done|]. split; [|split; [done|split; [done|]]].
      * do 5 (split; [done|]). split; [|done]. intros i j Hi. apply Habove1. lia.
      * intros _ i Hi. lia.
Qed.

End NormaliseRight.

Section NormaliseSpec.

Variable cols : nat.
Implicit Types (g : grid) (st : FirstFit.state) (d : list item).

(** What the truncated grid satisfies once the row of the last element is
    full. *)
Lemma truncate_perfect R st0 st3 :
  rowsDefined (FirstFit.st_grid st3) →
  consistent (FirstFit.st_grid st3) (FirstFit.st_data st3) →
  R < length (FirstFit.st_grid st3) →
  (∀ i j, i < R → cell (FirstFit.st_grid st3) i j = cell (FirstFit.st_grid st0) i j) →
  (∀ i j, i < R → j < cols → cell (FirstFit.st_grid st0) i j ≠ None) →
  (∀ j, j < cols → cell (FirstFit.st_grid st3) R j ≠ None) →
  rowsDefined (take (R + 1) (FirstFit.st_grid st3)) ∧
  length (take (R + 1) (FirstFit.st_grid st3)) = R + 1 ∧
  (∀ i j, i < R + 1 → j < cols →
          cell (take (R + 1) (FirstFit.st_grid st3)) i j ≠ None) ∧
  (∀ i j e, i < R + 1 →
     (cell (take (R + 1) (FirstFit.st_grid st3)) i j = Some e ↔
      ∃ it, FirstFit.st_data st3 !! e = Some it ∧ in_rect it i j)).
Proof.
  intros Hdef Hcons HR Habove Hfull Hrow.
  split; [by apply rowsDefined_take|]. split; [rewrite length_take; lia|]. split.
  - intros i j Hi Hj. rewrite cell_take, decide_True by done.
    destruct (decide (i = R)) as [->|]; [by apply Hrow|].
    rewrite Habove by lia. apply Hfull; [lia | done].
  - intros i j e Hi. rewrite cell_take, decide_True by done. apply Hcons.
Qed.

Lemma normalise_spec total st :
  packed st → length (FirstFit.st_data st) = total → lastPlaced cols st →
  ∃ st',
    FirstFit.normalise cols total st = Ok st' ∧
    rowsDefined (FirstFit.st_grid st') ∧
    idsOk (FirstFit.st_data st') ∧
    (∀ i j, i < length (FirstFit.st_grid st') → j < cols →
            cell (FirstFit.st_grid st') i j ≠ None) ∧
    (∀ i j e, i < length (FirstFit.st_grid st') →
       (cell (FirstFit.st_grid st') i j = Some e ↔
        ∃ it, FirstFit.st_data st' !! e = Some it ∧ in_rect it i j)).
Proof.
  intros (Hdef & Hcons & Hids & _) Hlen (p & Hlast & Hpc & Hbefore).
  rewrite Hlen in Hlast.
  unfold FirstFit.normalise. rewrite Hlast. cbn [item_pos item_rows item_cols].
  destruct (normalise_left (total - 1) p st Hdef Hcons Hids Hlast) as (st1 & -> & Hs1).
  cbn [rbind].
  assert (∀ j, j < p.2 → cell (FirstFit.st_grid st) p.1 j ≠ None) as Hleft.
  { intros j Hj. apply (Hbefore (p.1, j)); [right; simpl; lia | simpl; lia]. }
  assert (is_Some (aget (FirstFit.st_grid st1) p.1)) as Hrow1.
  { destruct Hs1 as (_ & Hcons1 & _ & _ & _ & _ & Hlast1).
    eapply cell_Some_row, (last_cell _ _ _ Hcons1 Hlast1). }
  destruct (allFilled_spec (FirstFit.st_grid st1) p.1 (p.2 + 1) cols Hrow1) as (b & -> & Hb).
  cbn [rbind].
  destruct (normalise_right cols (total - 1) p st st1 b Hs1 Hleft)
    as (st2 & -> & Hs2 & Hleft2 & Hbt & Hbf).
  cbn [rbind].
  destruct Hs2 as (Hdef2 & Hcons2 & Hids2 & Hlg2 & Hld2 & Habove2 & Hlast2).
  pose proof (last_cell _ _ _ Hcons2 Hlast2) as Hown2.
  assert (is_Some (aget (FirstFit.st_grid st2) p.1)) as Hrow2.
  { eapply cell_Some_row, Hown2. }
  assert (p.1 < length (FirstFit.st_grid st2)) as HR2 by (by apply aget_is_Some_lt).
  assert (∀ i j, i < p.1 → j < cols → cell (FirstFit.st_grid st) i j ≠ None) as Hfull.
  { intros i j Hi Hj. apply (Hbefore (i, j)); [left; simpl; lia | simpl; lia]. }
  destruct (allFilled_spec (FirstFit.st_grid st2) p.1 (p.2 + 1) cols Hrow2) as (b' & -> & Hb').
  cbn [rbind].
  destruct b'.
  - cbn [rbind]. eexists. split; [done|]. simpl.
    destruct (truncate_perfect p.1 st st2 Hdef2 Hcons2 HR2 Habove2 Hfull)
      as (Hd & Hl & Hf & Hc).
    { intros j Hj. destruct (decide (j ≤ p.2)); [by apply Hleft2|].
      apply (proj1 Hb' eq_refl). lia. }
    rewrite Hl. done.
  - assert (b = false) as ->.
    { destruct b; [|done]. rewrite (Hbt eq_refl) in Hb'.
      assert (false = true) as Habs by (apply Hb'; by apply Hb). done. }
    specialize (Hbf eq_refl).
    rewrite Hlast2. cbn [fmap option_fmap option_map item_id].
    destruct (writeRect_spec (FirstFit.st_grid st2) p.1 1 (p.2 + 1) (cols - (p.2 + 1))
                (Some (total - 1))) as (g3 & -> & Hlg3 & Hrows3 & Hcell3).
    { intros i Hi. by replace i with p.1 by lia. }
    cbn [rbind]. eexists. split; [done|].
    set (st3 := FirstFit.withData (FirstFit.withGrid st2 g3)
                  (alter (λ it, Item (item_id it) (item_pos it) (item_rows it) (cols - p.2))
                         (total - 1) (FirstFit.st_data st2))).
    assert (rowsDefined (FirstFit.st_grid st3)) as Hdef3.
    { intros i Hi. simpl in *. rewrite Hlg3 in Hi.
      destruct (aget g3 i) eqn:E; [eauto|]. apply Hrows3 in E.
      destruct (Hdef2 i Hi). congruence. }
    assert (consistent (FirstFit.st_grid st3) (FirstFit.st_data st3)) as Hcons3.
    { intros i j e. simpl. rewrite Hcell3.
      destruct (decide (e = total - 1)) as [->|Hne].
      - rewrite list_lookup_alter_eq, Hlast2. simpl. case_decide as Hin.
        + split; [|done]. intros _. eexists. split; [done|].
          unfold in_rect. simpl. lia.
        + rewrite (Hcons2 i j (total - 1)). split.
          * intros (it & Hit & Hrect). rewrite Hlast2 in Hit. injection Hit as <-.
            eexists. split; [done|]. unfold in_rect in *. simpl in *. lia.
          * intros (it & [= <-] & Hrect). eexists. split; [done|].
            unfold in_rect in *. simpl in *. lia.
      - rewrite list_lookup_alter_ne by done. case_decide as Hin.
        + split; [intros [= Heq]; congruence|].
          intros (it & Hit & Hrect). exfalso.
          assert (cell (FirstFit.st_grid st2) i j = Some e) as Hc
            by (apply Hcons2; eauto).
          replace i with p.1 in Hc by lia. rewrite Hbf in Hc; [done | lia].
        + apply Hcons2. }
    destruct (truncate_perfect p.1 st st3 Hdef3 Hcons3) as (Hd & Hl & Hf & Hc).
    + simpl. lia.
    + intros i j Hi. simpl. rewrite Hcell3. rewrite decide_False by lia.
      by apply Habove2.
    + done.
    + intros j Hj. simpl. rewrite Hcell3. case_decide; [done|].
      apply Hleft2. lia.
    + simpl in *. rewrite Hl. split; [done|]. split; [|done].
      intros e it. destruct (decide (e = total - 1)) as [->|Hne].
      * rewrite list_lookup_alter_eq, Hlast2. simpl. by intros [= <-].
      * rewrite list_lookup_alter_ne by done. apply Hids2.
Qed.

End NormaliseSpec.

(** * The perfect rectangle *)

Lemma run_cons (cols : nat) (rnd : nat → nat) (startsWith : list (option (nat * nat)))
    (sizes : list (nat * nat)) (classSizes : list (string * list (nat * nat)))
    (cl : list string) (elements : list (list string)) :
  FirstFit.run cols rnd startsWith sizes classSizes (cl :: elements)
  = let* st := FirstFit.each cols rnd startsWith (S (length elements)) 0
                 (cl :: elements) (FirstFit.initial sizes classSizes) in
    let* st' := FirstFit.normalise cols (S (length elements)) st in
    let* v := FirstFit.verticalLines cols (FirstFit.st_grid st') in
    let* h := FirstFit.horizontalLines cols (FirstFit.st_grid st') in
    Ok (FirstFit.Output (FirstFit.st_data st') (FirstFit.st_grid st') v h
          (length (FirstFit.st_grid st')), st').
Proof. reflexivity. Qed.

Lemma packed_initial (sizes : list (nat * nat))
    (classSizes : list (string * list (nat * nat))) :
  packed (FirstFit.initial sizes classSizes).
Proof.
  split; [|split; [|split]]; simpl.
  - intros i Hi. simpl in Hi. lia.
  - intros i j e. split; [done|]. by intros (it & Hit & _).
  - by intros e it Hit.
  - done.
Qed.

(** Claim C1, as stated, fails: with two columns and the sizes (1,1),
    (2,1), (2,1) pinned for three elements, all of them valid sizes, the grid
    ends with three rows and cell (2, 1) empty. *)
Lemma pinned_sizes_leave_a_gap :
  ∃ out st,
    FirstFit.run 2 (λ _, 0) [Some (1, 1); Some (2, 1); Some (2, 1)] [(1, 1)] []
      [[]; []; []] = Ok (out, st) ∧
    ¬ perfectRectangle 2 out.
Proof.
  eexists _, _. split; [vm_compute; reflexivity|].
  intros H. destruct (H 2 1) as (it & _ & Hc & _); [simpl; lia | lia |].
  vm_compute in Hc. discriminate Hc.
Qed.

(** Claim C1, amended.  For every input with at least one column, at least
    one element and no size pinned by [startsWith], whatever the pools and
    the draws, the call returns, and every cell of the first [totalRows] rows
    and [cols] columns of the grid holds the id of exactly one element: the
    cell is not empty, the rectangle of that element covers it, and the
    rectangle of no other element does. *)
Theorem perfect_rectangle_without_pinned_sizes (cols : nat) (rnd : nat → nat)
    (startsWith : list (option (nat * nat))) (sizes : list (nat * nat))
    (classSizes : list (string * list (nat * nat)))
    (elements : list (list string)) :
  1 ≤ cols → elements ≠ [] → (∀ i, aget startsWith i = None) →
  ∃ out st,
    FirstFit.run cols rnd startsWith sizes classSizes elements = Ok (out, st) ∧
    perfectRectangle cols out.
Proof.
  intros Hcols Hne Hsw. destruct elements as [|cl elements]; [done|].
  rewrite run_cons.
  destruct (each_packed cols rnd startsWith Hcols Hsw (S (length elements)) 0
              (cl :: elements) (FirstFit.initial sizes classSizes))
    as (st1 & -> & Hp1 & Hlen1 & Hlast1); [apply packed_initial | done | done |].
  cbn [rbind].
  destruct (normalise_spec cols (S (length elements)) st1 Hp1 Hlen1 (Hlast1 Hne))
    as (st2 & -> & Hdef2 & Hids2 & Hfull & Hcons).
  cbn [rbind].
  destruct (lines_total cols (FirstFit.st_grid st2) Hdef2) as (vs & hs & -> & ->).
  cbn [rbind]. eexists _, _. split; [done|].
  intros i j Hi Hj. simpl in *.
  destruct (cell (FirstFit.st_grid st2) i j) as [e|] eqn:Ecell;
    [|by destruct (Hfull i j Hi Hj)].
  destruct (proj1 (Hcons i j e Hi) Ecell) as (it & Hit & Hrect).
  exists it. split; [by eapply list_elem_of_lookup_2|].
  split; [by rewrite (Hids2 e it Hit)|]. split; [done|].
  intros it' [e' Hit']%list_elem_of_lookup_1 Hrect'.
  assert (cell (FirstFit.st_grid st2) i j = Some e') as Hc.
  { apply Hcons; eauto. }
  rewrite Ecell in Hc. injection Hc as <-. congruence.
Qed.

Lemma perfect_rectangle_without_pinned_sizes_witness :
  ∃ out st,
    FirstFit.run 3 (λ k, k) [] [(1, 1); (2, 1); (1, 2)] [] [[]; []; []; []; []]
    = Ok (out, st) ∧
    perfectRectangle 3 out.
Proof.
  apply (perfect_rectangle_without_pinned_sizes 3 (λ k, k) []
           [(1, 1); (2, 1); (1, 2)] [] [[]; []; []; []; []]).
  - lia.
  - discriminate.
  - intros i. destruct i; reflexivity.
Defined.

(** * Every call returns *)

Section Returns.

Variable cols : nat.
Variable rnd : nat → nat.
Variable startsWith : list (option (nat * nat)).
Implicit Types (g : grid) (st : FirstFit.state) (d : list item).

Lemma place_sound total i cl st st' :
  sound (FirstFit.st_grid st) (FirstFit.st_data st) →
  FirstFit.st_id st = length (FirstFit.st_data st) →
  FirstFit.place cols rnd startsWith total i cl st = Ok st' →
  sound (FirstFit.st_grid st') (FirstFit.st_data st') ∧
  FirstFit.st_id st' = length (FirstFit.st_data st') ∧
  ∃ p, FirstFit.st_data st'
       = FirstFit.st_data st ++
           [Item (FirstFit.st_id st) p
              (FirstFit.resolveSize cols rnd startsWith p (total - i) i cl st).1.1
              (FirstFit.resolveSize cols rnd startsWith p (total - i) i cl st).1.2].
Proof.
  intros (Hdef & Hin & Hend) Hid H.
  apply place_Ok in H as (p & g' & Hp & Hmark & ->).
  set (sz := (FirstFit.resolveSize cols rnd startsWith p (total - i) i cl st).1) in *.
  apply firstEmptySpace_first in Hp as (Hp1 & _).
  destruct (mark_length _ _ _ _ _ _ Hdef Hp1 Hmark) as [Hdef' Hlen'].
  destruct (mark_spec (FirstFit.st_grid st) p sz.1 sz.2 (FirstFit.st_id st))
    as (g'' & Hg'' & _ & Hcell).
  rewrite Hmark in Hg''. injection Hg'' as <-. simpl.
  split; [|split; [rewrite length_app; simpl; lia | by exists p]].
  split; [done|]. split.
  - intros x y e. rewrite Hcell. case_decide as Hrect.
    + intros [= <-]. eexists. split; [|exact Hrect].
      rewrite Hid. by apply list_lookup_middle.
    + intros Hc. apply Hin in Hc as (it & Hit & Hr). exists it. split; [|done].
      by apply lookup_app_l_Some.
  - intros e it Hit. rewrite Hlen'.
    destruct (decide (e < length (FirstFit.st_data st))) as [Hlt|Hge].
    + rewrite lookup_app_l in Hit by done. apply Hend in Hit. lia.
    + rewrite lookup_app_r in Hit by lia.
      destruct (e - length (FirstFit.st_data st)) as [|k]; [|done].
      injection Hit as <-. simpl. lia.
Qed.

(** The size of the last element is the pinned one or [[1, 1]]. *)
Lemma resolveSize_last_cases p i cl st :
  (FirstFit.resolveSize cols rnd startsWith p 1 i cl st).1 = (1, 1) ∨
  aget startsWith i = Some (FirstFit.resolveSize cols rnd startsWith p 1 i cl st).1.
Proof.
  unfold FirstFit.resolveSize.
  apply (foldl_preserves _ (λ acc, acc.1 = (1, 1) ∨ aget startsWith i = Some acc.1)).
  - destruct (aget startsWith i); [by right | left; by rewrite getRandomSize_unfold].
  - intros acc n Hacc.
    destruct (classOverride_cases cols rnd p 1 cl n acc) as [->| ->]; [done|].
    left. by rewrite getRandomSize_unfold.
Qed.

Hypothesis pinned_rows : ∀ i sz, aget startsWith i = Some sz → 1 ≤ sz.1.

Lemma each_sound total i elements st :
  sound (FirstFit.st_grid st) (FirstFit.st_data st) →
  FirstFit.st_id st = length (FirstFit.st_data st) →
  length (FirstFit.st_data st) = i → i + length elements = total →
  ∃ st', FirstFit.each cols rnd startsWith total i elements st = Ok st' ∧
         sound (FirstFit.st_grid st') (FirstFit.st_data st') ∧
         length (FirstFit.st_data st') = total ∧
         (elements ≠ [] →
          ∃ last, FirstFit.st_data st' !! (total - 1) = Some last ∧ 1 ≤ item_rows last).
Proof.
  revert i st. induction elements as [|cl elements IH]; intros i st Hs Hid Hi Htotal.
  - simpl in *. exists st. split; [done|]. split; [done|]. split; [lia | done].
  - simpl in Htotal. cbn [FirstFit.each].
    destruct (place_total cols rnd startsWith total i cl st) as [st1 Hst1]; [apply Hs|].
    rewrite Hst1. cbn [rbind].
    destruct (place_sound total i cl st st1 Hs Hid Hst1) as (Hs1 & Hid1 & p & Hd1).
    assert (length (FirstFit.st_data st1) = S i) as Hlen1.
    { rewrite Hd1, length_app. simpl. lia. }
    destruct (IH (S i) st1 Hs1 Hid1 Hlen1) as (st' & Hst' & Hs' & Hlen' & Hlast'); [lia|].
    exists st'. split; [done|]. split; [done|]. split; [done|]. intros _.
    destruct elements as [|cl' elements]; [|by apply Hlast'].
    simpl in Hst'. injection Hst' as <-. simpl in Htotal.
    eexists. split.
    + rewrite Hd1. replace (total - 1) with (length (FirstFit.st_data st) + 0) by lia.
      by rewrite lookup_app_r, Nat.add_comm, Nat.add_sub by lia.
    + simpl. replace (total - i) with 1 by lia.
      destruct (resolveSize_last_cases p i cl st) as [->|Hpin]; [simpl; lia|].
      by apply pinned_rows in Hpin.
Qed.

End Returns.

Section NormaliseReturns.

Variable cols : nat.
Implicit Types (g : grid) (st : FirstFit.state) (d : list item).

Lemma shrinkRows_sound e r j st :
  sound (FirstFit.st_grid st) (FirstFit.st_data st) →
  cell (FirstFit.st_grid st) r j = Some e →
  ∃ st', FirstFit.shrinkRows e (Z.of_nat r - 1) st = Ok st' ∧
         sound (FirstFit.st_grid st') (FirstFit.st_data st') ∧
         length (FirstFit.st_grid st') = length (FirstFit.st_grid st) ∧
         length (FirstFit.st_data st') = length (FirstFit.st_data st).
Proof.
  intros (Hdef & Hin & Hend) Hcell.
  destruct (Hin r j e Hcell) as (it & Hit & Hrect).
  pose proof (Hend e it Hit) as Hstop.
  unfold FirstFit.shrinkRows. rewrite Hit.
  rewrite decide_True by (destruct Hrect as [? _]; lia).
  replace (Z.to_nat (Z.of_nat r - 1 + 1)) with r by lia.
  replace (Z.to_nat (Z.of_nat r - 1 - Z.of_nat (item_pos it).1 + 1))
    with (r - (item_pos it).1) by lia.
  destruct (writeRect_spec (FirstFit.st_grid st) r
              ((item_pos it).1 + item_rows it - r) (item_pos it).2 (item_cols it) None)
    as (g' & -> & Hlen & Hrows & Hwrite).
  { intros i Hi. apply Hdef. lia. }
  cbn [rbind]. eexists. split; [done|]. simpl.
  assert (e < length (FirstFit.st_data st)) as Hlt by (by eapply lookup_lt_Some).
  split; [|split; [done | by rewrite length_insert]].
  split; [|split].
  - intros i Hi. rewrite Hlen in Hi. destruct (aget g' i) eqn:E; [eauto|].
    apply Hrows in E. destruct (Hdef i Hi). congruence.
  - intros i' j' e'. rewrite Hwrite. case_decide as Hreg; [done|].
    intros Hc. apply Hin in Hc as (it' & Hit' & Hrect').
    destruct (decide (e' = e)) as [->|Hne].
    + rewrite Hit in Hit'. injection Hit' as <-.
      rewrite list_lookup_insert_eq by done. eexists. split; [done|].
      unfold in_rect in *. simpl. lia.
    + rewrite list_lookup_insert_ne by done. eauto.
  - intros e' it'. rewrite Hlen. destruct (decide (e' = e)) as [->|Hne].
    + rewrite list_lookup_insert_eq by done. intros [= <-]. simpl.
      destruct Hrect as [? _]. lia.
    + rewrite list_lookup_insert_ne by done. apply Hend.
Qed.

Lemma shrinkOccupants_sound r from to st :
  sound (FirstFit.st_grid st) (FirstFit.st_data st) →
  r < length (FirstFit.st_grid st) →
  ∃ st', FirstFit.shrinkOccupants r from to (Z.of_nat r - 1) st = Ok st' ∧
         sound (FirstFit.st_grid st') (FirstFit.st_data st') ∧
         length (FirstFit.st_grid st') = length (FirstFit.st_grid st) ∧
         length (FirstFit.st_data st') = length (FirstFit.st_data st).
Proof.
  unfold FirstFit.shrinkOccupants. generalize (to - from) as n. intros n.
  revert from st. induction n as [|n IH]; intros from st Hs Hr; cbn [seq forM].
  - exists st. done.
  - rewrite cellRead_cell by (apply Hs; lia). cbn [rbind].
    destruct (cell (FirstFit.st_grid st) r from) as [e|] eqn:Ecell; [|by apply IH].
    destruct (shrinkRows_sound e r from st Hs Ecell) as (st1 & -> & Hs1 & Hlg1 & Hld1).
    cbn [rbind].
    destruct (IH (S from) st1 Hs1) as (st' & -> & Hs' & Hlg' & Hld'); [lia|].
    exists st'. split; [done|]. split; [done|]. split; congruence.
Qed.

Lemma normalise_total total st last :
  sound (FirstFit.st_grid st) (FirstFit.st_data st) →
  FirstFit.st_data st !! (total - 1) = Some last → 1 ≤ item_rows last →
  ∃ st', FirstFit.normalise cols total st = Ok st' ∧
         rowsDefined (FirstFit.st_grid st').
Proof.
  intros Hs Hlast Hrows. unfold FirstFit.normalise. rewrite Hlast.
  pose proof (proj2 (proj2 Hs) _ _ Hlast) as Hend.
  assert (∃ st1,
            match aget (FirstFit.st_grid st) ((item_pos last).1 + item_rows last) with
            | Some _ =>
                FirstFit.shrinkOccupants ((item_pos last).1 + item_rows last) 0
                  (item_pos last).2
                  (Z.of_nat ((item_pos last).1 + item_rows last) - 1) st
            | None => Ok st
            end = Ok st1 ∧
            sound (FirstFit.st_grid st1) (FirstFit.st_data st1) ∧
            length (FirstFit.st_grid st1) = length (FirstFit.st_grid st))
    as (st1 & -> & Hs1 & Hlg1).
  { destruct (aget (FirstFit.st_grid st) ((item_pos last).1 + item_rows last)) eqn:E;
      [|by exists st].
    destruct (shrinkOccupants_sound ((item_pos last).1 + item_rows last) 0
                (item_pos last).2 st Hs) as (st1 & ? & ? & ? & _).
    { apply aget_is_Some_lt. rewrite E. eauto. }
    by exists st1. }
  cbn [rbind].
  assert (is_Some (aget (FirstFit.st_grid st1) (item_pos last).1)) as Hrow1.
  { apply Hs1. lia. }
  destruct (allFilled_spec (FirstFit.st_grid st1) (item_pos last).1
              ((item_pos last).2 + item_cols last) cols Hrow1) as (b & -> & _).
  cbn [rbind].
  assert (∃ st2,
            (if b then Ok st1
             else FirstFit.shrinkOccupants (item_pos last).1
                    ((item_pos last).2 + item_cols last) cols
                    (Z.of_nat (item_pos last).1 - 1) st1) = Ok st2 ∧
            sound (FirstFit.st_grid st2) (FirstFit.st_data st2) ∧
            length (FirstFit.st_grid st2) = length (FirstFit.st_grid st))
    as (st2 & -> & Hs2 & Hlg2).
  { destruct b; [by exists st1|].
    destruct (shrinkOccupants_sound (item_pos last).1
                ((item_pos last).2 + item_cols last) cols st1 Hs1)
      as (st2 & ? & ? & ? & _); [lia|].
    exists st2. split; [done|]. split; [done | congruence]. }
  cbn [rbind].
  assert (is_Some (aget (FirstFit.st_grid st2) (item_pos last).1)) as Hrow2.
  { apply Hs2. lia. }
  destruct (allFilled_spec (FirstFit.st_grid st2) (item_pos last).1
              ((item_pos last).2 + item_cols last) cols Hrow2) as (b' & -> & _).
  cbn [rbind]. destruct b'.
  - cbn [rbind]. eexists. split; [done|]. simpl. apply rowsDefined_take, Hs2.
  - destruct (writeRect_spec (FirstFit.st_grid st2) (item_pos last).1 (item_rows last)
                ((item_pos last).2 + item_cols last)
                (cols - ((item_pos last).2 + item_cols last))
                (item_id <$> FirstFit.st_data st2 !! (total - 1)))
      as (g3 & -> & Hlg3 & Hrows3 & _).
    { intros i Hi. apply Hs2. lia. }
    cbn [rbind]. eexists. split; [done|]. simpl. apply rowsDefined_take.
    intros i Hi. rewrite Hlg3 in Hi. destruct (aget g3 i) eqn:E; [eauto|].
    apply Hrows3 in E. destruct (proj1 Hs2 i Hi). congruence.
Qed.

End NormaliseReturns.

(** With at least one row in every pinned size the call throws nothing and
    stays within the model, whatever else the options hold. *)
Lemma run_returns (cols : nat) (rnd : nat → nat)
    (startsWith : list (option (nat * nat))) (sizes : list (nat * nat))
    (classSizes : list (string * list (nat * nat)))
    (elements : list (list string)) :
  (∀ i sz, aget startsWith i = Some sz → 1 ≤ sz.1) →
  ∃ out st, FirstFit.run cols rnd startsWith sizes classSizes elements = Ok (out, st).
Proof.
  intros Hpin. destruct elements as [|cl elements]; [by eexists _, _|].
  rewrite run_cons.
  destruct (each_sound cols rnd startsWith Hpin (S (length elements)) 0
              (cl :: elements) (FirstFit.initial sizes classSizes))
    as (st1 & -> & Hs1 & Hlen1 & Hlast1); try done.
  { split; [|split]; simpl.
    - intros i Hi. simpl in Hi. lia.
    - by intros i j e.
    - by intros e it. }
  cbn [rbind]. destruct Hlast1 as (last & Hlast & Hrows); [done|].
  destruct (normalise_total cols (S (length elements)) st1 last Hs1 Hlast Hrows)
    as (st2 & -> & Hdef2).
  cbn [rbind].
  destruct (lines_total cols (FirstFit.st_grid st2) Hdef2) as (vs & hs & -> & ->).
  cbn [rbind]. by eexists _, _.
Qed.

(** * Sizes wider than the grid *)

(** Claim C4, as stated, fails: with two columns and the size [[1, 3]]
    pinned for the only element, the call returns normally with the element
    placed three columns wide, and cell (0, 2), outside the column bound, is
    marked. *)
Lemma wide_pinned_size_not_rejected :
  ∃ out st,
    FirstFit.run 2 (λ _, 0) [Some (1, 3)] [(1, 1)] [] [[]] = Ok (out, st) ∧
    FirstFit.placements out = [Item 0 (0, 0) 1 3] ∧
    cell (FirstFit.occupancy out) 0 2 = Some 0.
Proof. eexists _, _. split; [vm_compute; reflexivity|]. split; reflexivity. Qed.

(** Claim C4, amended.  A pinned size wider than [s.cols] is not rejected
    and nothing is thrown.  Every turn of the packing loop commits its
    element to the first empty cell with the size that the resolution gives
    it, whatever that size is, and marks every cell of its rectangle: no size
    is compared with [s.cols].  When the pinned size survives the resolution,
    which it does when every class of the element that has a pool in
    [classSizes] has the pinned size in that pool, and so when the element
    has no such class, the element is committed with its pinned size, and
    the cell of its first row in column [s.cols], beyond the last column, is
    marked.  When a class pool of the element lacks the pinned size, the
    element is committed with the size selected again from the class pools
    instead, [[1, 1]] or a size that fits at the position, and neither then
    is anything thrown.  The call as a whole returns for every input whose
    pinned sizes have at least one row, however wide they are. *)
Theorem wide_pinned_size_is_placed (cols : nat) (rnd : nat → nat)
    (startsWith : list (option (nat * nat))) :
  (∀ total i cl st,
     rowsDefined (FirstFit.st_grid st) →
     ∃ p st',
       FirstFit.firstEmptySpace cols (FirstFit.st_grid st) = Ok p ∧
       FirstFit.place cols rnd startsWith total i cl st = Ok st' ∧
       FirstFit.st_data st'
       = FirstFit.st_data st ++
           [Item (FirstFit.st_id st) p
              (FirstFit.resolveSize cols rnd startsWith p (total - i) i cl st).1.1
              (FirstFit.resolveSize cols rnd startsWith p (total - i) i cl st).1.2] ∧
       (∀ x y,
          in_rect (Item (FirstFit.st_id st) p
                     (FirstFit.resolveSize cols rnd startsWith p (total - i) i cl st).1.1
                     (FirstFit.resolveSize cols rnd startsWith p (total - i) i cl st).1.2)
                  x y →
          cell (FirstFit.st_grid st') x y = Some (FirstFit.st_id st)) ∧
       (∀ r c,
          aget startsWith i = Some (r, c) → cols < c →
          ((∀ n key pool, FirstFit.st_classSizes st !! n = Some (key, pool) →
                          key ∈ cl → (r, c) ∈ pool) →
           (FirstFit.resolveSize cols rnd startsWith p (total - i) i cl st).1 = (r, c) ∧
           (1 ≤ r → cell (FirstFit.st_grid st') p.1 cols = Some (FirstFit.st_id st))) ∧
          ((∃ n key pool, FirstFit.st_classSizes st !! n = Some (key, pool) ∧
                          key ∈ cl ∧ (r, c) ∉ pool) →
           (FirstFit.resolveSize cols rnd startsWith p (total - i) i cl st).1 = (1, 1) ∨
           FirstFit.isAllocable cols (FirstFit.st_grid st)
             (FirstFit.resolveSize cols rnd startsWith p (total - i) i cl st).1 p = true))) ∧
  (∀ sizes classSizes elements,
     (∀ i sz, aget startsWith i = Some sz → 1 ≤ sz.1) →
     ∃ out st,
       FirstFit.run cols rnd startsWith sizes classSizes elements = Ok (out, st)).
Proof.
  split; [|intros; by apply run_returns].
  intros total i cl st Hdef.
  destruct (place_total cols rnd startsWith total i cl st Hdef) as [st' Hst'].
  pose proof Hst' as H. apply place_Ok in H as (p & g' & Hp & Hmark & ->).
  set (sz := (FirstFit.resolveSize cols rnd startsWith p (total - i) i cl st).1) in *.
  destruct (mark_spec (FirstFit.st_grid st) p sz.1 sz.2 (FirstFit.st_id st))
    as (g'' & Hg'' & _ & Hcell).
  rewrite Hmark in Hg''. injection Hg'' as <-.
  assert (∀ x y, in_rect (Item (FirstFit.st_id st) p sz.1 sz.2) x y →
                 cell g' x y = Some (FirstFit.st_id st)) as Hrect.
  { intros x y Hxy. rewrite Hcell. by rewrite decide_True. }
  exists p. eexists. split; [done|]. split; [exact Hst'|]. split; [done|].
  split; [exact Hrect|]. intros r c Hsw Hwide. split.
  - intros Hpools.
    assert (sz = (r, c)) as Hsz.
    { unfold sz. by apply resolveSize_pinned. }
    split; [done|]. intros Hr. simpl. apply Hrect.
    apply firstEmptySpace_first in Hp as (_ & ? & _).
    rewrite Hsz. unfold in_rect. simpl. lia.
  - intros Hlack. by apply (resolveSize_replaced_fits cols rnd startsWith p (total - i) i
                              cl st (r, c)).
Qed.

Lemma wide_pinned_size_is_placed_witness :
  rowsDefined (FirstFit.st_grid (FirstFit.initial [(1, 1)] [])) ∧
  ∃ p st',
    FirstFit.firstEmptySpace 2 (FirstFit.st_grid (FirstFit.initial [(1, 1)] [])) = Ok p ∧
    FirstFit.place 2 (λ _, 0) [Some (1, 3)] 1 0 [] (FirstFit.initial [(1, 1)] []) = Ok st' ∧
    FirstFit.st_data st' = [Item 0 p 1 3] ∧
    (∀ x y, in_rect (Item 0 p 1 3) x y → cell (FirstFit.st_grid st') x y = Some 0) ∧
    cell (FirstFit.st_grid st') p.1 2 = Some 0.
Proof.
  assert (rowsDefined (FirstFit.st_grid (FirstFit.initial [(1, 1)] []))) as Hdef.
  { intros i Hi. simpl in Hi. lia. }
  split; [exact Hdef|].
  destruct (proj1 (wide_pinned_size_is_placed 2 (λ _, 0) [Some (1, 3)]) 1 0 []
              (FirstFit.initial [(1, 1)] []) Hdef)
    as (p & st' & Hp & Hplace & Hdata & Hrect & Hwide).
  destruct (Hwide 1 3 eq_refl ltac:(lia)) as [Hkept _].
  destruct Hkept as [Hsz Hcell].
  { intros n key pool Hn. destruct n; discriminate Hn. }
  rewrite Hsz in Hdata, Hrect. exists p, st'.
  split; [exact Hp|]. split; [exact Hplace|]. split; [exact Hdata|].
  split; [exact Hrect|]. apply Hcell. simpl. lia.
Defined.

(** Two columns, the size [[1, 3]] pinned, and a class of the element whose
    pool [[[1, 1]]] lacks it: the turn throws nothing and the element is
    committed one cell wide. *)
Example wide_pinned_size_replaced_run :
  FirstFit.place 2 (λ _, 0) [Some (1, 3)] 2 0 ["a"%string]
    (FirstFit.initial [(1, 1)] [("a"%string, [(1, 1)])])
  = Ok (FirstFit.State [Some [Some 0]] 1 [Item 0 (0, 0) 1 1] [(1, 1)]
          [("a"%string, [(1, 1)])] 2).
Proof. reflexivity. Qed.

(** * Lines that do not cross *)

Lemma no_crossing (cols : nat) (g : grid)
    (vs : list FirstFit.vseg) (hs : list FirstFit.hseg) :
  FirstFit.verticalLines cols g = Ok vs →
  FirstFit.horizontalLines cols g = Ok hs →
  ∀ v h, v ∈ vs → h ∈ hs → ¬ crosses v h.
Proof.
  intros Hvs%verticalLines_Ok Hhs%horizontalLines_Ok.
  rewrite Forall_forall in Hvs. rewrite Forall_forall in Hhs.
  intros v h Hv Hh [[Hr1 Hr2] [Hc1 Hc2]].
  destruct (Hhs h Hh) as [(_ & _ & Hin & _) _].
  apply (Hin (FirstFit.v_col v)); [lia|]. split; apply (Hvs v Hv); lia.
Qed.

(** The lines of a call are those of its final grid. *)
Lemma run_lines (cols : nat) (rnd : nat → nat)
    (startsWith : list (option (nat * nat))) (sizes : list (nat * nat))
    (classSizes : list (string * list (nat * nat)))
    (elements : list (list string)) (out : FirstFit.output) (st : FirstFit.state) :
  FirstFit.run cols rnd startsWith sizes classSizes elements = Ok (out, st) →
  elements ≠ [] →
  FirstFit.verticalLines cols (FirstFit.occupancy out)
  = Ok (FirstFit.verticalSegments out) ∧
  FirstFit.horizontalLines cols (FirstFit.occupancy out)
  = Ok (FirstFit.horizontalSegments out).
Proof.
  destruct elements as [|cl elements]; [done|]. rewrite run_cons. intros H _.
  apply rbind_Ok in H as (st1 & _ & H). apply rbind_Ok in H as (st2 & _ & H).
  apply rbind_Ok in H as (vs & Hvs & H). apply rbind_Ok in H as (hs & Hhs & H).
  injection H as <- <-. done.
Qed.

(** Claim C5.  On every grid whose rows exist the two passes return their
    lines, and on every grid, whenever they return, no vertical line crosses
    a horizontal one: a vertical line never passes through the row boundary
    of a horizontal line between two columns that the horizontal line
    covers.  A horizontal line covers top frontiers only and holds no column
    boundary at which both its row and the next row have a right frontier;
    where the frontier continues beyond one of its ends, the line was split
    there, at such a boundary.  In particular the lines of every call that
    returns do not cross. *)
Theorem lines_do_not_cross (cols : nat) :
  (∀ g, rowsDefined g →
        ∃ vs hs, FirstFit.verticalLines cols g = Ok vs ∧
                 FirstFit.horizontalLines cols g = Ok hs) ∧
  (∀ g vs hs,
     FirstFit.verticalLines cols g = Ok vs →
     FirstFit.horizontalLines cols g = Ok hs →
     (∀ v h, v ∈ vs → h ∈ hs → ¬ crosses v h) ∧
     (∀ h, h ∈ hs →
        FirstFit.h_start h ≤ FirstFit.h_end h ∧
        (∀ c, FirstFit.h_start h ≤ c ≤ FirstFit.h_end h →
              FirstFit.isTopFrontier g (FirstFit.h_row h) c = Ok true) ∧
        (∀ c, FirstFit.h_start h ≤ c < FirstFit.h_end h →
              ¬ splitAt g (FirstFit.h_row h) c) ∧
        (FirstFit.isTopFrontier g (FirstFit.h_row h) (FirstFit.h_end h + 1) = Ok true →
         splitAt g (FirstFit.h_row h) (FirstFit.h_end h)) ∧
        (0 < FirstFit.h_start h →
         FirstFit.isTopFrontier g (FirstFit.h_row h) (FirstFit.h_start h - 1) = Ok true →
         splitAt g (FirstFit.h_row h) (FirstFit.h_start h - 1)))) ∧
  (∀ rnd startsWith sizes classSizes elements out st,
     FirstFit.run cols rnd startsWith sizes classSizes elements = Ok (out, st) →
     ∀ v h, v ∈ FirstFit.verticalSegments out →
            h ∈ FirstFit.horizontalSegments out → ¬ crosses v h).
Proof.
  split; [apply lines_total|]. split.
  - intros g vs hs Hvs Hhs. split; [by eapply no_crossing|].
    apply horizontalLines_Ok in Hhs. rewrite Forall_forall in Hhs.
    intros h Hh. destruct (Hhs h Hh) as [(? & ? & ? & ?) ?]. done.
  - intros rnd startsWith sizes classSizes elements out st Hrun.
    destruct elements as [|cl elements].
    + injection Hrun as <- <-. simpl. intros v h Hv. by apply elem_of_nil in Hv.
    + apply run_lines in Hrun as [Hvs Hhs]; [|done]. by eapply no_crossing.
Qed.

Lemma lines_do_not_cross_witness :
  FirstFit.verticalLines 2 [Some [Some 0; Some 1]; Some [Some 2; Some 3]]
  = Ok [FirstFit.VSeg 0 0 1] ∧
  FirstFit.horizontalLines 2 [Some [Some 0; Some 1]; Some [Some 2; Some 3]]
  = Ok [FirstFit.HSeg 0 0 0; FirstFit.HSeg 0 1 1] ∧
  (∀ v h, v ∈ [FirstFit.VSeg 0 0 1] →
          h ∈ [FirstFit.HSeg 0 0 0; FirstFit.HSeg 0 1 1] → ¬ crosses v h).
Proof.
  split; [reflexivity|]. split; [reflexivity|].
  apply (proj1 (proj1 (proj2 (lines_do_not_cross 2))
                  [Some [Some 0; Some 1]; Some [Some 2; Some 3]]
                  [FirstFit.VSeg 0 0 1] [FirstFit.HSeg 0 0 0; FirstFit.HSeg 0 1 1]
                  eq_refl eq_refl)).
Defined.

(** * Worked runs *)

(** One column, three elements: three stacked rows, no vertical line, a
    horizontal line under rows 0 and 1. *)
Example single_column_run :
  ∃ st,
    FirstFit.run 1 (λ _, 0) [] [(1, 1)] [] [[]; []; []]
    = Ok (FirstFit.Output
            [Item 0 (0, 0) 1 1; Item 1 (1, 0) 1 1; Item 2 (2, 0) 1 1]
            [Some [Some 0]; Some [Some 1]; Some [Some 2]]
            []
            [FirstFit.HSeg 0 0 0; FirstFit.HSeg 1 0 0]
            3, st).
Proof. eexists. vm_compute. reflexivity. Qed.

(** A single element with [[2, 2]] pinned: [startsWith] is applied after
    the last element was forced to [[1, 1]], and the pinned size stays. *)
Example single_pinned_run :
  ∃ st,
    FirstFit.run 2 (λ _, 0) [Some (2, 2)] [(1, 1)] [] [[]]
    = Ok (FirstFit.Output
            [Item 0 (0, 0) 2 2]
            [Some [Some 0; Some 0]; Some [Some 0; Some 0]]
            [] [] 2, st).
Proof. eexists. vm_compute. reflexivity. Qed.

(** The first pass at work: element 0, three rows high on the left, is
    shrunk to end with the last element, and the third row is dropped. *)
Example shrink_left_run :
  ∃ st,
    FirstFit.run 2 (λ _, 0) [Some (3, 1); Some (1, 1)] [(1, 1)] [] [[]; []; []]
    = Ok (FirstFit.Output
            [Item 0 (0, 0) 2 1; Item 1 (0, 1) 1 1; Item 2 (1, 1) 1 1]
            [Some [Some 0; Some 1]; Some [Some 0; Some 2]]
            [FirstFit.VSeg 0 0 1]
            [FirstFit.HSeg 0 1 1]
            2, st).
Proof. eexists. vm_compute. reflexivity. Qed.

(** The second and third pass at work: element 1 reaches into the row of
    the last element, which is not full; it is shrunk and the last element
    is stretched over the row. *)
Example shrink_right_run :
  ∃ st,
    FirstFit.run 3 (λ _, 0) [Some (1, 1); Some (2, 1); Some (1, 1)] [(1, 1)] []
      [[]; []; []; []]
    = Ok (FirstFit.Output
            [Item 0 (0, 0) 1 1; Item 1 (0, 1) 1 1; Item 2 (0, 2) 1 1; Item 3 (1, 0) 1 3]
            [Some [Some 0; Some 1; Some 2]; Some [Some 3; Some 3; Some 3]]
            [FirstFit.VSeg 0 0 0; FirstFit.VSeg 1 0 0]
            [FirstFit.HSeg 0 0 2]
            2, st).
Proof. eexists. vm_compute. reflexivity. Qed.

(** Drawn sizes: five elements on three columns with the pool
    [[[1,1],[2,1],[1,2]]] and the draws 0, 1, 2, ... *)
Example drawn_sizes_run :
  ∃ st,
    FirstFit.run 3 (λ k, k) [] [(1, 1); (2, 1); (1, 2)] [] [[]; []; []; []; []]
    = Ok (FirstFit.Output
            [Item 0 (0, 0) 1 2; Item 1 (0, 2) 2 1; Item 2 (1, 0) 1 2;
             Item 3 (2, 0) 1 1; Item 4 (2, 1) 1 2]
            [Some [Some 0; Some 0; Some 1]; Some [Some 2; Some 2; Some 1];
             Some [Some 3; Some 4; Some 4]]
            [FirstFit.VSeg 0 2 2; FirstFit.VSeg 1 0 1]
            [FirstFit.HSeg 0 0 1; FirstFit.HSeg 1 0 2]
            3, st).
Proof. eexists. vm_compute. reflexivity. Qed.

(** * Further properties of the current plugin *)

(** Property X1.  [isAllocable] holds exactly when the element fits the
    width of the grid from [pos] on and no cell of its rectangle has an
    occupant; rows that do not exist yet count as empty. *)
Theorem isAllocable_iff (cols : nat) (g : grid) (sz p : nat * nat) :
  FirstFit.isAllocable cols g sz p = true ↔
  p.2 + sz.2 ≤ cols ∧
  ∀ i j, p.1 ≤ i < p.1 + sz.1 → p.2 ≤ j < p.2 + sz.2 → cell g i j = None.
Proof.
  unfold FirstFit.isAllocable. split.
  - case_decide; [done|]. intros Hall. split; [lia|].
    intros i j Hi Hj. rewrite forallb_forall in Hall.
    specialize (Hall i). rewrite forallb_forall in Hall.
    apply taken_cell, negb_true_iff. apply Hall; apply in_seq; lia.
  - intros [Hw Hfree]. rewrite decide_False by lia.
    apply forallb_forall. intros i Hi%in_seq.
    apply forallb_forall. intros j Hj%in_seq.
    apply negb_true_iff, taken_cell, Hfree; lia.
Qed.

(** Property X2.  The marking loop throws on no grid.  It writes the id into every cell
    of the rectangle, whatever the cell held, and into no other cell; it
    creates the rows of the rectangle that did not exist, and the grid grows
    to the bottom of the rectangle when that lies below its last row. *)
Theorem mark_writes_rectangle (g : grid) (p : nat * nat) (rows cols id : nat) :
  ∃ g', mark g p rows cols id = Ok g' ∧
        (∀ i j, cell g' i j
                = if decide (in_rect (Item id p rows cols) i j) then Some id
                  else cell g i j) ∧
        (∀ i, is_Some (aget g' i) ↔
              is_Some (aget g i) ∨ p.1 ≤ i < p.1 + rows) ∧
        length g' = (if decide (rows = 0) then length g
                     else Nat.max (length g) (p.1 + rows)).
Proof.
  destruct (mark_spec g p rows cols id) as (g' & Hg' & Hrows & Hcell).
  exists g'. split; [done|]. split; [done|]. split.
  - intros i. rewrite <- !not_eq_None_Some, Hrows.
    destruct (decide (p.1 ≤ i < p.1 + rows)); [tauto|].
    destruct (decide (aget g i = None)); tauto.
  - clear Hrows Hcell. revert Hg'. unfold mark. generalize (p.1) as r. intros r.
    revert r g. induction rows as [|n IH]; intros r g; cbn [seq forM].
    + intros [= <-]. done.
    + unfold markRow at 1.
      destruct (materialize_spec g r) as (Hs & Hl & _ & _).
      destruct (writeRow_spec _ r p.2 cols (Some id) Hs) as (g1 & -> & Hl1 & _ & _).
      cbn [rbind]. intros H. apply IH in H. rewrite H, Hl1, Hl.
      rewrite (decide_False (P := S n = 0)) by done.
      repeat case_decide; try lia.
      match goal with E : is_Some _ |- _ => apply aget_is_Some_lt in E end. lia.
Qed.

(** Property X3.  Shrinking an element a second time to the same row changes
    nothing. *)
Theorem shrinkRows_idempotent (e : nat) (shrinkTo : Z) (st st' : FirstFit.state) :
  FirstFit.shrinkRows e shrinkTo st = Ok st' →
  FirstFit.shrinkRows e shrinkTo st' = Ok st'.
Proof.
  unfold FirstFit.shrinkRows.
  destruct (FirstFit.st_data st !! e) as [it|] eqn:Hit; [|done].
  case_decide as Hpos; [|done]. intros H.
  apply rbind_Ok in H as (g' & Hg' & H). injection H as <-. simpl.
  rewrite list_lookup_insert_eq by (by eapply lookup_lt_Some). simpl.
  rewrite decide_True by done.
  replace ((item_pos it).1 + Z.to_nat (shrinkTo - Z.of_nat (item_pos it).1 + 1)
           - Z.to_nat (shrinkTo + 1)) with 0 by lia.
  cbn [seq forM rbind]. unfold FirstFit.withData, FirstFit.withGrid. simpl.
  by rewrite list_insert_insert_eq.
Qed.

Lemma shrinkRows_idempotent_witness :
  FirstFit.shrinkRows 0 0
    (FirstFit.State [Some [Some 0]; Some [Some 0]; Some [Some 0]] 1
       [Item 0 (0, 0) 3 1] [(1, 1)] [] 0)
  = Ok (FirstFit.State [Some [Some 0]; Some [None]; Some [None]] 1
          [Item 0 (0, 0) 1 1] [(1, 1)] [] 0) ∧
  FirstFit.shrinkRows 0 0
    (FirstFit.State [Some [Some 0]; Some [None]; Some [None]] 1
       [Item 0 (0, 0) 1 1] [(1, 1)] [] 0)
  = Ok (FirstFit.State [Some [Some 0]; Some [None]; Some [None]] 1
          [Item 0 (0, 0) 1 1] [(1, 1)] [] 0).
Proof.
  split; [reflexivity|].
  apply (shrinkRows_idempotent 0 0
           (FirstFit.State [Some [Some 0]; Some [Some 0]; Some [Some 0]] 1
              [Item 0 (0, 0) 3 1] [(1, 1)] [] 0)).
  reflexivity.
Defined.

(** ** What normalisation does to the element data *)

Lemma shrunk_refl (d : list item) : shrunk d d.
Proof. split; [done|]. intros k it Hk. exists it. done. Qed.

Lemma shrunk_trans (d1 d2 d3 : list item) :
  shrunk d1 d2 → shrunk d2 d3 → shrunk d1 d3.
Proof.
  intros [Hl1 H1] [Hl2 H2]. split; [congruence|].
  intros k it3 Hk. destruct (H2 k it3 Hk) as (it2 & Hk2 & ? & ? & ? & ?).
  destruct (H1 k it2 Hk2) as (it1 & Hk1 & ? & ? & ? & ?).
  exists it1. split; [done|]. repeat split; try congruence. lia.
Qed.

Lemma shrinkRows_data (e r j : nat) (st st' : FirstFit.state) :
  sound (FirstFit.st_grid st) (FirstFit.st_data st) →
  cell (FirstFit.st_grid st) r j = Some e →
  FirstFit.shrinkRows e (Z.of_nat r - 1) st = Ok st' →
  sound (FirstFit.st_grid st') (FirstFit.st_data st') ∧
  length (FirstFit.st_grid st') = length (FirstFit.st_grid st) ∧
  shrunk (FirstFit.st_data st) (FirstFit.st_data st') ∧
  ∃ it, FirstFit.st_data st !! e = Some it ∧ in_rect it r j ∧
        ∀ k, k ≠ e → FirstFit.st_data st' !! k = FirstFit.st_data st !! k.
Proof.
  intros Hs Hcell Hrun.
  destruct (shrinkRows_sound e r j st Hs Hcell) as (st'' & Hrun' & Hs' & Hlg & Hld).
  rewrite Hrun in Hrun'. injection Hrun' as <-.
  split; [done|]. split; [done|].
  destruct (proj1 (proj2 Hs) r j e Hcell) as (it & Hit & Hrect).
  unfold FirstFit.shrinkRows in Hrun. rewrite Hit in Hrun.
  rewrite decide_True in Hrun by (destruct Hrect as [? _]; lia).
  apply rbind_Ok in Hrun as (g' & _ & Hrun). injection Hrun as <-. simpl.
  assert (e < length (FirstFit.st_data st)) as Hlt by (by eapply lookup_lt_Some).
  split; [|exists it; split; [done|]; split; [done|];
           intros k Hk; by rewrite list_lookup_insert_ne].
  split; [by rewrite length_insert|].
  intros k it' Hk. destruct (decide (k = e)) as [->|Hne].
  - rewrite list_lookup_insert_eq in Hk by done. injection Hk as <-.
    exists it. split; [done|]. simpl. repeat split; try done.
    destruct Hrect as [? _]. lia.
  - rewrite list_lookup_insert_ne in Hk by done. exists it'. by repeat split.
Qed.

Lemma shrinkOccupants_data (r from to : nat) (st st' : FirstFit.state) :
  sound (FirstFit.st_grid st) (FirstFit.st_data st) →
  r < length (FirstFit.st_grid st) →
  FirstFit.shrinkOccupants r from to (Z.of_nat r - 1) st = Ok st' →
  sound (FirstFit.st_grid st') (FirstFit.st_data st') ∧
  length (FirstFit.st_grid st') = length (FirstFit.st_grid st) ∧
  shrunk (FirstFit.st_data st) (FirstFit.st_data st') ∧
  ∀ k it, FirstFit.st_data st !! k = Some it →
          (∀ i, from ≤ i < to → ¬ in_rect it r i) →
          FirstFit.st_data st' !! k = Some it.
Proof.
  unfold FirstFit.shrinkOccupants.
  assert (∀ n from st,
            sound (FirstFit.st_grid st) (FirstFit.st_data st) →
            r < length (FirstFit.st_grid st) →
            forM (seq from n)
              (λ i st, let* c := cellRead (FirstFit.st_grid st) r i in
                       match c with
                       | Some e => FirstFit.shrinkRows e (Z.of_nat r - 1) st
                       | None => Ok st
                       end) st = Ok st' →
            sound (FirstFit.st_grid st') (FirstFit.st_data st') ∧
            length (FirstFit.st_grid st') = length (FirstFit.st_grid st) ∧
            shrunk (FirstFit.st_data st) (FirstFit.st_data st') ∧
            ∀ k it, FirstFit.st_data st !! k = Some it →
                    (∀ i, from ≤ i < from + n → ¬ in_rect it r i) →
                    FirstFit.st_data st' !! k = Some it) as Hloop.
  { clear from to st. intros n. induction n as [|n IH]; intros from st Hs Hr; cbn [seq forM].
    - intros [= <-]. split; [done|]. split; [done|]. split; [apply shrunk_refl|].
      by intros k it Hk _.
    - rewrite cellRead_cell by (apply Hs; lia). cbn [rbind].
      destruct (cell (FirstFit.st_grid st) r from) as [e|] eqn:Ecell.
      + intros H. apply rbind_Ok in H as (st1 & H1 & H).
        destruct (shrinkRows_data e r from st st1 Hs Ecell H1)
          as (Hs1 & Hlg1 & Hsh1 & it & Hit & Hrect & Hother).
        destruct (IH (S from) st1 Hs1) as (Hs' & Hlg' & Hsh' & Hprot'); [lia | done |].
        split; [done|]. split; [congruence|]. split; [by eapply shrunk_trans|].
        intros k itk Hk Hfree. apply Hprot'.
        * rewrite Hother; [done|]. intros ->. rewrite Hit in Hk. injection Hk as <-.
          apply (Hfree from); [lia | done].
        * intros i Hi. apply Hfree. lia.
      + intros H. destruct (IH (S from) st Hs Hr H) as (Hs' & Hlg' & Hsh' & Hprot').
        split; [done|]. split; [done|]. split; [done|].
        intros k itk Hk Hfree. apply Hprot'; [done|]. intros i Hi. apply Hfree. lia. }
  intros Hs Hr H. destruct (Hloop (to - from) from st Hs Hr H) as (? & ? & ? & Hprot).
  split; [done|]. split; [done|]. split; [done|].
  intros k it Hk Hfree. apply Hprot; [done|]. intros i Hi. apply Hfree. lia.
Qed.

Lemma allFilled_false (g : grid) (r from to : nat) :
  FirstFit.allFilled g r from to = Ok false →
  from < to ∧ is_Some (aget g r).
Proof.
  unfold FirstFit.allFilled.
  assert (∀ n a b0,
            forM (seq a n)
              (λ i b, let* c := cellRead g r i in Ok (b && bool_decide (is_Some c))) b0
            = Ok false →
            b0 = false ∨ (0 < n ∧ is_Some (aget g r))) as Hloop.
  { intros n. induction n as [|n IH]; intros a b0; cbn [seq forM].
    - intros [= ->]. by left.
    - intros H. apply rbind_Ok in H as (b1 & H1 & H).
      apply rbind_Ok in H1 as (c & Hc & _). apply cellRead_Ok in Hc as [_ Hrow].
      right. split; [lia | done]. }
  intros H. destruct (Hloop _ _ _ H) as [?|[? ?]]; [done|]. split; [lia | done].
Qed.

(** Normalisation under the invariant of every run: the grid is cut at the
    bottom of the last element; no element moves or changes its id, none
    gains rows, only the last one changes its columns, and it keeps its rows
    and can only become wider, up to the last column. *)
Lemma normalise_data (cols total : nat) (st st' : FirstFit.state) (last : item) :
  sound (FirstFit.st_grid st) (FirstFit.st_data st) →
  FirstFit.st_data st !! (total - 1) = Some last →
  FirstFit.normalise cols total st = Ok st' →
  length (FirstFit.st_grid st') = (item_pos last).1 + item_rows last ∧
  length (FirstFit.st_data st') = length (FirstFit.st_data st) ∧
  (∀ k it', FirstFit.st_data st' !! k = Some it' →
     ∃ it, FirstFit.st_data st !! k = Some it ∧ item_id it' = item_id it ∧
           item_pos it' = item_pos it ∧ item_rows it' ≤ item_rows it ∧
           (k ≠ total - 1 → item_cols it' = item_cols it)) ∧
  ∃ last', FirstFit.st_data st' !! (total - 1) = Some last' ∧
           item_id last' = item_id last ∧ item_pos last' = item_pos last ∧
           item_rows last' = item_rows last ∧
           (item_cols last' = item_cols last ∨
            (item_cols last < item_cols last' ∧
             (item_pos last).2 + item_cols last' = cols)).
Proof.
  intros Hs Hlast Hrun. unfold FirstFit.normalise in Hrun. rewrite Hlast in Hrun.
  pose proof (proj2 (proj2 Hs) _ _ Hlast) as Hend.
  apply rbind_Ok in Hrun as (st1 & H1 & Hrun).
  assert (sound (FirstFit.st_grid st1) (FirstFit.st_data st1) ∧
          length (FirstFit.st_grid st1) = length (FirstFit.st_grid st) ∧
          shrunk (FirstFit.st_data st) (FirstFit.st_data st1) ∧
          FirstFit.st_data st1 !! (total - 1) = Some last) as (Hs1 & Hlg1 & Hsh1 & Hlast1).
  { destruct (aget (FirstFit.st_grid st) ((item_pos last).1 + item_rows last)) eqn:E.
    - apply shrinkOccupants_data in H1 as (? & ? & ? & Hprot); [|done|].
      + split; [done|]. split; [done|]. split; [done|].
        apply Hprot; [done|]. intros i _ [Hrow _]. lia.
      + apply aget_is_Some_lt. rewrite E. eauto.
    - injection H1 as <-. split; [done|]. split; [done|]. split; [apply shrunk_refl | done]. }
  apply rbind_Ok in Hrun as (b & Hb & Hrun).
  apply rbind_Ok in Hrun as (st2 & H2 & Hrun).
  assert (sound (FirstFit.st_grid st2) (FirstFit.st_data st2) ∧
          length (FirstFit.st_grid st2) = length (FirstFit.st_grid st) ∧
          shrunk (FirstFit.st_data st) (FirstFit.st_data st2) ∧
          FirstFit.st_data st2 !! (total - 1) = Some last) as (Hs2 & Hlg2 & Hsh2 & Hlast2).
  { destruct b.
    - injection H2 as <-. done.
    - apply allFilled_false in Hb as [_ Hrow%aget_is_Some_lt].
      apply shrinkOccupants_data in H2 as (? & ? & ? & Hprot); [|done|done].
      split; [done|]. split; [congruence|]. split; [by eapply shrunk_trans|].
      apply Hprot; [done|]. intros i Hi [_ Hcol]. lia. }
  apply rbind_Ok in Hrun as (b' & Hb' & Hrun).
  apply rbind_Ok in Hrun as (st3 & H3 & Hrun). injection Hrun as <-. simpl.
  assert ((item_pos last).1 + item_rows last ≤ length (FirstFit.st_grid st3) ∧
          length (FirstFit.st_data st3) = length (FirstFit.st_data st) ∧
          (∀ k it', FirstFit.st_data st3 !! k = Some it' →
             ∃ it, FirstFit.st_data st !! k = Some it ∧ item_id it' = item_id it ∧
                   item_pos it' = item_pos it ∧ item_rows it' ≤ item_rows it ∧
                   (k ≠ total - 1 → item_cols it' = item_cols it)) ∧
          ∃ last', FirstFit.st_data st3 !! (total - 1) = Some last' ∧
                   item_id last' = item_id last ∧ item_pos last' = item_pos last ∧
                   item_rows last' = item_rows last ∧
                   (item_cols last' = item_cols last ∨
                    (item_cols last < item_cols last' ∧
                     (item_pos last).2 + item_cols last' = cols)))
    as (Hlen3 & Hld3 & Hd3 & Hlast3).
  { destruct Hsh2 as [Hld2 Hd2]. destruct b'.
    - injection H3 as <-. split; [lia|]. split; [done|]. split.
      + intros k it' Hk. destruct (Hd2 k it' Hk) as (it & ? & ? & ? & ? & ?).
        exists it. by repeat split.
      + exists last. split; [done|]. repeat split; try done. by left.
    - apply allFilled_false in Hb' as [Hrange _].
      apply rbind_Ok in H3 as (g3 & Hg3 & H3). injection H3 as <-. simpl.
      destruct (writeRect_spec (FirstFit.st_grid st2) (item_pos last).1 (item_rows last)
                  ((item_pos last).2 + item_cols last)
                  (cols - ((item_pos last).2 + item_cols last))
                  (item_id <$> FirstFit.st_data st2 !! (total - 1)))
        as (g3' & Hg3' & Hlg3 & _ & _).
      { intros i Hi. apply Hs2. lia. }
      rewrite Hg3 in Hg3'. injection Hg3' as <-.
      split; [lia|]. split; [by rewrite length_alter|]. split.
      + intros k it' Hk. destruct (decide (k = total - 1)) as [->|Hne].
        * rewrite list_lookup_alter_eq, Hlast2 in Hk. simpl in Hk. injection Hk as <-.
          exists last. split; [done|]. simpl. repeat split; try done.
        * rewrite list_lookup_alter_ne in Hk by done.
          destruct (Hd2 k it' Hk) as (it & ? & ? & ? & ? & ?).
          exists it. by repeat split.
      + rewrite list_lookup_alter_eq, Hlast2. simpl. eexists. split; [done|]. simpl.
        repeat split; try done. right. lia. }
  split; [rewrite length_take; lia|]. done.
Qed.

(** ** The packing loop, whatever the sizes *)

Lemma each_preserves (cols : nat) (rnd : nat → nat)
    (startsWith : list (option (nat * nat))) (P : nat → FirstFit.state → Prop)
    (total : nat) (elements : list (list string)) :
  (∀ i cl st st', P i st →
     FirstFit.place cols rnd startsWith total i cl st = Ok st' → P (S i) st') →
  ∀ i st st', P i st →
    FirstFit.each cols rnd startsWith total i elements st = Ok st' →
    P (i + length elements) st'.
Proof.
  intros Hstep. induction elements as [|cl elements IH]; intros i st st' HP Hrun.
  - injection Hrun as <-. simpl. by rewrite Nat.add_0_r.
  - cbn [FirstFit.each] in Hrun. apply rbind_Ok in Hrun as (st1 & H1 & Hrun).
    simpl. rewrite <- Nat.add_succ_comm. eapply IH; [|exact Hrun]. eauto.
Qed.

(** After [i] turns the data holds [i] elements, the one at index [k] with
    id [k], and the grid and the data satisfy the invariant of every run. *)
Lemma each_layout (cols : nat) (rnd : nat → nat)
    (startsWith : list (option (nat * nat))) (sizes : list (nat * nat))
    (classSizes : list (string * list (nat * nat))) (total : nat)
    (elements : list (list string)) (st : FirstFit.state) :
  FirstFit.each cols rnd startsWith total 0 elements
    (FirstFit.initial sizes classSizes) = Ok st →
  sound (FirstFit.st_grid st) (FirstFit.st_data st) ∧
  idsOk (FirstFit.st_data st) ∧
  length (FirstFit.st_data st) = length elements.
Proof.
  intros Hrun.
  pose (P := λ (i : nat) (st : FirstFit.state),
          sound (FirstFit.st_grid st) (FirstFit.st_data st) ∧
          FirstFit.st_id st = length (FirstFit.st_data st) ∧
          idsOk (FirstFit.st_data st) ∧
          length (FirstFit.st_data st) = i).
  assert (P (0 + length elements) st) as (? & _ & ? & ?); [|done].
  apply (each_preserves cols rnd startsWith P total elements) with (3 := Hrun).
  - intros i cl st0 st1 (Hs & Hid & Hids & Hlen) Hplace.
    destruct (place_sound cols rnd startsWith total i cl st0 st1 Hs Hid Hplace)
      as (Hs1 & Hid1 & p & Hd1).
    split; [done|]. split; [done|]. split.
    + intros e it. rewrite Hd1. intros Hit.
      destruct (decide (e < length (FirstFit.st_data st0))) as [Hlt|Hge].
      * rewrite lookup_app_l in Hit by done. by apply Hids.
      * rewrite lookup_app_r in Hit by lia.
        destruct (e - length (FirstFit.st_data st0)) as [|k] eqn:E; [|done].
        injection Hit as <-. simpl. lia.
    + rewrite Hd1, length_app. simpl. lia.
  - split; [|done]. split; [|split]; simpl.
    + intros i Hi. simpl in Hi. lia.
    + by intros i j e.
    + by intros e it.
Qed.

(** Property X4.  Normalisation of the last rows, applied to whatever the packing
    loop produced: the grid is cut right below the last element; every
    element keeps its id and its position and gains no row; every element but
    the last keeps its columns; the last element keeps its rows, and either
    keeps its columns or is widened so that it ends at the last column. *)
Theorem normalisation_keeps_layout (cols : nat) (rnd : nat → nat)
    (startsWith : list (option (nat * nat))) (sizes : list (nat * nat))
    (classSizes : list (string * list (nat * nat)))
    (elements : list (list string)) (st1 st2 : FirstFit.state) :
  elements ≠ [] →
  FirstFit.each cols rnd startsWith (length elements) 0 elements
    (FirstFit.initial sizes classSizes) = Ok st1 →
  FirstFit.normalise cols (length elements) st1 = Ok st2 →
  length (FirstFit.st_data st2) = length elements ∧
  (∀ k it', FirstFit.st_data st2 !! k = Some it' →
     ∃ it, FirstFit.st_data st1 !! k = Some it ∧ item_id it' = k ∧
           item_id it' = item_id it ∧ item_pos it' = item_pos it ∧
           item_rows it' ≤ item_rows it ∧
           (k ≠ length elements - 1 → item_cols it' = item_cols it) ∧
           (k = length elements - 1 →
            item_rows it' = item_rows it ∧
            length (FirstFit.st_grid st2) = (item_pos it).1 + item_rows it ∧
            (item_cols it' = item_cols it ∨
             (item_cols it < item_cols it' ∧ (item_pos it).2 + item_cols it' = cols)))).
Proof.
  intros Hne Hpack Hnorm.
  destruct (each_layout _ _ _ _ _ _ _ _ Hpack) as (Hs & Hids & Hlen).
  assert (is_Some (FirstFit.st_data st1 !! (length elements - 1))) as [last Hlast].
  { apply lookup_lt_is_Some. destruct elements; [done|]. simpl in *. lia. }
  destruct (normalise_data cols (length elements) st1 st2 last Hs Hlast Hnorm)
    as (Hg & Hld & Hd & last' & Hlast' & Hi' & Hp' & Hr' & Hc').
  split; [congruence|]. intros k it' Hk.
  destruct (Hd k it' Hk) as (it & Hit & Hi & Hp & Hr & Hc).
  exists it. split; [done|]. split; [rewrite Hi; by apply Hids|].
  split; [done|]. split; [done|]. split; [done|]. split; [done|].
  intros ->. rewrite Hlast in Hit. injection Hit as <-.
  rewrite Hlast' in Hk. injection Hk as <-. done.
Qed.

Lemma normalisation_keeps_layout_witness :
  ∃ st1 st2,
    FirstFit.each 2 (λ _, 0) [Some (1, 1); Some (2, 1); Some (1, 1)] 3 0 [[]; []; []]
      (FirstFit.initial [(1, 1)] []) = Ok st1 ∧
    FirstFit.normalise 2 3 st1 = Ok st2 ∧
    FirstFit.st_data st1 = [Item 0 (0, 0) 1 1; Item 1 (0, 1) 2 1; Item 2 (1, 0) 1 1] ∧
    length (FirstFit.st_data st2) = 3 ∧
    (∀ k it', FirstFit.st_data st2 !! k = Some it' →
       ∃ it, FirstFit.st_data st1 !! k = Some it ∧ item_id it' = k ∧
             item_id it' = item_id it ∧ item_pos it' = item_pos it ∧
             item_rows it' ≤ item_rows it ∧
             (k ≠ 3 - 1 → item_cols it' = item_cols it) ∧
             (k = 3 - 1 →
              item_rows it' = item_rows it ∧
              length (FirstFit.st_grid st2) = (item_pos it).1 + item_rows it ∧
              (item_cols it' = item_cols it ∨
               (item_cols it < item_cols it' ∧ (item_pos it).2 + item_cols it' = 2)))).
Proof.
  eexists _, _.
  split; [vm_compute; reflexivity|]. split; [vm_compute; reflexivity|].
  split; [reflexivity|].
  apply (normalisation_keeps_layout 2 (λ _, 0) [Some (1, 1); Some (2, 1); Some (1, 1)]
           [(1, 1)] [] [[]; []; []]).
  - discriminate.
  - vm_compute; reflexivity.
  - vm_compute; reflexivity.
Defined.

(** What a returning call went through. *)
Lemma run_Ok (cols : nat) (rnd : nat → nat) (startsWith : list (option (nat * nat)))
    (sizes : list (nat * nat)) (classSizes : list (string * list (nat * nat)))
    (elements : list (list string)) (out : FirstFit.output) (st : FirstFit.state) :
  elements ≠ [] →
  FirstFit.run cols rnd startsWith sizes classSizes elements = Ok (out, st) →
  ∃ st1 v h,
    FirstFit.each cols rnd startsWith (length elements) 0 elements
      (FirstFit.initial sizes classSizes) = Ok st1 ∧
    FirstFit.normalise cols (length elements) st1 = Ok st ∧
    FirstFit.verticalLines cols (FirstFit.st_grid st) = Ok v ∧
    FirstFit.horizontalLines cols (FirstFit.st_grid st) = Ok h ∧
    out = FirstFit.Output (FirstFit.st_data st) (FirstFit.st_grid st) v h
            (length (FirstFit.st_grid st)).
Proof.
  intros Hne Hrun. destruct elements as [|cl elements]; [done|].
  rewrite run_cons in Hrun.
  apply rbind_Ok in Hrun as (st1 & H1 & Hrun).
  apply rbind_Ok in Hrun as (st2 & H2 & Hrun).
  apply rbind_Ok in Hrun as (v & Hv & Hrun).
  apply rbind_Ok in Hrun as (h & Hh & Hrun).
  injection Hrun as <- <-. by exists st1, v, h.
Qed.

(** Property X5.  With at least one row in every pinned size and at least one
    element, the call returns one placement per element, in the order of the
    elements, the one at index [k] with id [k]; the number of rows it reports
    is the length of the grid and the row right below the last element. *)
Theorem run_placements (cols : nat) (rnd : nat → nat)
    (startsWith : list (option (nat * nat))) (sizes : list (nat * nat))
    (classSizes : list (string * list (nat * nat)))
    (elements : list (list string)) :
  (∀ i sz, aget startsWith i = Some sz → 1 ≤ sz.1) → elements ≠ [] →
  ∃ out st last,
    FirstFit.run cols rnd startsWith sizes classSizes elements = Ok (out, st) ∧
    length (FirstFit.placements out) = length elements ∧
    (∀ k it, FirstFit.placements out !! k = Some it → item_id it = k) ∧
    FirstFit.placements out !! (length elements - 1) = Some last ∧
    FirstFit.totalRows out = (item_pos last).1 + item_rows last ∧
    length (FirstFit.occupancy out) = FirstFit.totalRows out.
Proof.
  intros Hpin Hne.
  destruct (run_returns cols rnd startsWith sizes classSizes elements Hpin)
    as (out & st & Hrun).
  destruct (run_Ok _ _ _ _ _ _ _ _ Hne Hrun) as (st1 & v & h & Hpack & Hnorm & _ & _ & ->).
  destruct (each_layout _ _ _ _ _ _ _ _ Hpack) as (Hs & Hids & Hlen).
  assert (is_Some (FirstFit.st_data st1 !! (length elements - 1))) as [last Hlast].
  { apply lookup_lt_is_Some. destruct elements; [done|]. simpl in *. lia. }
  destruct (normalise_data cols (length elements) st1 st last Hs Hlast Hnorm)
    as (Hg & Hld & Hd & last' & Hlast' & Hi' & Hp' & Hr' & Hc').
  exists (FirstFit.Output (FirstFit.st_data st) (FirstFit.st_grid st) v h
            (length (FirstFit.st_grid st))), st, last'.
  split; [done|]. simpl. split; [congruence|]. split.
  - intros k it' Hk. destruct (Hd k it' Hk) as (it & Hit & Hi & _).
    rewrite Hi. by apply Hids.
  - split; [done|]. split; [congruence | done].
Qed.

Lemma run_placements_witness :
  (∀ i sz, aget [Some (1, 1); Some (2, 1); Some (2, 1)] i = Some sz → 1 ≤ sz.1) ∧
  ∃ out st last,
    FirstFit.run 2 (λ _, 0) [Some (1, 1); Some (2, 1); Some (2, 1)] [(1, 1)] []
      [[]; []; []] = Ok (out, st) ∧
    length (FirstFit.placements out) = 3 ∧
    (∀ k it, FirstFit.placements out !! k = Some it → item_id it = k) ∧
    FirstFit.placements out !! (3 - 1) = Some last ∧
    FirstFit.totalRows out = (item_pos last).1 + item_rows last ∧
    length (FirstFit.occupancy out) = FirstFit.totalRows out.
Proof.
  assert (∀ i sz, aget [Some (1, 1); Some (2, 1); Some (2, 1)] i = Some sz → 1 ≤ sz.1)
    as Hpin.
  { intros [|[|[|i]]] sz; simpl; intros [= <-]; simpl; lia. }
  split; [exact Hpin|].
  apply (run_placements 2 (λ _, 0) [Some (1, 1); Some (2, 1); Some (2, 1)] [(1, 1)] []
           [[]; []; []] Hpin).
  discriminate.
Defined.

(** ** Sizes of at least one cell *)

Section ValidSizes.

Variable cols : nat.
Variable rnd : nat → nat.
Variable startsWith : list (option (nat * nat)).
Implicit Types (g : grid) (p : pos) (st : FirstFit.state).

Lemma firstAllocable_valid g p (l : list (nat * nat)) :
  Forall validSize l → validSize (FirstFit.firstAllocable cols g p l).
Proof.
  intros Hl. destruct (firstAllocable_spec cols g p l) as [(n & Hn & _)|[-> _]].
  - eapply Forall_lookup_1; [exact Hl | exact Hn].
  - split; simpl; lia.
Qed.

Lemma readPool_valid st ref : validPools st → Forall validSize (FirstFit.readPool st ref).
Proof.
  intros [Hs Hc]. destruct ref as [|n]; simpl; [done|].
  destruct (FirstFit.st_classSizes st !! n) as [[key l]|] eqn:E; [|done].
  apply (Forall_lookup_1 _ _ _ _ Hc E).
Qed.

Lemma writePool_valid st ref (l : list (nat * nat)) k :
  validPools st → Forall validSize l → validPools (FirstFit.writePool st ref l k).
Proof.
  intros [Hs Hc] Hl. destruct ref as [|n]; split; simpl; try done.
  apply Forall_alter; [done|]. intros kv _ _. done.
Qed.

Lemma getRandomSize_valid p rem ref st :
  validPools st →
  validSize (FirstFit.getRandomSize cols rnd p rem ref st).1 ∧
  validPools (FirstFit.getRandomSize cols rnd p rem ref st).2.
Proof.
  intros Hv. rewrite getRandomSize_unfold. simpl.
  assert (Forall validSize
            (FirstFit.shuffle rnd (FirstFit.readPool st ref) (FirstFit.st_draws st)).1)
    as Hsh.
  { rewrite shuffle_Permutation. by apply readPool_valid. }
  split; [|by apply writePool_valid].
  case_decide; [split; simpl; lia|]. by apply firstAllocable_valid.
Qed.

Lemma resolveSize_valid p rem i cl st :
  validPools st →
  (∀ sz, aget startsWith i = Some sz → validSize sz) →
  validSize (FirstFit.resolveSize cols rnd startsWith p rem i cl st).1 ∧
  validPools (FirstFit.resolveSize cols rnd startsWith p rem i cl st).2.
Proof.
  intros Hv Hpin. unfold FirstFit.resolveSize.
  apply (foldl_preserves _ (λ acc : nat * nat * FirstFit.state,
                              validSize acc.1 ∧ validPools acc.2)).
  - destruct (getRandomSize_valid p rem FirstFit.Sizes st Hv) as [H1 H2].
    split; [|done]. destruct (aget startsWith i) as [pinned|]; [by apply Hpin | done].
  - intros acc n [H1 H2].
    destruct (classOverride_cases cols rnd p rem cl n acc) as [->| ->]; [done|].
    by apply getRandomSize_valid.
Qed.

End ValidSizes.

(** ** Reading order *)

(** One turn keeps every placed element anchored: its position lies within
    the columns, its own cell is marked, and so is every cell of the columns
    before it; the element it adds starts after all of them. *)
Lemma place_anchored (cols : nat) (rnd : nat → nat)
    (startsWith : list (option (nat * nat))) (total i : nat) (cl : list string)
    (st st' : FirstFit.state) :
  1 ≤ cols →
  (∀ i sz, aget startsWith i = Some sz → validSize sz) →
  validPools st →
  rowsDefined (FirstFit.st_grid st) →
  (∀ k it, FirstFit.st_data st !! k = Some it →
     cell (FirstFit.st_grid st) (item_pos it).1 (item_pos it).2 ≠ None ∧
     ∀ q, before q (item_pos it) → q.2 < cols →
          cell (FirstFit.st_grid st) q.1 q.2 ≠ None) →
  readingOrder (FirstFit.st_data st) →
  FirstFit.place cols rnd startsWith total i cl st = Ok st' →
  validPools st' ∧
  rowsDefined (FirstFit.st_grid st') ∧
  (∀ k it, FirstFit.st_data st' !! k = Some it →
     cell (FirstFit.st_grid st') (item_pos it).1 (item_pos it).2 ≠ None ∧
     ∀ q, before q (item_pos it) → q.2 < cols →
          cell (FirstFit.st_grid st') q.1 q.2 ≠ None) ∧
  readingOrder (FirstFit.st_data st').
Proof.
  intros Hcols Hpin Hv Hdef Hanch Hord H.
  apply place_Ok in H as (p & g' & Hp & Hmark & ->).
  destruct (resolveSize_valid cols rnd startsWith p (total - i) i cl st Hv (Hpin i))
    as [[Hr Hc] Hv'].
  set (sz := (FirstFit.resolveSize cols rnd startsWith p (total - i) i cl st).1) in *.
  apply firstEmptySpace_first in Hp as (Hp1 & _ & Hp2 & Hnone & Hfull).
  specialize (Hp2 ltac:(lia)).
  destruct (mark_length _ _ _ _ _ _ Hdef Hp1 Hmark) as [Hdef' _].
  destruct (mark_spec (FirstFit.st_grid st) p sz.1 sz.2 (FirstFit.st_id st))
    as (g'' & Hg'' & _ & Hcell).
  rewrite Hmark in Hg''. injection Hg'' as <-. simpl.
  assert (∀ x y, cell (FirstFit.st_grid st) x y ≠ None → cell g' x y ≠ None) as Hkeep.
  { intros x y Hxy. rewrite Hcell. by case_decide. }
  split; [done|]. split; [done|]. split.
  - intros k it Hit.
    destruct (decide (k < length (FirstFit.st_data st))) as [Hlt|Hge].
    + rewrite lookup_app_l in Hit by done. destruct (Hanch k it Hit) as [H1 H2].
      split; [by apply Hkeep|]. intros q Hq Hq2. by apply Hkeep, H2.
    + rewrite lookup_app_r in Hit by lia.
      destruct (k - length (FirstFit.st_data st)) as [|k'] eqn:E; [|done].
      injection Hit as <-. simpl. split.
      * rewrite Hcell, decide_True; [done|]. unfold in_rect. simpl. lia.
      * intros q Hq Hq2. by apply Hkeep, Hfull.
  - intros k k' a b Hlt Ha Hb.
    destruct (decide (k' < length (FirstFit.st_data st))) as [Hk'|Hk'].
    + rewrite lookup_app_l in Ha, Hb by lia. exact (Hord k k' a b Hlt Ha Hb).
    + rewrite lookup_app_r in Hb by lia.
      destruct (k' - length (FirstFit.st_data st)) as [|k''] eqn:E; [|done].
      injection Hb as <-. simpl.
      rewrite lookup_app_l in Ha by lia.
      destruct (Hanch k a Ha) as [Hown Hbefore].
      destruct (item_pos a) as [a1 a2] eqn:Epos. destruct p as [p1 p2].
      unfold before in *. simpl in *.
      destruct (decide (a1 < p1 ∨ a1 = p1 ∧ a2 < p2)) as [|Hnot]; [done|].
      exfalso. destruct (decide (a1 = p1 ∧ a2 = p2)) as [[-> ->]|Hne]; [by apply Hown|].
      apply (Hbefore (p1, p2)); simpl; [lia | done | done].
Qed.

(** Property X6.  With at least one column, and at least one row and one column in
    every size of [s.sizes], of the [s.classSizes] pools and of
    [s.startsWith], the call returns the elements in reading order: each
    element starts at a cell that comes after the start of every earlier
    element, row by row and left to right.  No two elements start at the same
    cell. *)
Theorem placements_in_reading_order (cols : nat) (rnd : nat → nat)
    (startsWith : list (option (nat * nat))) (sizes : list (nat * nat))
    (classSizes : list (string * list (nat * nat)))
    (elements : list (list string)) :
  1 ≤ cols →
  Forall validSize sizes →
  Forall (λ kv : string * list (nat * nat), Forall validSize kv.2) classSizes →
  (∀ i sz, aget startsWith i = Some sz → validSize sz) →
  ∃ out st,
    FirstFit.run cols rnd startsWith sizes classSizes elements = Ok (out, st) ∧
    readingOrder (FirstFit.placements out) ∧
    (∀ k k' a b, FirstFit.placements out !! k = Some a →
                 FirstFit.placements out !! k' = Some b →
                 item_pos a = item_pos b → k = k').
Proof.
  intros Hcols Hsizes Hclass Hpin.
  destruct (run_returns cols rnd startsWith sizes classSizes elements)
    as (out & st & Hrun).
  { intros i sz Hsz. by destruct (Hpin i sz Hsz). }
  exists out, st. split; [done|].
  assert (readingOrder (FirstFit.placements out)) as Hord.
  { destruct elements as [|cl0 elements0] eqn:Eel.
    { injection Hrun as <- <-. by intros k k' a b _ Ha. }
    rewrite <- Eel in *.
    assert (elements ≠ []) as Hne by (by rewrite Eel).
    destruct (run_Ok _ _ _ _ _ _ _ _ Hne Hrun) as (st1 & v & h & Hpack & Hnorm & _ & _ & ->).
    simpl.
    destruct (each_layout _ _ _ _ _ _ _ _ Hpack) as (Hs & Hids & Hlen).
    assert (is_Some (FirstFit.st_data st1 !! (length elements - 1))) as [last Hlast].
    { apply lookup_lt_is_Some. rewrite Eel in *. simpl in *. lia. }
    destruct (normalise_data cols (length elements) st1 st last Hs Hlast Hnorm)
      as (_ & _ & Hd & _).
    pose (P := λ (i : nat) (st : FirstFit.state),
            validPools st ∧ rowsDefined (FirstFit.st_grid st) ∧
            (∀ k it, FirstFit.st_data st !! k = Some it →
               cell (FirstFit.st_grid st) (item_pos it).1 (item_pos it).2 ≠ None ∧
               ∀ q, before q (item_pos it) → q.2 < cols →
                    cell (FirstFit.st_grid st) q.1 q.2 ≠ None) ∧
            readingOrder (FirstFit.st_data st)).
    assert (P (0 + length elements) st1) as (_ & _ & _ & Hord1).
    { apply (each_preserves cols rnd startsWith P (length elements) elements)
        with (3 := Hpack).
      - intros i cl st0 st0' (? & ? & ? & ?) Hplace.
        by eapply place_anchored.
      - split; [by split|]. split; [intros i Hi; simpl in Hi; lia|].
        split; [by intros k it|]. by intros k k' a b _ Ha. }
    intros k k' a b Hlt Ha Hb.
    destruct (Hd k a Ha) as (a0 & Ha0 & _ & -> & _).
    destruct (Hd k' b Hb) as (b0 & Hb0 & _ & -> & _).
    exact (Hord1 k k' a0 b0 Hlt Ha0 Hb0). }
  split; [done|]. intros k k' a b Ha Hb Hpos.
  destruct (Nat.lt_trichotomy k k') as [Hlt|[->|Hgt]]; [|done|].
  - pose proof (Hord k k' a b Hlt Ha Hb) as Hbef. rewrite Hpos in Hbef.
    unfold before in Hbef. lia.
  - pose proof (Hord k' k b a Hgt Hb Ha) as Hbef. rewrite Hpos in Hbef.
    unfold before in Hbef. lia.
Qed.

Lemma placements_in_reading_order_witness :
  1 ≤ 3 ∧
  Forall validSize [(1, 1); (2, 1); (1, 2)] ∧
  Forall (λ kv : string * list (nat * nat), Forall validSize kv.2) [("big", [(2, 2)])] ∧
  (∀ i sz, aget [None; Some (1, 2)] i = Some sz → validSize sz) ∧
  ∃ out st,
    FirstFit.run 3 (λ k, k) [None; Some (1, 2)] [(1, 1); (2, 1); (1, 2)]
      [("big", [(2, 2)])] [[]; ["big"]; []; []; []] = Ok (out, st) ∧
    readingOrder (FirstFit.placements out) ∧
    (∀ k k' a b, FirstFit.placements out !! k = Some a →
                 FirstFit.placements out !! k' = Some b →
                 item_pos a = item_pos b → k = k').
Proof.
  assert (Forall validSize [(1, 1); (2, 1); (1, 2)]) as H1.
  { repeat constructor. }
  assert (Forall (λ kv : string * list (nat * nat), Forall validSize kv.2)
            [("big", [(2, 2)])]) as H2.
  { repeat constructor. }
  assert (∀ i sz, aget [None; Some (1, 2)] i = Some sz → validSize sz) as H3.
  { intros [|[|i]] sz; simpl; [done| |done]. intros [= <-]. split; simpl; lia. }
  split; [lia|]. split; [exact H1|]. split; [exact H2|]. split; [exact H3|].
  apply (placements_in_reading_order 3 (λ k, k) [None; Some (1, 2)]
           [(1, 1); (2, 1); (1, 2)] [("big", [(2, 2)])] [[]; ["big"]; []; []; []]);
    [lia | exact H1 | exact H2 | exact H3].
Defined.

(** ** The right edge *)

(** Property X7.  With at least one column and no size pinned by [startsWith],
    whatever the pools hold, no placement reaches beyond the last column and
    no cell of the grid outside the columns is marked. *)
Theorem unpinned_layout_within_columns (cols : nat) (rnd : nat → nat)
    (startsWith : list (option (nat * nat))) (sizes : list (nat * nat))
    (classSizes : list (string * list (nat * nat)))
    (elements : list (list string)) :
  1 ≤ cols → (∀ i, aget startsWith i = None) →
  ∃ out st,
    FirstFit.run cols rnd startsWith sizes classSizes elements = Ok (out, st) ∧
    (∀ k it, FirstFit.placements out !! k = Some it →
             (item_pos it).2 + item_cols it ≤ cols) ∧
    (∀ i j, cols ≤ j → cell (FirstFit.occupancy out) i j = None).
Proof.
  intros Hcols Hsw. destruct elements as [|cl0 elements0] eqn:Eel.
  { eexists _, _. split; [done|]. split; [by intros k it|]. intros i j _.
    unfold cell. by rewrite aget_ge by (simpl; lia). }
  rewrite <- Eel. assert (elements ≠ []) as Hne by (by rewrite Eel).
  assert (length elements = S (length elements0)) as Elen by (by rewrite Eel).
  destruct (each_packed cols rnd startsWith Hcols Hsw (length elements) 0
              elements (FirstFit.initial sizes classSizes))
    as (st1 & Hpack & Hp1 & Hlen1 & Hlast1); [apply packed_initial | done | done |].
  destruct (normalise_spec cols (length elements) st1 Hp1 Hlen1 (Hlast1 Hne))
    as (st2 & Hnorm & Hdef2 & Hids2 & _ & Hcons).
  destruct (lines_total cols (FirstFit.st_grid st2) Hdef2) as (vs & hs & Hv & Hh).
  eexists _, _. split.
  { rewrite Eel, run_cons, <- Eel, <- Elen, Hpack. cbn [rbind]. rewrite Hnorm.
    cbn [rbind]. rewrite Hv. cbn [rbind]. rewrite Hh. cbn [rbind]. done. }
  simpl.
  pose (P := λ (i : nat) (st : FirstFit.state),
          rowsDefined (FirstFit.st_grid st) ∧
          ∀ k it, FirstFit.st_data st !! k = Some it →
                  (item_pos it).2 + item_cols it ≤ cols).
  assert (P (0 + length elements) st1) as [_ Hw1].
  { apply (each_preserves cols rnd startsWith P (length elements) elements)
      with (3 := Hpack).
    - intros i cl st0 st0' [Hdef Hw] Hplace.
      apply place_Ok in Hplace as (p & g' & Hp & Hmark & ->).
      apply firstEmptySpace_first in Hp as (Hp1' & _ & Hp2 & _).
      destruct (mark_length _ _ _ _ _ _ Hdef Hp1' Hmark) as [Hdef' _].
      split; [done|]. simpl. intros k it Hit.
      destruct (decide (k < length (FirstFit.st_data st0))) as [Hlt|Hge].
      + rewrite lookup_app_l in Hit by done. by eapply Hw.
      + rewrite lookup_app_r in Hit by lia.
        destruct (k - length (FirstFit.st_data st0)) as [|k'] eqn:E; [|done].
        injection Hit as <-. simpl.
        destruct (resolveSize_fits cols rnd startsWith p (length elements - i) i cl st0
                    (Hsw i)) as [->|Hfit].
        * simpl. specialize (Hp2 ltac:(lia)). lia.
        * unfold FirstFit.isAllocable in Hfit. case_decide; [done | lia].
    - split; [intros i Hi; simpl in Hi; lia | by intros k it]. }
  destruct (each_layout _ _ _ _ _ _ _ _ Hpack) as (Hs & _ & _).
  assert (is_Some (FirstFit.st_data st1 !! (length elements - 1))) as [last Hlast].
  { apply lookup_lt_is_Some. lia. }
  destruct (normalise_data cols (length elements) st1 st2 last Hs Hlast Hnorm)
    as (_ & _ & Hd & last' & Hlast' & _ & Hp' & _ & Hc').
  assert (∀ k it, FirstFit.st_data st2 !! k = Some it →
                  (item_pos it).2 + item_cols it ≤ cols) as Hw2.
  { intros k it' Hk. destruct (Hd k it' Hk) as (it & Hit & _ & Hp & _ & Hc).
    destruct (decide (k = length elements - 1)) as [->|Hk'].
    - rewrite Hlast' in Hk. injection Hk as <-. rewrite Hlast in Hit.
      injection Hit as <-. specialize (Hw1 _ _ Hlast). rewrite Hp'.
      destruct Hc' as [->|[_ Hc']]; lia.
    - rewrite Hp, (Hc Hk'). by eapply Hw1. }
  split; [done|]. intros i j Hj.
  destruct (cell (FirstFit.st_grid st2) i j) as [e|] eqn:Ecell; [|done].
  exfalso. assert (i < length (FirstFit.st_grid st2)) as Hi.
  { apply aget_is_Some_lt. eapply cell_Some_row. exact Ecell. }
  apply (Hcons i j e Hi) in Ecell as (it & Hit & _ & Hcol).
  specialize (Hw2 _ _ Hit). lia.
Qed.

Lemma unpinned_layout_within_columns_witness :
  1 ≤ 3 ∧ (∀ i, aget (@nil (option (nat * nat))) i = None) ∧
  ∃ out st,
    FirstFit.run 3 (λ k, k) [] [(1, 1); (2, 1); (1, 2); (1, 4)] [("big", [(2, 2)])]
      [[]; ["big"]; []; []; []] = Ok (out, st) ∧
    (∀ k it, FirstFit.placements out !! k = Some it →
             (item_pos it).2 + item_cols it ≤ 3) ∧
    (∀ i j, 3 ≤ j → cell (FirstFit.occupancy out) i j = None).
Proof.
  assert (∀ i, aget (@nil (option (nat * nat))) i = None) as Hsw.
  { intros i. destruct i; reflexivity. }
  split; [lia|]. split; [exact Hsw|].
  apply (unpinned_layout_within_columns 3 (λ k, k) [] [(1, 1); (2, 1); (1, 2); (1, 4)]
           [("big", [(2, 2)])] [[]; ["big"]; []; []; []]); [lia | exact Hsw].
Defined.

(** * The separator lines that are drawn *)

Lemma forM_app {S} (l1 l2 : list nat) (body : nat → S → result S) (s : S) :
  forM (l1 ++ l2) body s = let* s1 := forM l1 body s in forM l2 body s1.
Proof.
  revert s. induction l1 as [|i l1 IH]; intros s; cbn [app forM]; [done|].
  destruct (body i s); cbn [rbind]; [apply IH | done..].
Qed.

Lemma maximalRun_from (F : nat → bool) (x x' s e : nat) :
  x < x' → F (x' - 1) = false → (∀ z, x ≤ z < x' - 1 → F z = true) →
  x ≤ s → maximalRun F s e →
  (s = x ∧ e = x' - 2 ∧ x' ≠ S x) ∨ x' ≤ s.
Proof.
  intros Hlt Hstop Hrun Hs (Hle & Hon & Hend & Hstart).
  destruct (decide (x' ≤ s)) as [|Hin]; [by right|]. left.
  assert (s ≠ x' - 1) as Hs'.
  { intros ->. rewrite Hon in Hstop by lia. done. }
  assert (s = x) as ->.
  { destruct (decide (s = x)) as [|Hne]; [done|].
    rewrite Hrun in Hstart by lia. discriminate Hstart. lia. }
  split; [done|]. split; [|lia].
  destruct (decide (e < x' - 2)) as [He|He].
  - rewrite Hrun in Hend by lia. done.
  - destruct (decide (e = x' - 2)) as [|He']; [done|].
    rewrite Hon in Hstop by lia. done.
Qed.

Section VerticalExact.

Variable cols : nat.
Implicit Types (g : grid) (v : FirstFit.vseg).

Lemma vInner_exact fuel g y x run x' run' :
  FirstFit.vInner fuel g y x run = Ok (x', run') →
  x < x' ∧ FirstFit.isRightFrontier g (x' - 1) y = false ∧
  (∀ z, x ≤ z < x' - 1 → FirstFit.isRightFrontier g z y = true) ∧
  run' = if decide (x' = S x) then run
         else Some (match run with None => x | Some r => r.1 end, x' - 2).
Proof.
  revert x run. induction fuel as [|fuel IH]; intros x run; simpl; [done|].
  destruct (FirstFit.isRightFrontier g x y) eqn:E.
  - intros H. apply IH in H as (Hlt & Hstop & Hrun & ->).
    split; [lia|]. split; [done|]. split.
    + intros z Hz. destruct (decide (z = x)) as [->|]; [done|]. apply Hrun. lia.
    + rewrite (decide_False (P := x' = S x)) by lia.
      case_decide as Hx'; simpl; [|done]. f_equal. f_equal. lia.
  - intros [= <- <-]. replace (S x - 1) with x by lia.
    split; [lia|]. split; [done|]. split; [intros; lia|]. by rewrite decide_True.
Qed.

Lemma vOuter_exact fuel g y x out vs :
  FirstFit.vOuter fuel g y x None out = Ok vs →
  (0 < x → FirstFit.isRightFrontier g (x - 1) y = false) →
  ∀ v, v ∈ vs ↔
       v ∈ out ∨
       (FirstFit.v_col v = y ∧ x ≤ FirstFit.v_start v ∧
        maximalRun (λ x, FirstFit.isRightFrontier g x y)
                   (FirstFit.v_start v) (FirstFit.v_end v)).
Proof.
  revert x out. induction fuel as [|fuel IH]; intros x out; [done|].
  rewrite vOuter_S. case_decide as Hx.
  - intros Hr Hprev. apply rbind_Ok in Hr as ([x' run'] & Hin & Hr). simpl in Hr.
    apply vInner_exact in Hin as (Hlt & Hstop & Hrun & ->).
    assert (0 < x' → FirstFit.isRightFrontier g (x' - 1) y = false) as Hprev' by done.
    intros v. case_decide as Hx'; simpl in Hr.
    + rewrite (IH _ _ Hr Hprev' v). split; (intros [?|(Hc & Hs & Hmax)]; [by left|right]).
      * split; [done|]. split; [lia | done].
      * split; [done|]. split; [|done].
        destruct (maximalRun_from _ x x' _ _ Hlt Hstop Hrun Hs Hmax) as [(_ & _ & ?)|?];
          [done | lia].
    + rewrite (IH _ _ Hr Hprev' v), elem_of_app, list_elem_of_singleton.
      split.
      * intros [[?| ->]|(Hc & Hs & Hmax)]; [by left |right|right].
        -- simpl. split; [done|]. split; [done|].
           split; [lia|]. split; [intros z ?; apply Hrun; lia|].
           split; [by replace (S (x' - 2)) with (x' - 1) by lia | done].
        -- split; [done|]. split; [lia | done].
      * intros [?|(Hc & Hs & Hmax)]; [by left; left|].
        destruct (maximalRun_from _ x x' _ _ Hlt Hstop Hrun Hs Hmax) as [(Es & Ee & _)|?].
        -- left; right. destruct v as [c s e]. simpl in *. by subst.
        -- right. done.
  - intros [= <-] _ v. split; [by left|]. intros [?|(_ & Hs & Hle & Hon & _)]; [done|].
    specialize (Hon (FirstFit.v_start v) ltac:(lia)). simpl in Hon.
    rewrite isRightFrontier_ge in Hon by lia. done.
Qed.

End VerticalExact.

(** Property X8.  The vertical pass returns, on any grid, and the lines it draws are
    exactly the maximal runs of right frontiers of the columns but the last:
    a line right of column [y] from row [s] to row [e] is drawn if and only if
    [y + 1 < s.cols], every row from [s] to [e] has different cells in columns
    [y] and [y + 1], and neither row [s - 1] nor row [e + 1] does. *)
Theorem vertical_lines_exact (cols : nat) (g : grid) :
  ∃ vs, FirstFit.verticalLines cols g = Ok vs ∧
        ∀ v, v ∈ vs ↔
             FirstFit.v_col v + 1 < cols ∧
             maximalRun (λ x, FirstFit.isRightFrontier g x (FirstFit.v_col v))
                        (FirstFit.v_start v) (FirstFit.v_end v).
Proof.
  destruct (verticalLines_total cols g) as [vs Hvs]. exists vs. split; [done|].
  revert Hvs. unfold FirstFit.verticalLines.
  assert (∀ n out vs',
            forM (seq 0 n)
              (λ y out, FirstFit.vOuter (S (length g)) g y 0 None out) out = Ok vs' →
            ∀ v, v ∈ vs' ↔
                 v ∈ out ∨
                 (FirstFit.v_col v < n ∧
                  maximalRun (λ x, FirstFit.isRightFrontier g x (FirstFit.v_col v))
                             (FirstFit.v_start v) (FirstFit.v_end v)))
    as Hloop.
  { intros n. induction n as [|n IH]; intros out vs'.
    - cbn [seq forM]. intros [= <-] v. split; [by left|]. intros [?|[? _]]; [done | lia].
    - rewrite seq_S, forM_app. intros H. apply rbind_Ok in H as (out1 & H1 & H).
      cbn [forM] in H. apply rbind_Ok in H as (out2 & H2 & H). injection H as <-.
      change (0 + n) with n in H2. intros v.
      rewrite (vOuter_exact _ _ _ _ _ _ H2 ltac:(lia) v), (IH _ _ H1 v).
      split.
      + intros [[?|[? ?]]|(Hc & _ & Hmax)]; [by left | right | right].
        * split; [lia | done].
        * rewrite Hc. split; [lia | done].
      + intros [?|[Hc Hmax]]; [by left; left|].
        destruct (decide (FirstFit.v_col v = n)) as [E|E].
        * right. rewrite <- E. split; [done|]. split; [lia | done].
        * left; right. split; [lia | done]. }
  intros Hvs v. rewrite (Hloop _ _ _ Hvs v). split.
  - intros [?%elem_of_nil|[? ?]]; [done|]. split; [lia | done].
  - intros [? ?]. right. split; [lia | done].
Qed.

Section HorizontalCover.

Variable cols : nat.
Implicit Types (g : grid) (h : FirstFit.hseg).

Lemma hcovered_mono (hs hs' : list FirstFit.hseg) x c :
  (∀ h, h ∈ hs → h ∈ hs') → hcovered hs x c → hcovered hs' x c.
Proof. intros Hsub (h & Hh & ?). exists h. split; [by apply Hsub | done]. Qed.

Lemma hcovered_last (hs : list FirstFit.hseg) x s e c :
  s ≤ c ≤ e → hcovered (hs ++ [FirstFit.HSeg x s e]) x c.
Proof.
  intros Hc. exists (FirstFit.HSeg x s e). split; [|done].
  apply elem_of_app. right. apply list_elem_of_here.
Qed.

Lemma hInner_cover fuel g x y run out y' run' out' :
  FirstFit.hInner fuel g x y run out = Ok (y', run', out') →
  (∀ se, run = Some se → se.1 ≤ se.2 < y) →
  y < y' ∧ FirstFit.isTopFrontier g x (y' - 1) = Ok false ∧
  (∀ h, h ∈ out → h ∈ out') ∧
  (∀ h, h ∈ out' → h ∈ out ∨ FirstFit.h_row h = x) ∧
  (∀ c, (∃ se, run = Some se ∧ se.1 ≤ c ≤ se.2) ∨ y ≤ c < y' - 1 →
        hcovered out' x c ∨ ∃ se, run' = Some se ∧ se.1 ≤ c ≤ se.2).
Proof.
  revert y run out. induction fuel as [|fuel IH]; intros y run out; [done|].
  rewrite hInner_S. intros H Hrun.
  apply rbind_Ok in H as (top & Htop & H). destruct top.
  - destruct run as [[s e]|].
    + specialize (Hrun _ eq_refl). simpl in Hrun, H.
      destruct (FirstFit.isRightFrontier g x (y - 1) &&
                FirstFit.isRightFrontier g (x + 1) (y - 1)).
      * apply IH in H as (Hlt & Hstop & Hsub & Hrow & Hcov);
          [|intros se [= <-]; simpl; lia].
        split; [lia|]. split; [done|]. split.
        { intros h Hh. apply Hsub, elem_of_app. by left. }
        split.
        { intros h Hh. destruct (Hrow h Hh) as [[?| ->%list_elem_of_singleton]%elem_of_app|?];
            [by left | by right | by right]. }
        intros c [(se & [= <-] & Hc)|Hc]; simpl in *.
        -- left. eapply hcovered_mono; [exact Hsub|]. by apply hcovered_last.
        -- apply Hcov. destruct (decide (c = y)) as [->|]; [|right; lia].
           left. eexists. split; [done|]. simpl. lia.
      * apply IH in H as (Hlt & Hstop & Hsub & Hrow & Hcov);
          [|intros se [= <-]; simpl; lia].
        split; [lia|]. split; [done|]. split; [done|]. split; [done|].
        intros c [(se & [= <-] & Hc)|Hc]; simpl in *.
        -- apply Hcov. left. eexists. split; [done|]. simpl. lia.
        -- apply Hcov. destruct (decide (c = y)) as [->|]; [|right; lia].
           left. eexists. split; [done|]. simpl. lia.
    + apply IH in H as (Hlt & Hstop & Hsub & Hrow & Hcov);
        [|intros se [= <-]; simpl; lia].
      split; [lia|]. split; [done|]. split; [done|]. split; [done|].
      intros c [(se & ? & _)|Hc]; [done|].
      apply Hcov. destruct (decide (c = y)) as [->|]; [|right; lia].
      left. eexists. split; [done|]. simpl. lia.
  - injection H as <- <- <-. replace (S y - 1) with y by lia.
    split; [lia|]. split; [done|]. split; [done|]. split; [by left|].
    intros c [?|?]; [by right | lia].
Qed.

Lemma hOuter_cover fuel g x y out hs :
  FirstFit.hOuter cols fuel g x y None out = Ok hs →
  (∀ h, h ∈ out → h ∈ hs) ∧
  (∀ h, h ∈ hs → h ∈ out ∨ FirstFit.h_row h = x) ∧
  (is_Some (aget g x) →
   ∀ c, y ≤ c < cols → FirstFit.isTopFrontier g x c = Ok true → hcovered hs x c).
Proof.
  revert y out. induction fuel as [|fuel IH]; intros y out; [done|].
  rewrite hOuter_S.
  destruct (bool_decide (is_Some (aget g x)) && bool_decide (y < cols)) eqn:Eguard.
  - intros Hr. apply rbind_Ok in Hr as ([[y' run'] out'] & Hin & Hr). simpl in Hr.
    apply hInner_cover in Hin as (Hlt & Hstop & Hsub & Hrow & Hcov); [|done].
    assert (∃ out'', FirstFit.hOuter cols fuel g x y' None out'' = Ok hs ∧
                     (∀ h, h ∈ out' → h ∈ out'') ∧
                     (∀ h, h ∈ out'' → h ∈ out' ∨ FirstFit.h_row h = x) ∧
                     (∀ c, y ≤ c < y' - 1 → hcovered out'' x c))
      as (out'' & Hr' & Hsub' & Hrow' & Hcov').
    { destruct run' as [[s e]|].
      - eexists. split; [exact Hr|]. split; [intros h ?; apply elem_of_app; by left|].
        split.
        { intros h [?| ->%list_elem_of_singleton]%elem_of_app; [by left | by right]. }
        intros c Hc. destruct (Hcov c (or_intror Hc)) as [Hc'|(se & [= <-] & Hc')].
        + eapply hcovered_mono; [|exact Hc']. intros h ?. apply elem_of_app. by left.
        + by apply hcovered_last.
      - eexists. split; [exact Hr|]. split; [done|]. split; [by left|].
        intros c Hc. by destruct (Hcov c (or_intror Hc)) as [Hc'|(se & ? & _)]. }
    destruct (IH _ _ Hr') as (Hsub2 & Hrow2 & Hcov2).
    split; [intros h ?; by apply Hsub2, Hsub', Hsub|]. split.
    { intros h Hh. destruct (Hrow2 h Hh) as [Hh'|?]; [|by right].
      destruct (Hrow' h Hh') as [Hh''|?]; [|by right]. by apply Hrow. }
    intros Hx c Hc Htop.
    destruct (decide (c < y' - 1)) as [Hlo|Hhi].
    + eapply hcovered_mono; [exact Hsub2|]. apply Hcov'. lia.
    + destruct (decide (c = y' - 1)) as [->|]; [congruence|].
      apply Hcov2; [done | lia | done].
  - intros [= <-]. split; [done|]. split; [by left|]. intros Hx c Hc.
    rewrite (bool_decide_eq_true_2 _ Hx) in Eguard. simpl in Eguard.
    apply bool_decide_eq_false in Eguard. lia.
Qed.

Lemma horizontalLines_cover g hs :
  FirstFit.horizontalLines cols g = Ok hs →
  (∀ h, h ∈ hs → FirstFit.h_row h + 1 < length g) ∧
  (∀ x c, x + 1 < length g → is_Some (aget g x) → c < cols →
          FirstFit.isTopFrontier g x c = Ok true → hcovered hs x c).
Proof.
  unfold FirstFit.horizontalLines.
  assert (∀ n out hs',
            forM (seq 0 n) (λ x out, FirstFit.hOuter cols (S cols) g x 0 None out) out
            = Ok hs' →
            (∀ h, h ∈ out → h ∈ hs') ∧
            (∀ h, h ∈ hs' → h ∈ out ∨ FirstFit.h_row h < n) ∧
            (∀ x c, x < n → is_Some (aget g x) → c < cols →
                    FirstFit.isTopFrontier g x c = Ok true → hcovered hs' x c))
    as Hloop.
  { intros n. induction n as [|n IH]; intros out hs'.
    - cbn [seq forM]. intros [= <-]. split; [done|]. split; [by left|]. intros; lia.
    - rewrite seq_S, forM_app. intros H. apply rbind_Ok in H as (out1 & H1 & H).
      cbn [forM] in H. apply rbind_Ok in H as (out2 & H2 & H). injection H as <-.
      change (0 + n) with n in H2.
      destruct (IH _ _ H1) as (Hsub1 & Hrow1 & Hcov1).
      destruct (hOuter_cover _ _ _ _ _ _ H2) as (Hsub2 & Hrow2 & Hcov2).
      split; [intros h ?; by apply Hsub2, Hsub1|]. split.
      { intros h Hh. destruct (Hrow2 h Hh) as [Hh'|?]; [|right; lia].
        destruct (Hrow1 h Hh') as [?|?]; [by left | right; lia]. }
      intros x c Hx Hrow Hc Htop. destruct (decide (x = n)) as [->|].
      + apply Hcov2; [done | lia | done].
      + eapply hcovered_mono; [exact Hsub2|]. apply Hcov1; [lia | done..]. }
  intros H. destruct (Hloop _ _ _ H) as (_ & Hrow & Hcov). split.
  - intros h Hh. destruct (Hrow h Hh) as [?%elem_of_nil|?]; [done | lia].
  - intros x c Hx. apply Hcov. lia.
Qed.

End HorizontalCover.

(** Property X9.  On a grid whose rows all exist the horizontal pass returns; every
    line it draws lies under a row that has a row below it, covers top
    frontiers only, is not split and not cut short; and every boundary
    between a cell of the columns and a different cell below it lies on one
    of the lines. *)
Theorem horizontal_lines_cover (cols : nat) (g : grid) :
  rowsDefined g →
  ∃ hs, FirstFit.horizontalLines cols g = Ok hs ∧
        Forall (hsegOk g) hs ∧
        (∀ h, h ∈ hs → FirstFit.h_row h + 1 < length g) ∧
        (∀ x c, x + 1 < length g → c < cols →
                FirstFit.isTopFrontier g x c = Ok true → hcovered hs x c).
Proof.
  intros Hdef. destruct (horizontalLines_total cols g Hdef) as [hs Hhs].
  exists hs. split; [done|]. split; [by apply (horizontalLines_Ok cols)|].
  destruct (horizontalLines_cover cols g hs Hhs) as [Hrow Hcov].
  split; [done|]. intros x c Hx Hc Htop. apply Hcov; [done | | done | done].
  apply Hdef. lia.
Qed.

Lemma horizontal_lines_cover_witness :
  rowsDefined [Some [Some 0; Some 1; Some 1]; Some [Some 2; Some 2; Some 1]] ∧
  ∃ hs, FirstFit.horizontalLines 3
          [Some [Some 0; Some 1; Some 1]; Some [Some 2; Some 2; Some 1]] = Ok hs ∧
        Forall (hsegOk [Some [Some 0; Some 1; Some 1]; Some [Some 2; Some 2; Some 1]]) hs ∧
        (∀ h, h ∈ hs → FirstFit.h_row h + 1 < 2) ∧
        (∀ x c, x + 1 < 2 → c < 3 →
                FirstFit.isTopFrontier
                  [Some [Some 0; Some 1; Some 1]; Some [Some 2; Some 2; Some 1]] x c
                = Ok true →
                hcovered hs x c).
Proof.
  assert (rowsDefined [Some [Some 0; Some 1; Some 1]; Some [Some 2; Some 2; Some 1]])
    as Hdef.
  { intros [|[|i]] Hi; simpl in *; [eauto | eauto | lia]. }
  split; [exact Hdef|].
  apply (horizontal_lines_cover 3
           [Some [Some 0; Some 1; Some 1]; Some [Some 2; Some 2; Some 1]] Hdef).
Defined.

(** * The packing loop of [js/grid.js] *)

Section ScanningFirstFit.

Variable cols : nat.
Implicit Types (g : grid) (p q : pos) (el : Scanning.element).

(** The positions the loop tests come in row-major order over the columns
    [0] to [s.cols], and it stops at the first allocable one. *)
Lemma findPosition_first fuel g el p q :
  Scanning.findPosition cols fuel g el p = Ok q → p.2 ≤ cols →
  q.2 ≤ cols ∧ (p = q ∨ before p q) ∧
  ∀ r, r.2 ≤ cols → p = r ∨ before p r → before r q →
       Scanning.isAllocable cols g el r = false.
Proof.
  revert p. induction fuel as [|fuel IH]; intros p; simpl; [done|].
  destruct (Scanning.isAllocable cols g el p) eqn:E.
  - intros [= <-] Hp. split; [done|]. split; [by left|].
    intros r _ [<-|Hpr] Hrp; unfold before in *; lia.
  - intros H Hp. apply IH in H as (Hq & Hpq & Hfirst).
    + split; [done|].
      assert (before p (Scanning.advance cols p)) as Hadv.
      { unfold Scanning.advance, before. case_decide; simpl; lia. }
      split.
      { right. destruct Hpq as [<-|Hpq]; [done|]. unfold before in *. lia. }
      intros r Hr [<-|Hpr] Hrq; [done|]. apply Hfirst; [done| |done].
      destruct p as [p1 p2], r as [r1 r2].
      unfold Scanning.advance, before in *. simpl in *.
      case_decide; simpl.
      * destruct (decide (r1 = p1 ∧ r2 = p2 + 1)) as [[-> ->]|]; [by left | right; lia].
      * destruct (decide (r1 = p1 + 1 ∧ r2 = 0)) as [[-> ->]|]; [by left | right; lia].
    + unfold Scanning.advance. case_decide; simpl; lia.
Qed.

End ScanningFirstFit.

(** Property X10.  The position loop of [js/grid.js] is a first fit over the columns
    [0] to [s.cols]: for an element at most [s.cols] wide, and given
    [grid.length * (s.cols + 1) + 1] tests, it stops at a position where the
    element is allocable, within the rows of the grid or at the start of the
    first row below them,
    and the element is allocable at no position that comes before it row by
    row and left to right. *)
Theorem scanning_first_fit (cols : nat) (g : grid) (el : Scanning.element)
    (fuel : nat) :
  Scanning.el_cols el ≤ cols → length g * (cols + 1) + 1 ≤ fuel →
  ∃ q, Scanning.findPosition cols fuel g el (0, 0) = Ok q ∧
       Scanning.isAllocable cols g el q = true ∧
       q.2 + Scanning.el_cols el ≤ cols ∧
       (q.1 < length g ∨ q = (length g, 0)) ∧
       ∀ r, r.2 ≤ cols → before r q → Scanning.isAllocable cols g el r = false.
Proof.
  intros Hw Hfuel.
  destruct (findPosition_terminates cols fuel g el (0, 0) Hw) as [q Hq].
  { simpl. destruct g; [by right | left; simpl; lia]. }
  { simpl. lia. }
  exists q. pose proof (findPosition_allocable _ _ _ _ _ _ Hq) as Ha.
  destruct (findPosition_first cols fuel g el (0, 0) q Hq) as (Hq2 & _ & Hfirst);
    [simpl; lia|].
  assert (∀ r, r.2 ≤ cols → before r q → Scanning.isAllocable cols g el r = false)
    as Hfirst'.
  { intros r Hr Hrq. apply Hfirst; [done| |done].
    destruct r as [r1 r2]. unfold before. simpl.
    destruct (decide (r1 = 0 ∧ r2 = 0)) as [[-> ->]|]; [by left | right; lia]. }
  split; [done|]. split; [done|]. split.
  { unfold Scanning.isAllocable in Ha. case_decide; [done | lia]. }
  split; [|done].
  destruct (decide (q.1 < length g)) as [|Hrow]; [by left|]. right.
  destruct (decide (q = (length g, 0))) as [|Hne]; [done|]. exfalso.
  assert (before (length g, 0) q) as Hbef.
  { destruct q as [q1 q2]. unfold before. simpl in *.
    destruct (decide (q1 = length g)) as [->|]; [|left; lia].
    right. split; [done|]. destruct q2; [done | lia]. }
  specialize (Hfirst' (length g, 0) ltac:(simpl; lia) Hbef).
  by rewrite isAllocable_fresh_row in Hfirst'.
Qed.

Lemma scanning_first_fit_witness :
  ∃ q, Scanning.findPosition 4 11 [Some [Some 1; Some 2; Some 2]; Some [Some 3]]
         (Scanning.Element 4 3 1) (0, 0) = Ok q ∧
       Scanning.isAllocable 4 [Some [Some 1; Some 2; Some 2]; Some [Some 3]]
         (Scanning.Element 4 3 1) q = true ∧
       q.2 + 3 ≤ 4 ∧
       (q.1 < 2 ∨ q = (2, 0)) ∧
       ∀ r, r.2 ≤ 4 → before r q →
            Scanning.isAllocable 4 [Some [Some 1; Some 2; Some 2]; Some [Some 3]]
              (Scanning.Element 4 3 1) r = false.
Proof.
  apply (scanning_first_fit 4 [Some [Some 1; Some 2; Some 2]; Some [Some 3]]
           (Scanning.Element 4 3 1) 11); simpl; lia.
Defined.

Section ScanningPack.

Variable cols : nat.
Implicit Types (g : grid) (p q : pos) (el : Scanning.element) (d : list item)
  (acc : grid * nat * list item).

Lemma scanning_isAllocable_true g el p :
  Scanning.isAllocable cols g el p = true →
  p.2 + Scanning.el_cols el ≤ cols ∧
  ∀ i j, p.1 ≤ i < p.1 + Scanning.el_rows el → p.2 ≤ j < p.2 + Scanning.el_cols el →
         Scanning.taken g i j = false.
Proof.
  unfold Scanning.isAllocable. case_decide; [done|]. intros Hall. split; [lia|].
  intros i j Hi Hj. rewrite forallb_forall in Hall.
  specialize (Hall i). rewrite forallb_forall in Hall.
  apply negb_true_iff. apply Hall; apply in_seq; lia.
Qed.

Lemma scanning_taken_cell g i j e :
  cell g i j = Some e → e ≠ 0 → Scanning.taken g i j = true.
Proof.
  unfold Scanning.taken, cell. destruct (aget g i) as [r|]; [|done].
  intros -> He. by rewrite bool_decide_eq_false_2.
Qed.

Lemma findPosition_row fuel g el q :
  Scanning.findPosition cols fuel g el (0, 0) = Ok q →
  q.1 ≤ length g.
Proof.
  intros Hq. pose proof (findPosition_allocable _ _ _ _ _ _ Hq) as Ha.
  apply scanning_isAllocable_true in Ha as [Hw _].
  destruct (findPosition_first cols fuel g el (0, 0) q Hq) as (Hq2 & _ & Hfirst);
    [simpl; lia|].
  destruct (decide (q.1 ≤ length g)) as [|Hrow]; [done|]. exfalso.
  assert (Scanning.isAllocable cols g el (length g, 0) = false) as Hno.
  { apply Hfirst; [simpl; lia | |left; simpl; lia].
    unfold before. simpl. destruct (length g); [by left | right; lia]. }
  rewrite isAllocable_fresh_row in Hno; [done | lia | done].
Qed.

Lemma scanning_place_Ok fuel sz acc acc' :
  Scanning.place cols fuel sz acc = Ok acc' →
  ∃ q g',
    Scanning.findPosition cols fuel acc.1.1 (Scanning.Element (S acc.1.2) sz.2 sz.1) (0, 0)
    = Ok q ∧
    mark acc.1.1 q sz.1 sz.2 (S acc.1.2) = Ok g' ∧
    acc' = (g', S acc.1.2, acc.2 ++ [Item (S acc.1.2) q sz.1 sz.2]).
Proof.
  unfold Scanning.place. intros H.
  apply rbind_Ok in H as (q & Hq & H). apply rbind_Ok in H as (g' & Hg' & H).
  injection H as <-. by exists q, g'.
Qed.

(** What the loop maintains: ids count from one, a cell holds the id of the
    element whose rectangle covers it, every rectangle is marked in full and
    lies within the columns and the rows. *)
Lemma scanning_place_layout fuel sz acc acc' :
  Scanning.place cols fuel sz acc = Ok acc' →
  rowsDefined acc.1.1 → acc.1.2 = length acc.2 →
  (∀ i j e, cell acc.1.1 i j = Some e →
     ∃ it, acc.2 !! (e - 1) = Some it ∧ 1 ≤ e ∧ in_rect it i j) →
  (∀ k it, acc.2 !! k = Some it →
     item_id it = S k ∧ (item_pos it).2 + item_cols it ≤ cols ∧
     (item_pos it).1 + item_rows it ≤ length acc.1.1 ∧
     ∀ i j, in_rect it i j → cell acc.1.1 i j = Some (S k)) →
  rowsDefined acc'.1.1 ∧ acc'.1.2 = length acc'.2 ∧
  (∃ q, acc'.2 = acc.2 ++ [Item (S acc.1.2) q sz.1 sz.2]) ∧
  length acc'.1.1 ≤ length acc.1.1 + sz.1 ∧
  (∀ i j e, cell acc'.1.1 i j = Some e →
     ∃ it, acc'.2 !! (e - 1) = Some it ∧ 1 ≤ e ∧ in_rect it i j) ∧
  (∀ k it, acc'.2 !! k = Some it →
     item_id it = S k ∧ (item_pos it).2 + item_cols it ≤ cols ∧
     (item_pos it).1 + item_rows it ≤ length acc'.1.1 ∧
     ∀ i j, in_rect it i j → cell acc'.1.1 i j = Some (S k)).
Proof.
  destruct acc as [[g n] d]. simpl. intros H Hdef -> Hin Hout.
  apply scanning_place_Ok in H as (q & g' & Hq & Hmark & ->). simpl in *.
  pose proof (findPosition_row _ _ _ _ Hq) as Hrow.
  pose proof (findPosition_allocable _ _ _ _ _ _ Hq) as Ha.
  apply scanning_isAllocable_true in Ha as [Hw Hfree]. simpl in Hw, Hfree.
  destruct (mark_length _ _ _ _ _ _ Hdef Hrow Hmark) as [Hdef' Hlen'].
  destruct (mark_spec g q sz.1 sz.2 (S (length d))) as (g'' & Hg'' & _ & Hcell).
  rewrite Hmark in Hg''. injection Hg'' as <-.
  split; [done|]. split; [rewrite length_app; simpl; lia|].
  split; [by exists q|]. split; [lia|]. split.
  - intros i j e. rewrite Hcell. case_decide as Hrect.
    + intros [= <-]. eexists. split; [|split; [lia | exact Hrect]].
      replace (S (length d) - 1) with (length d + 0) by lia.
      by rewrite lookup_app_r, Nat.add_comm, Nat.add_sub by lia.
    + intros Hc. apply Hin in Hc as (it & Hit & ? & ?). exists it.
      split; [by apply lookup_app_l_Some | done].
  - intros k it Hit. destruct (decide (k < length d)) as [Hlt|Hge].
    + rewrite lookup_app_l in Hit by done.
      destruct (Hout k it Hit) as (Hid & Hcol & Hbot & Hfull).
      split; [done|]. split; [done|]. split; [lia|].
      intros i j Hij. rewrite Hcell. case_decide as Hrect; [|by apply Hfull].
      exfalso. pose proof (scanning_taken_cell g i j (S k) (Hfull i j Hij) ltac:(lia)) as Ht.
      destruct Hrect as [? ?]. simpl in *. rewrite Hfree in Ht by lia. done.
    + rewrite lookup_app_r in Hit by lia.
      destruct (k - length d) as [|k'] eqn:E; [|done].
      injection Hit as <-. simpl.
      split; [f_equal; lia|]. split; [done|]. split; [lia|].
      intros i j Hij. rewrite Hcell, decide_True by done. f_equal. lia.
Qed.

Lemma scanning_each_layout fuel elements acc acc' :
  Scanning.each cols fuel elements acc = Ok acc' →
  rowsDefined acc.1.1 → acc.1.2 = length acc.2 →
  (∀ i j e, cell acc.1.1 i j = Some e →
     ∃ it, acc.2 !! (e - 1) = Some it ∧ 1 ≤ e ∧ in_rect it i j) →
  (∀ k it, acc.2 !! k = Some it →
     item_id it = S k ∧ (item_pos it).2 + item_cols it ≤ cols ∧
     (item_pos it).1 + item_rows it ≤ length acc.1.1 ∧
     ∀ i j, in_rect it i j → cell acc.1.1 i j = Some (S k)) →
  acc'.1.2 = length acc'.2 ∧
  (∃ new, acc'.2 = acc.2 ++ new ∧
          (λ it, (item_rows it, item_cols it)) <$> new = elements) ∧
  length acc'.1.1 ≤ length acc.1.1 + sum_list (elements.*1) ∧
  (∀ i j e, cell acc'.1.1 i j = Some e →
     ∃ it, acc'.2 !! (e - 1) = Some it ∧ 1 ≤ e ∧ in_rect it i j) ∧
  (∀ k it, acc'.2 !! k = Some it →
     item_id it = S k ∧ (item_pos it).2 + item_cols it ≤ cols ∧
     (item_pos it).1 + item_rows it ≤ length acc'.1.1 ∧
     ∀ i j, in_rect it i j → cell acc'.1.1 i j = Some (S k)).
Proof.
  revert acc. induction elements as [|sz elements IH]; intros acc; cbn [Scanning.each].
  - intros [= <-] Hdef Hid Hin Hout. split; [done|]. split.
    { exists []. by rewrite app_nil_r. }
    split; [simpl; lia | done].
  - intros H Hdef Hid Hin Hout. apply rbind_Ok in H as (acc1 & H1 & H).
    destruct (scanning_place_layout _ _ _ _ H1 Hdef Hid Hin Hout)
      as (Hdef1 & Hid1 & [q Hd1] & Hlen1 & Hin1 & Hout1).
    destruct (IH _ H Hdef1 Hid1 Hin1 Hout1) as (Hid' & (new & Hd' & Hnew) & Hlen' & Hin' & Hout').
    split; [done|]. split.
    { eexists (_ :: new). rewrite Hd', Hd1, <- app_assoc. split; [done|].
      rewrite fmap_cons, Hnew. simpl. by destruct sz. }
    split; [|done].
    assert (sum_list ((sz :: elements).*1) = sz.1 + sum_list (elements.*1)) as -> by done.
    lia.
Qed.

Lemma findPosition_outcomes fuel g el p :
  (∃ q, Scanning.findPosition cols fuel g el p = Ok q) ∨
  Scanning.findPosition cols fuel g el p = OutOfFuel.
Proof.
  revert p. induction fuel as [|fuel IH]; intros p; simpl; [by right|].
  destruct (Scanning.isAllocable cols g el p); [left; eauto | apply IH].
Qed.

Lemma scanning_place_outcomes fuel sz acc :
  (∃ acc', Scanning.place cols fuel sz acc = Ok acc') ∨
  Scanning.place cols fuel sz acc = OutOfFuel.
Proof.
  unfold Scanning.place.
  destruct (findPosition_outcomes fuel acc.1.1 (Scanning.Element (S acc.1.2) sz.2 sz.1) (0, 0))
    as [[q ->]| ->]; [|by right].
  cbn [rbind]. simpl.
  destruct (mark_spec acc.1.1 q sz.1 sz.2 (S acc.1.2)) as (g' & -> & _).
  left. simpl. eauto.
Qed.

Lemma scanning_each_never fuel elements acc :
  Exists (λ sz : nat * nat, cols < sz.2) elements →
  Scanning.each cols fuel elements acc = OutOfFuel.
Proof.
  intros Hex. revert acc. induction Hex as [sz elements Hw|sz elements Hex IH]; intros acc;
    cbn [Scanning.each].
  - unfold Scanning.place. rewrite findPosition_never by done. done.
  - destruct (scanning_place_outcomes fuel sz acc) as [[acc1 ->]| ->]; [|done].
    cbn [rbind]. apply IH.
Qed.

Lemma scanning_each_returns fuel elements acc :
  Forall (λ sz : nat * nat, sz.2 ≤ cols) elements →
  rowsDefined acc.1.1 →
  (length acc.1.1 + sum_list (elements.*1)) * (cols + 1) + 1 ≤ fuel →
  ∃ acc', Scanning.each cols fuel elements acc = Ok acc'.
Proof.
  intros Hall. revert acc. induction Hall as [|sz elements Hw Hall IH]; intros acc Hdef Hfuel;
    cbn [Scanning.each]; [eauto|].
  assert (sum_list ((sz :: elements).*1) = sz.1 + sum_list (elements.*1)) as Hsum by done.
  rewrite Hsum in Hfuel. clear Hsum.
  destruct (findPosition_terminates cols fuel acc.1.1
              (Scanning.Element (S acc.1.2) sz.2 sz.1) (0, 0)) as [q Hq]; [done| | |].
  { simpl. destruct (acc.1.1); [by right | left; simpl; lia]. }
  { simpl. nia. }
  pose proof (findPosition_row _ _ _ _ Hq) as Hrow.
  destruct (mark_spec acc.1.1 q sz.1 sz.2 (S acc.1.2)) as (g' & Hmark & _).
  destruct (mark_length _ _ _ _ _ _ Hdef Hrow Hmark) as [Hdef' Hlen'].
  unfold Scanning.place. rewrite Hq. cbn [rbind]. simpl. rewrite Hmark. cbn [rbind].
  apply IH; simpl; [done|].
  assert (length g' ≤ length acc.1.1 + sz.1) as Hle by lia.
  etrans; [|exact Hfuel]. apply Nat.add_le_mono_r, Nat.mul_le_mono_r. lia.
Qed.

End ScanningPack.

(** Property X11.  What the packing loop of [js/grid.js] leaves behind when it
    returns: one placement per element, in order and with the element's own
    rows and columns, ids counting from one; every placement lies within the
    columns and the rows of the grid; a cell holds an id exactly when the
    rectangle of the element with that id covers it; so no two rectangles
    overlap. *)
Theorem scanning_pack_layout (cols fuel : nat) (elements : list (nat * nat))
    (g : grid) (n : nat) (d : list item) :
  Scanning.each cols fuel elements ([], 0, []) = Ok (g, n, d) →
  n = length elements ∧
  (λ it, (item_rows it, item_cols it)) <$> d = elements ∧
  (∀ k it, d !! k = Some it →
     item_id it = S k ∧ (item_pos it).2 + item_cols it ≤ cols ∧
     (item_pos it).1 + item_rows it ≤ length g) ∧
  (∀ i j e, cell g i j = Some e ↔
            ∃ it, d !! (e - 1) = Some it ∧ 1 ≤ e ∧ in_rect it i j) ∧
  (∀ k k' it it' i j, d !! k = Some it → d !! k' = Some it' →
                      in_rect it i j → in_rect it' i j → k = k').
Proof.
  intros H.
  destruct (scanning_each_layout cols fuel elements ([], 0, []) (g, n, d) H)
    as (Hid & (new & Hd & Hnew) & _ & Hin & Hout); simpl.
  { intros i Hi. simpl in Hi. lia. }
  { done. }
  { by intros i j e. }
  { by intros k it. }
  simpl in *. subst d.
  split; [by rewrite Hid, <- Hnew, length_fmap|]. split; [done|]. split.
  { intros k it Hit. destruct (Hout k it Hit) as (? & ? & ? & _). done. }
  split.
  - intros i j e. split; [apply Hin|]. intros (it & Hit & He & Hrect).
    destruct (Hout _ _ Hit) as (_ & _ & _ & Hfull).
    rewrite (Hfull i j Hrect). f_equal. lia.
  - intros k k' it it' i j Hit Hit' Hrect Hrect'.
    destruct (Hout _ _ Hit) as (_ & _ & _ & Hfull).
    destruct (Hout _ _ Hit') as (_ & _ & _ & Hfull').
    specialize (Hfull i j Hrect). specialize (Hfull' i j Hrect'). congruence.
Qed.

Lemma scanning_pack_layout_witness :
  ∃ g n d,
    Scanning.each 4 6 [(1, 1); (1, 2); (1, 3); (2, 1)] ([], 0, []) = Ok (g, n, d) ∧
    n = 4 ∧
    (λ it, (item_rows it, item_cols it)) <$> d = [(1, 1); (1, 2); (1, 3); (2, 1)] ∧
    (∀ k it, d !! k = Some it →
       item_id it = S k ∧ (item_pos it).2 + item_cols it ≤ 4 ∧
       (item_pos it).1 + item_rows it ≤ length g) ∧
    (∀ i j e, cell g i j = Some e ↔
              ∃ it, d !! (e - 1) = Some it ∧ 1 ≤ e ∧ in_rect it i j) ∧
    (∀ k k' it it' i j, d !! k = Some it → d !! k' = Some it' →
                        in_rect it i j → in_rect it' i j → k = k').
Proof.
  eexists _, _, _. split; [vm_compute; reflexivity|].
  apply (scanning_pack_layout 4 6 [(1, 1); (1, 2); (1, 3); (2, 1)]).
  vm_compute; reflexivity.
Defined.

(** Property X12.  The packing loop of [js/grid.js] as a whole.  When no element is
    wider than [s.cols] it returns, each position loop given
    [(sum of the elements' rows) * (s.cols + 1) + 1] tests; when some element
    is wider than [s.cols] it does not return however many tests the position
    loops are given. *)
Theorem scanning_pack_returns (cols : nat) (elements : list (nat * nat)) :
  (Forall (λ sz : nat * nat, sz.2 ≤ cols) elements →
   ∀ fuel, sum_list (elements.*1) * (cols + 1) + 1 ≤ fuel →
           ∃ r, Scanning.pack cols fuel elements = Ok r) ∧
  (Exists (λ sz : nat * nat, cols < sz.2) elements →
   ∀ fuel, Scanning.pack cols fuel elements = OutOfFuel).
Proof.
  split.
  - intros Hall fuel Hfuel.
    destruct (scanning_each_returns cols fuel elements ([], 0, []) Hall) as [acc Hacc].
    + intros i Hi. simpl in Hi. lia.
    + done.
    + unfold Scanning.pack. rewrite Hacc. cbn [rbind]. eauto.
  - intros Hex fuel. unfold Scanning.pack.
    by rewrite scanning_each_never.
Qed.

Lemma scanning_pack_returns_witness :
  (∃ r, Scanning.pack 4 26 [(1, 1); (1, 2); (1, 3); (2, 1)] = Ok r) ∧
  (∀ fuel, Scanning.pack 4 fuel [(1, 1); (1, 5); (2, 1)] = OutOfFuel).
Proof.
  split.
  - apply (proj1 (scanning_pack_returns 4 [(1, 1); (1, 2); (1, 3); (2, 1)])).
    + repeat constructor; simpl; lia.
    + simpl. lia.
  - apply (proj2 (scanning_pack_returns 4 [(1, 1); (1, 5); (2, 1)])).
    apply Exists_cons_tl, Exists_cons_hd. simpl. lia.
Defined.

(** * Separator marks and lines of [js/grid.js] *)

Section ScanningMarks.

Implicit Types (m : Scanning.marks) (p : pos) (d : list item).

Lemma materializeMarks_spec m i :
  is_Some (aget (Scanning.materializeMarks m i) i) ∧
  (∀ i', is_Some (aget m i') → is_Some (aget (Scanning.materializeMarks m i) i')) ∧
  ∀ i' j', Scanning.marked (Scanning.materializeMarks m i) i' j' = Scanning.marked m i' j'.
Proof.
  unfold Scanning.materializeMarks. destruct (aget m i) as [r|] eqn:E.
  - split; [rewrite E; eauto|]. done.
  - split; [rewrite aget_aset_eq; eauto|]. split.
    + intros i' Hi'. rewrite aget_aset. case_decide; [eauto | done].
    + intros i' j'. unfold Scanning.marked. rewrite aget_aset.
      case_decide; [subst; by rewrite E | done].
Qed.

Lemma setMark_spec m i j :
  is_Some (aget m i) →
  ∃ m', Scanning.setMark m i j = Ok m' ∧
        (∀ i', is_Some (aget m i') → is_Some (aget m' i')) ∧
        ∀ i' j', Scanning.marked m' i' j' = true ↔
                 Scanning.marked m i' j' = true ∨ (i' = i ∧ j' = j).
Proof.
  intros [r Hr]. unfold Scanning.setMark. rewrite Hr. eexists. split; [done|]. split.
  - intros i' Hi'. rewrite aget_aset. case_decide; [eauto | done].
  - intros i' j'. unfold Scanning.marked. rewrite aget_aset.
    destruct (decide (i = i')) as [<-|Hne].
    + rewrite Hr, aget_aset. destruct (decide (j = j')) as [<-|Hne'].
      * split; [by right | done].
      * split; [by left | intros [?|[_ ?]]; [done | congruence]].
    + split; [by left | intros [?|[? _]]; [done | congruence]].
Qed.

Lemma markH_spec m p c :
  ∃ m', Scanning.markH m p c = Ok m' ∧
        ∀ i j, Scanning.marked m' i j = true ↔
               Scanning.marked m i j = true ∨ (p.1 = S i ∧ p.2 ≤ j < p.2 + c).
Proof.
  unfold Scanning.markH. destruct p.1 as [|x].
  { exists m. split; [done|]. intros i j. split; [by left | by intros [?|[? _]]]. }
  destruct (materializeMarks_spec m x) as (Hrow & _ & Hsame).
  assert (∀ a m0, is_Some (aget m0 x) →
            ∃ m', forM (seq a c) (λ i m, Scanning.setMark m x i) m0 = Ok m' ∧
                  ∀ i j, Scanning.marked m' i j = true ↔
                         Scanning.marked m0 i j = true ∨ (i = x ∧ a ≤ j < a + c))
    as Hloop.
  { clear. induction c as [|c IH]; intros a m0 Hrow; cbn [seq forM].
    - exists m0. split; [done|]. intros i j.
      split; [by left | intros [?|[_ ?]]; [done | lia]].
    - destruct (setMark_spec m0 x a Hrow) as (m1 & -> & Hrows1 & Hm1). cbn [rbind].
      destruct (IH (S a) m1) as (m' & -> & Hm'); [by apply Hrows1|].
      exists m'. split; [done|]. intros i j. rewrite Hm', Hm1. split.
      + intros [[?|[-> ->]]|[-> ?]]; [by left | right; split; [done | lia] |
                                     right; split; [done | lia]].
      + intros [?|[-> ?]]; [by left; left|].
        destruct (decide (j = a)) as [->|]; [left; by right | right; split; [done | lia]]. }
  destruct (Hloop p.2 _ Hrow) as (m' & -> & Hm'). exists m'. split; [done|].
  intros i j. rewrite Hm', Hsame. split.
  - intros [?|[-> ?]]; [by left | by right].
  - intros [?|[[= ->] ?]]; [by left | by right].
Qed.

Lemma markV_spec m p r :
  ∃ m', Scanning.markV m p r = Ok m' ∧
        ∀ i j, Scanning.marked m' i j = true ↔
               Scanning.marked m i j = true ∨ (p.2 = S j ∧ p.1 ≤ i < p.1 + r).
Proof.
  unfold Scanning.markV. destruct p.2 as [|y].
  { exists m. split; [done|]. intros i j. split; [by left | by intros [?|[? _]]]. }
  generalize p.1 as a. intros a. revert a m.
  induction r as [|r IH]; intros a m; cbn [seq forM].
  - exists m. split; [done|]. intros i j.
    split; [by left | intros [?|[_ ?]]; [done | lia]].
  - destruct (materializeMarks_spec m a) as (Hrow & _ & Hsame).
    destruct (setMark_spec _ a y Hrow) as (m1 & -> & _ & Hm1). cbn [rbind].
    destruct (IH (S a) m1) as (m' & -> & Hm').
    exists m'. split; [done|]. intros i j. rewrite Hm', Hm1, Hsame.
    split.
    + intros [[?|[-> ->]]|[[= ->] ?]]; [by left | right; split; [done | lia] |
                                        right; split; [done | lia]].
    + intros [?|[[= ->] ?]]; [by left; left|].
      destruct (decide (i = a)) as [->|]; [left; by right | right; split; [done | lia]].
Qed.

Lemma eachMarks_spec d (hv : Scanning.marks * Scanning.marks) :
  ∃ hv', Scanning.eachMarks d hv = Ok hv' ∧
         (∀ i j, Scanning.marked hv'.1 i j = true ↔
                 Scanning.marked hv.1 i j = true ∨ topEdge d i j) ∧
         (∀ i j, Scanning.marked hv'.2 i j = true ↔
                 Scanning.marked hv.2 i j = true ∨ leftEdge d i j).
Proof.
  revert hv. induction d as [|it d IH]; intros hv; cbn [Scanning.eachMarks].
  - exists hv. split; [done|].
    split; intros i j; (split; [by left|]); intros [?|(it & Hit%elem_of_nil & _)]; done.
  - destruct (markH_spec hv.1 (item_pos it) (item_cols it)) as (hl & -> & Hhl).
    cbn [rbind].
    destruct (markV_spec hv.2 (item_pos it) (item_rows it)) as (vl & -> & Hvl).
    cbn [rbind].
    destruct (IH (hl, vl)) as (hv' & -> & Hh & Hv). exists hv'. split; [done|].
    simpl in Hh, Hv. split; intros i j.
    + rewrite Hh, Hhl. unfold topEdge. split.
      * intros [[?|[? ?]]|(it' & ? & ?)]; [by left | right | right].
        -- exists it. split; [apply list_elem_of_here | done].
        -- exists it'. split; [by apply list_elem_of_further | done].
      * intros [?|(it' & [->|?]%elem_of_cons & ? & ?)];
          [by left; left | left; by right | right; by exists it'].
    + rewrite Hv, Hvl. unfold leftEdge. split.
      * intros [[?|[? ?]]|(it' & ? & ?)]; [by left | right | right].
        -- exists it. split; [apply list_elem_of_here | done].
        -- exists it'. split; [by apply list_elem_of_further | done].
      * intros [?|(it' & [->|?]%elem_of_cons & ? & ?)];
          [by left; left | left; by right | right; by exists it'].
Qed.

End ScanningMarks.

(** Property X13.  The marking of [hLines] and [vLines] in [js/grid.js] throws for no
    placements, and the marks are the edges of the elements: [hLines[i][j]]
    is set exactly when some element starts in row [i + 1] and covers column
    [j], and [vLines[i][j]] is set exactly when some element starts in column
    [j + 1] and covers row [i]. *)
Theorem scanning_marks_are_edges (d : list item) :
  ∃ hLines vLines,
    Scanning.eachMarks d ([], []) = Ok (hLines, vLines) ∧
    (∀ i j, Scanning.marked hLines i j = true ↔ topEdge d i j) ∧
    (∀ i j, Scanning.marked vLines i j = true ↔ leftEdge d i j).
Proof.
  destruct (eachMarks_spec d ([], [])) as ([hl vl] & H & Hh & Hv).
  exists hl, vl. split; [done|]. simpl in *.
  assert (∀ i j, Scanning.marked [] i j = false) as Hnil.
  { intros i j. unfold Scanning.marked. by rewrite aget_ge by (simpl; lia). }
  split; intros i j.
  - rewrite Hh, Hnil. split; [by intros [?|?] | by right].
  - rewrite Hv, Hnil. split; [by intros [?|?] | by right].
Qed.

Section ScanningVertical.

Variable cols : nat.
Implicit Types (m : Scanning.marks) (v : FirstFit.vseg).

Lemma scanning_marked_ge m x y : length m ≤ x → Scanning.marked m x y = false.
Proof. intros H. unfold Scanning.marked. by rewrite aget_ge. Qed.

Lemma scanning_vInner_exact fuel m y x run x' run' :
  Scanning.vInner fuel m y x run = Ok (x', run') →
  x < x' ∧ Scanning.marked m (x' - 1) y = false ∧
  (∀ z, x ≤ z < x' - 1 → Scanning.marked m z y = true) ∧
  run' = if decide (x' = S x) then run
         else Some (match run with None => x | Some r => r.1 end, x' - 2).
Proof.
  revert x run. induction fuel as [|fuel IH]; intros x run; simpl; [done|].
  destruct (Scanning.marked m x y) eqn:E.
  - intros H. apply IH in H as (Hlt & Hstop & Hrun & ->).
    split; [lia|]. split; [done|]. split.
    + intros z Hz. destruct (decide (z = x)) as [->|]; [done|]. apply Hrun. lia.
    + rewrite (decide_False (P := x' = S x)) by lia.
      case_decide as Hx'; simpl; [|done]. f_equal. f_equal. lia.
  - intros [= <- <-]. replace (S x - 1) with x by lia.
    split; [lia|]. split; [done|]. split; [intros; lia|]. by rewrite decide_True.
Qed.

Lemma scanning_vInner_total fuel m y x run :
  1 ≤ fuel → length m + 1 ≤ fuel + x →
  ∃ r, Scanning.vInner fuel m y x run = Ok r.
Proof.
  revert x run. induction fuel as [|fuel IH]; intros x run H1 Hfuel; simpl; [lia|].
  destruct (Scanning.marked m x y) eqn:E; [|eauto].
  destruct (decide (x < length m)).
  - apply IH; lia.
  - rewrite scanning_marked_ge in E by lia. done.
Qed.

Lemma scanning_vOuter_exact fuel m y x out :
  1 ≤ fuel → length m + 1 ≤ fuel + x →
  (0 < x → Scanning.marked m (x - 1) y = false) →
  ∃ vs, Scanning.vOuter fuel m y x None out = Ok vs ∧
        ∀ v, v ∈ vs ↔
             v ∈ out ∨
             (FirstFit.v_col v = y ∧ x ≤ FirstFit.v_start v ∧
              maximalRun (λ x, Scanning.marked m x y)
                         (FirstFit.v_start v) (FirstFit.v_end v)).
Proof.
  revert x out. induction fuel as [|fuel IH]; intros x out H1 Hfuel Hprev; [lia|].
  cbn [Scanning.vOuter]. case_decide as Hx.
  - destruct (scanning_vInner_total (S (length m)) m y x None) as [[x' run'] Hin];
      [lia | lia |].
    rewrite Hin. cbn [rbind]. simpl.
    apply scanning_vInner_exact in Hin as (Hlt & Hstop & Hrun & ->).
    assert (0 < x' → Scanning.marked m (x' - 1) y = false) as Hprev' by done.
    case_decide as Hx'.
    + destruct (IH x' out) as (vs & Hvs & Hin); [lia | lia | done |].
      exists vs. split; [done|]. intros v. rewrite (Hin v).
      split; (intros [?|(Hc & Hs & Hmax)]; [by left|right]).
      * split; [done|]. split; [lia | done].
      * split; [done|]. split; [|done].
        destruct (maximalRun_from _ x x' _ _ Hlt Hstop Hrun Hs Hmax) as [(_ & _ & ?)|?];
          [done | lia].
    + destruct (IH x' (out ++ [FirstFit.VSeg y x (x' - 2)])) as (vs & Hvs & Hin);
        [lia | lia | done |].
      exists vs. split; [done|]. intros v.
      rewrite (Hin v), elem_of_app, list_elem_of_singleton. split.
      * intros [[?| ->]|(Hc & Hs & Hmax)]; [by left |right|right].
        -- simpl. split; [done|]. split; [done|].
           split; [lia|]. split; [intros z ?; apply Hrun; lia|].
           split; [by replace (S (x' - 2)) with (x' - 1) by lia | done].
        -- split; [done|]. split; [lia | done].
      * intros [?|(Hc & Hs & Hmax)]; [by left; left|].
        destruct (maximalRun_from _ x x' _ _ Hlt Hstop Hrun Hs Hmax) as [(Es & Ee & _)|?].
        -- left; right. destruct v as [c s e]. simpl in *. by subst.
        -- right. done.
  - exists out. split; [done|]. intros v. split; [by left|].
    intros [?|(_ & Hs & Hle & Hon & _)]; [done|].
    specialize (Hon (FirstFit.v_start v) ltac:(lia)). simpl in Hon.
    rewrite scanning_marked_ge in Hon by lia. done.
Qed.

Lemma scanning_verticalLines_exact m :
  ∃ vs, Scanning.verticalLines cols m = Ok vs ∧
        ∀ v, v ∈ vs ↔
             FirstFit.v_col v + 1 < cols ∧
             maximalRun (λ x, Scanning.marked m x (FirstFit.v_col v))
                        (FirstFit.v_start v) (FirstFit.v_end v).
Proof.
  unfold Scanning.verticalLines.
  assert (∀ n out,
            ∃ vs', forM (seq 0 n)
                     (λ y out, Scanning.vOuter (S (length m)) m y 0 None out) out = Ok vs' ∧
            ∀ v, v ∈ vs' ↔
                 v ∈ out ∨
                 (FirstFit.v_col v < n ∧
                  maximalRun (λ x, Scanning.marked m x (FirstFit.v_col v))
                             (FirstFit.v_start v) (FirstFit.v_end v)))
    as Hloop.
  { intros n. induction n as [|n IH]; intros out.
    - cbn [seq forM]. exists out. split; [done|]. intros v.
      split; [by left|]. intros [?|[? _]]; [done | lia].
    - rewrite seq_S, forM_app. destruct (IH out) as (out1 & -> & H1). cbn [rbind forM].
      change (0 + n) with n.
      destruct (scanning_vOuter_exact (S (length m)) m n 0 out1) as (out2 & -> & H2);
        [lia | lia | lia |].
      cbn [rbind]. exists out2. split; [done|]. intros v.
      rewrite (H2 v), (H1 v). split.
      + intros [[?|[? ?]]|(Hc & _ & Hmax)]; [by left | right | right].
        * split; [lia | done].
        * rewrite Hc. split; [lia | done].
      + intros [?|[Hc Hmax]]; [by left; left|].
        destruct (decide (FirstFit.v_col v = n)) as [E|E].
        * right. rewrite <- E. split; [done|]. split; [lia | done].
        * left; right. split; [lia | done]. }
  destruct (Hloop (cols - 1) []) as (vs & Hvs & Hin). exists vs. split; [done|].
  intros v. rewrite (Hin v). split.
  - intros [?%elem_of_nil|[? ?]]; [done|]. split; [lia | done].
  - intros [? ?]. right. split; [lia | done].
Qed.

End ScanningVertical.

Section ScanningHorizontal.

Variable cols : nat.
Implicit Types (m hl vl : Scanning.marks) (h : FirstFit.hseg).

Lemma scanning_marked_row_ge m x y :
  Scanning.marksRowLength m x ≤ y → Scanning.marked m x y = false.
Proof.
  unfold Scanning.marksRowLength, Scanning.marked.
  destruct (aget m x) as [r|]; [|done]. intros H. by rewrite aget_ge.
Qed.

(** A drawn run of row [x]: marked throughout and with no column boundary
    inside it at which [vLines] is marked in both row [x] and row [x + 1]. *)
Lemma scanning_hInner_spec fuel hl vl x y run out y' run' out' :
  Scanning.hInner fuel hl vl x y run out = Ok (y', run', out') →
  (∀ se, run = Some se →
     se.1 ≤ se.2 ∧ S se.2 = y ∧
     (∀ c, se.1 ≤ c ≤ se.2 → Scanning.marked hl x c = true) ∧
     (∀ c, se.1 ≤ c < se.2 →
           ¬ (Scanning.marked vl x c = true ∧ Scanning.marked vl (x + 1) c = true))) →
  y < y' ∧ Scanning.marked hl x (y' - 1) = false ∧
  (∀ h, h ∈ out → h ∈ out') ∧
  (∀ h, h ∈ out' →
     h ∈ out ∨
     (FirstFit.h_row h = x ∧ FirstFit.h_start h ≤ FirstFit.h_end h ∧
      (∀ c, FirstFit.h_start h ≤ c ≤ FirstFit.h_end h → Scanning.marked hl x c = true) ∧
      (∀ c, FirstFit.h_start h ≤ c < FirstFit.h_end h →
            ¬ (Scanning.marked vl x c = true ∧ Scanning.marked vl (x + 1) c = true)))) ∧
  (∀ se, run' = Some se →
     se.1 ≤ se.2 ∧
     (∀ c, se.1 ≤ c ≤ se.2 → Scanning.marked hl x c = true) ∧
     (∀ c, se.1 ≤ c < se.2 →
           ¬ (Scanning.marked vl x c = true ∧ Scanning.marked vl (x + 1) c = true))) ∧
  (∀ c, (∃ se, run = Some se ∧ se.1 ≤ c ≤ se.2) ∨ y ≤ c < y' - 1 →
        hcovered out' x c ∨ ∃ se, run' = Some se ∧ se.1 ≤ c ≤ se.2).
Proof.
  revert y run out. induction fuel as [|fuel IH]; intros y run out; [done|].
  cbn [Scanning.hInner]. intros H Hrun.
  destruct (Scanning.marked hl x y) eqn:Htop.
  - destruct run as [[s e]|].
    + destruct (Hrun _ eq_refl) as (Hle & <- & Hon & Hns). simpl in *.
      replace (e - 0) with e in H by lia.
      destruct (Scanning.marked vl x e && Scanning.marked vl (x + 1) e) eqn:Esplit.
      * apply IH in H as (Hlt & Hstop & Hsub & Hrow & Hrun' & Hcov).
        -- split; [lia|]. split; [done|]. split.
           { intros h Hh. apply Hsub, elem_of_app. by left. }
           split.
           { intros h Hh.
             destruct (Hrow h Hh) as [[?| ->%list_elem_of_singleton]%elem_of_app|?];
               [by left | right | by right].
             simpl. done. }
           split; [done|].
           intros c [(se & [= <-] & Hc)|Hc]; simpl in *.
           ++ left. eapply hcovered_mono; [exact Hsub|]. by apply hcovered_last.
           ++ apply Hcov. destruct (decide (c = S e)) as [->|]; [|right; lia].
              left. eexists. split; [done|]. simpl. lia.
        -- intros se [= <-]. simpl. split; [done|]. split; [done|].
           split; [intros c ?; by replace c with (S e) by lia | intros; lia].
      * apply IH in H as (Hlt & Hstop & Hsub & Hrow & Hrun' & Hcov).
        -- split; [lia|]. split; [done|]. split; [done|]. split; [done|]. split; [done|].
           intros c [(se & [= <-] & Hc)|Hc]; simpl in *.
           ++ apply Hcov. left. eexists. split; [done|]. simpl. lia.
           ++ apply Hcov. destruct (decide (c = S e)) as [->|]; [|right; lia].
              left. eexists. split; [done|]. simpl. lia.
        -- intros se [= <-]. simpl. split; [lia|]. split; [done|]. split.
           ++ intros c ?. destruct (decide (c = S e)) as [->|]; [done|]. apply Hon. lia.
           ++ intros c ? [Hc1 Hc2]. destruct (decide (c = e)) as [->|].
              ** rewrite Hc1, Hc2 in Esplit. done.
              ** apply (Hns c); [lia | done].
    + apply IH in H as (Hlt & Hstop & Hsub & Hrow & Hrun' & Hcov).
      * split; [lia|]. split; [done|]. split; [done|]. split; [done|]. split; [done|].
        intros c [(se & ? & _)|Hc]; [done|].
        apply Hcov. destruct (decide (c = y)) as [->|]; [|right; lia].
        left. eexists. split; [done|]. simpl. lia.
      * intros se [= <-]. simpl. split; [done|]. split; [done|].
        split; [intros c ?; by replace c with y by lia | intros; lia].
  - injection H as <- <- <-. replace (S y - 1) with y by lia.
    split; [lia|]. split; [done|]. split; [done|]. split; [by left|]. split.
    + intros se Hse. destruct (Hrun se Hse) as (? & _ & ? & ?). done.
    + intros c [?|?]; [by right | lia].
Qed.

Lemma scanning_hInner_total fuel hl vl x y run out :
  1 ≤ fuel → Scanning.marksRowLength hl x + 1 ≤ fuel + y →
  ∃ r, Scanning.hInner fuel hl vl x y run out = Ok r.
Proof.
  revert y run out. induction fuel as [|fuel IH]; intros y run out H1 Hfuel; [lia|].
  cbn [Scanning.hInner]. destruct (Scanning.marked hl x y) eqn:E; [|eauto].
  assert (1 ≤ fuel ∧ Scanning.marksRowLength hl x + 1 ≤ fuel + S y) as [? ?].
  { destruct (decide (Scanning.marksRowLength hl x ≤ y)) as [Hle|?]; [|lia].
    rewrite scanning_marked_row_ge in E by done. done. }
  destruct run as [se|]; [destruct (_ && _)|]; by apply IH.
Qed.

Lemma scanning_hOuter_spec fuel hl vl x y out :
  1 ≤ fuel → cols + 1 ≤ fuel + y →
  ∃ hs, Scanning.hOuter cols fuel hl vl x y None out = Ok hs ∧
        (∀ h, h ∈ out → h ∈ hs) ∧
        (∀ h, h ∈ hs →
           h ∈ out ∨
           (FirstFit.h_row h = x ∧ FirstFit.h_start h ≤ FirstFit.h_end h ∧
            (∀ c, FirstFit.h_start h ≤ c ≤ FirstFit.h_end h →
                  Scanning.marked hl x c = true) ∧
            (∀ c, FirstFit.h_start h ≤ c < FirstFit.h_end h →
                  ¬ (Scanning.marked vl x c = true ∧
                     Scanning.marked vl (x + 1) c = true)))) ∧
        (∀ c, y ≤ c < cols → Scanning.marked hl x c = true → hcovered hs x c).
Proof.
  revert y out. induction fuel as [|fuel IH]; intros y out H1 Hfuel; [lia|].
  cbn [Scanning.hOuter].
  destruct (bool_decide (is_Some (aget hl x)) && bool_decide (y < cols)) eqn:Eguard.
  - apply andb_true_iff in Eguard as [_ Hy%bool_decide_eq_true].
    destruct (scanning_hInner_total (S (Scanning.marksRowLength hl x)) hl vl x y None out)
      as ([[y' run'] out'] & Hin); [lia | lia |].
    rewrite Hin. cbn [rbind]. simpl.
    apply scanning_hInner_spec in Hin as (Hlt & Hstop & Hsub & Hrow & Hrun' & Hcov);
      [|done].
    set (out'' := match run' with
                  | Some se => out' ++ [FirstFit.HSeg x se.1 se.2]
                  | None => out'
                  end).
    assert ((∀ h, h ∈ out' → h ∈ out'') ∧
            (∀ h, h ∈ out'' →
               h ∈ out' ∨
               (FirstFit.h_row h = x ∧ FirstFit.h_start h ≤ FirstFit.h_end h ∧
                (∀ c, FirstFit.h_start h ≤ c ≤ FirstFit.h_end h →
                      Scanning.marked hl x c = true) ∧
                (∀ c, FirstFit.h_start h ≤ c < FirstFit.h_end h →
                      ¬ (Scanning.marked vl x c = true ∧
                         Scanning.marked vl (x + 1) c = true)))) ∧
            (∀ c, y ≤ c < y' - 1 → hcovered out'' x c))
      as (Hsub' & Hrow' & Hcov').
    { subst out''. destruct run' as [[s e]|].
      - split; [intros h ?; apply elem_of_app; by left|]. split.
        { intros h [?| ->%list_elem_of_singleton]%elem_of_app; [by left | right].
          destruct (Hrun' _ eq_refl) as (? & ? & ?). simpl. done. }
        intros c Hc. destruct (Hcov c (or_intror Hc)) as [Hc'|(se & [= <-] & Hc')].
        + eapply hcovered_mono; [|exact Hc']. intros h ?. apply elem_of_app. by left.
        + by apply hcovered_last.
      - split; [done|]. split; [by left|].
        intros c Hc. by destruct (Hcov c (or_intror Hc)) as [Hc'|(se & ? & _)]. }
    destruct (IH y' out'') as (hs & Hhs & Hsub2 & Hrow2 & Hcov2); [lia | lia |].
    exists hs. split.
    { subst out''. by destruct run'. }
    split; [intros h ?; by apply Hsub2, Hsub', Hsub|]. split.
    { intros h Hh. destruct (Hrow2 h Hh) as [Hh'|?]; [|by right].
      destruct (Hrow' h Hh') as [Hh''|?]; [|by right]. by apply Hrow. }
    intros c Hc Htop.
    destruct (decide (c < y' - 1)) as [Hlo|Hhi].
    + eapply hcovered_mono; [exact Hsub2|]. apply Hcov'. lia.
    + destruct (decide (c = y' - 1)) as [->|]; [congruence|].
      apply Hcov2; [lia | done].
  - exists out. split; [done|]. split; [done|]. split; [by left|]. intros c Hc Htop.
    apply andb_false_iff in Eguard as [Hrow|Hy].
    + apply bool_decide_eq_false in Hrow. unfold Scanning.marked in Htop.
      destruct (aget hl x); [|done]. destruct Hrow. eauto.
    + apply bool_decide_eq_false in Hy. lia.
Qed.

Lemma scanning_horizontalLines_spec hl vl :
  ∃ hs, Scanning.horizontalLines cols hl vl = Ok hs ∧
        (∀ h, h ∈ hs →
           FirstFit.h_start h ≤ FirstFit.h_end h ∧
           (∀ c, FirstFit.h_start h ≤ c ≤ FirstFit.h_end h →
                 Scanning.marked hl (FirstFit.h_row h) c = true) ∧
           (∀ c, FirstFit.h_start h ≤ c < FirstFit.h_end h →
                 ¬ (Scanning.marked vl (FirstFit.h_row h) c = true ∧
                    Scanning.marked vl (FirstFit.h_row h + 1) c = true))) ∧
        (∀ x c, c < cols → Scanning.marked hl x c = true → hcovered hs x c).
Proof.
  unfold Scanning.horizontalLines.
  assert (∀ n out,
            ∃ hs', forM (seq 0 n)
                     (λ x out, Scanning.hOuter cols (S cols) hl vl x 0 None out) out
                   = Ok hs' ∧
            (∀ h, h ∈ out → h ∈ hs') ∧
            (∀ h, h ∈ hs' →
               h ∈ out ∨
               (FirstFit.h_start h ≤ FirstFit.h_end h ∧
                (∀ c, FirstFit.h_start h ≤ c ≤ FirstFit.h_end h →
                      Scanning.marked hl (FirstFit.h_row h) c = true) ∧
                (∀ c, FirstFit.h_start h ≤ c < FirstFit.h_end h →
                      ¬ (Scanning.marked vl (FirstFit.h_row h) c = true ∧
                         Scanning.marked vl (FirstFit.h_row h + 1) c = true)))) ∧
            (∀ x c, x < n → c < cols → Scanning.marked hl x c = true → hcovered hs' x c))
    as Hloop.
  { intros n. induction n as [|n IH]; intros out.
    - cbn [seq forM]. exists out. split; [done|]. split; [done|]. split; [by left|].
      intros; lia.
    - rewrite seq_S, forM_app. destruct (IH out) as (out1 & -> & Hsub1 & Hrow1 & Hcov1).
      cbn [rbind forM]. change (0 + n) with n.
      destruct (scanning_hOuter_spec (S cols) hl vl n 0 out1)
        as (out2 & -> & Hsub2 & Hrow2 & Hcov2); [lia | lia |].
      cbn [rbind]. exists out2. split; [done|].
      split; [intros h ?; by apply Hsub2, Hsub1|]. split.
      { intros h Hh. destruct (Hrow2 h Hh) as [Hh'|(<- & ? & ? & ?)]; [|by right].
        by apply Hrow1. }
      intros x c Hx Hc Htop. destruct (decide (x = n)) as [->|].
      + apply Hcov2; [lia | done].
      + eapply hcovered_mono; [exact Hsub2|]. apply Hcov1; [lia | done..]. }
  destruct (Hloop (length hl) []) as (hs & Hhs & _ & Hrow & Hcov).
  exists hs. split; [done|]. split.
  - intros h Hh. by destruct (Hrow h Hh) as [?%elem_of_nil|?].
  - intros x c Hc Htop. apply Hcov; [|done..].
    destruct (decide (x < length hl)) as [|Hx]; [done|].
    rewrite scanning_marked_ge in Htop by lia. done.
Qed.

End ScanningHorizontal.

(** What a run of [js/grid.js] is made of once step 1 has returned: the
    marks are the edges of the placements, and the two passes return their
    lines. *)
Lemma scanning_run_parts (cols fuel : nat) (elements : list (nat * nat))
    (acc : grid * nat * list item) :
  Scanning.each cols fuel elements ([], 0, []) = Ok acc →
  ∃ hl vl vs hs,
    Scanning.run cols fuel elements = Ok (acc.2, length acc.1.1, vs, hs) ∧
    (∀ i j, Scanning.marked hl i j = true ↔ topEdge acc.2 i j) ∧
    (∀ i j, Scanning.marked vl i j = true ↔ leftEdge acc.2 i j) ∧
    (∀ v, v ∈ vs ↔
          FirstFit.v_col v + 1 < cols ∧
          maximalRun (λ x, Scanning.marked vl x (FirstFit.v_col v))
                     (FirstFit.v_start v) (FirstFit.v_end v)) ∧
    (∀ h, h ∈ hs →
       FirstFit.h_start h ≤ FirstFit.h_end h ∧
       (∀ c, FirstFit.h_start h ≤ c ≤ FirstFit.h_end h →
             Scanning.marked hl (FirstFit.h_row h) c = true) ∧
       (∀ c, FirstFit.h_start h ≤ c < FirstFit.h_end h →
             ¬ (Scanning.marked vl (FirstFit.h_row h) c = true ∧
                Scanning.marked vl (FirstFit.h_row h + 1) c = true))) ∧
    (∀ x c, c < cols → Scanning.marked hl x c = true → hcovered hs x c).
Proof.
  intros Hacc. unfold Scanning.run. rewrite Hacc. cbn [rbind].
  destruct (eachMarks_spec acc.2 ([], [])) as ([hl vl] & -> & Hh & Hv). cbn [rbind].
  simpl in Hh, Hv.
  destruct (scanning_verticalLines_exact cols vl) as (vs & Hvs & Hvin).
  destruct (scanning_horizontalLines_spec cols hl vl) as (hs & Hhs & Hhin & Hcov).
  simpl. rewrite Hvs. cbn [rbind]. rewrite Hhs. cbn [rbind].
  exists hl, vl, vs, hs. split; [done|].
  assert (∀ i j, Scanning.marked [] i j = false) as Hnil.
  { intros i j. unfold Scanning.marked. by rewrite aget_ge by (simpl; lia). }
  split; [|split]; [| |done].
  - intros i j. rewrite Hh, Hnil. split; [by intros [?|?] | by right].
  - intros i j. rewrite Hv, Hnil. split; [by intros [?|?] | by right].
Qed.

(** Property X14.  The vertical lines of [js/grid.js].  With no element wider than
    [s.cols] and the position loops given
    [(sum of the elements' rows) * (s.cols + 1) + 1] tests, the plugin
    returns, and the vertical lines it draws are exactly the maximal runs of
    left edges: a line right of column [y] from row [s] to row [e] is drawn
    if and only if [y + 1 < s.cols], in every row from [s] to [e] some
    element starts in column [y + 1], and none does in row [s - 1] or in row
    [e + 1]. *)
Theorem scanning_vertical_lines (cols fuel : nat) (elements : list (nat * nat)) :
  Forall (λ sz : nat * nat, sz.2 ≤ cols) elements →
  sum_list (elements.*1) * (cols + 1) + 1 ≤ fuel →
  ∃ d n vs hs,
    Scanning.run cols fuel elements = Ok (d, n, vs, hs) ∧
    ∀ y s e,
      FirstFit.VSeg y s e ∈ vs ↔
      y + 1 < cols ∧ s ≤ e ∧
      (∀ x, s ≤ x ≤ e → leftEdge d x y) ∧
      ¬ leftEdge d (S e) y ∧ (0 < s → ¬ leftEdge d (s - 1) y).
Proof.
  intros Hall Hfuel.
  destruct (scanning_each_returns cols fuel elements ([], 0, []) Hall) as [acc Hacc];
    [intros i Hi; simpl in Hi; lia | done |].
  destruct (scanning_run_parts cols fuel elements acc Hacc)
    as (hl & vl & vs & hs & Hrun & _ & Hv & Hvs & _).
  exists acc.2, (length acc.1.1), vs, hs. split; [done|].
  intros y s e. rewrite (Hvs (FirstFit.VSeg y s e)). unfold maximalRun. simpl.
  assert (∀ i j, Scanning.marked vl i j = false ↔ ¬ leftEdge acc.2 i j) as Hv'.
  { intros i j. rewrite <- Hv. by destruct (Scanning.marked vl i j). }
  split.
  - intros (? & ? & Hon & Hend & Hstart). split; [done|]. split; [done|].
    split; [intros x Hx; by apply Hv, Hon|]. split; [by apply Hv'|].
    intros Hs. by apply Hv', Hstart.
  - intros (? & ? & Hon & Hend & Hstart). split; [done|]. split; [done|].
    split; [intros x Hx; by apply Hv, Hon|]. split; [by apply Hv'|].
    intros Hs. by apply Hv', Hstart.
Qed.

Lemma scanning_vertical_lines_witness :
  ∃ d n vs hs,
    Scanning.run 4 26 [(1, 1); (1, 2); (1, 3); (2, 1)] = Ok (d, n, vs, hs) ∧
    ∀ y s e,
      FirstFit.VSeg y s e ∈ vs ↔
      y + 1 < 4 ∧ s ≤ e ∧
      (∀ x, s ≤ x ≤ e → leftEdge d x y) ∧
      ¬ leftEdge d (S e) y ∧ (0 < s → ¬ leftEdge d (s - 1) y).
Proof.
  apply (scanning_vertical_lines 4 26 [(1, 1); (1, 2); (1, 3); (2, 1)]).
  - repeat constructor; simpl; lia.
  - simpl. lia.
Defined.

(** Property X15.  The horizontal lines of [js/grid.js].  Under the same conditions
    every horizontal line runs along top edges of elements only, every top
    edge within the columns lies on a horizontal line, and no horizontal
    line crosses a vertical line. *)
Theorem scanning_horizontal_lines (cols fuel : nat) (elements : list (nat * nat)) :
  Forall (λ sz : nat * nat, sz.2 ≤ cols) elements →
  sum_list (elements.*1) * (cols + 1) + 1 ≤ fuel →
  ∃ d n vs hs,
    Scanning.run cols fuel elements = Ok (d, n, vs, hs) ∧
    (∀ h, h ∈ hs →
       FirstFit.h_start h ≤ FirstFit.h_end h ∧
       ∀ c, FirstFit.h_start h ≤ c ≤ FirstFit.h_end h → topEdge d (FirstFit.h_row h) c) ∧
    (∀ x c, c < cols → topEdge d x c → hcovered hs x c) ∧
    (∀ v h, v ∈ vs → h ∈ hs → ¬ crosses v h).
Proof.
  intros Hall Hfuel.
  destruct (scanning_each_returns cols fuel elements ([], 0, []) Hall) as [acc Hacc];
    [intros i Hi; simpl in Hi; lia | done |].
  destruct (scanning_run_parts cols fuel elements acc Hacc)
    as (hl & vl & vs & hs & Hrun & Hh & _ & Hvs & Hhs & Hcov).
  exists acc.2, (length acc.1.1), vs, hs. split; [done|]. split; [|split].
  - intros h Hin. destruct (Hhs h Hin) as (? & Hon & _). split; [done|].
    intros c Hc. by apply Hh, Hon.
  - intros x c Hc Htop. apply Hcov; [done|]. by apply Hh.
  - intros v h Hv Hin [[Hr1 Hr2] [Hc1 Hc2]].
    apply Hvs in Hv as (_ & _ & Hon & _).
    destruct (Hhs h Hin) as (_ & _ & Hns).
    apply (Hns (FirstFit.v_col v)); [lia|]. split; apply Hon; lia.
Qed.

Lemma scanning_horizontal_lines_witness :
  ∃ d n vs hs,
    Scanning.run 4 26 [(1, 1); (1, 2); (1, 3); (2, 1)] = Ok (d, n, vs, hs) ∧
    (∀ h, h ∈ hs →
       FirstFit.h_start h ≤ FirstFit.h_end h ∧
       ∀ c, FirstFit.h_start h ≤ c ≤ FirstFit.h_end h → topEdge d (FirstFit.h_row h) c) ∧
    (∀ x c, c < 4 → topEdge d x c → hcovered hs x c) ∧
    (∀ v h, v ∈ vs → h ∈ hs → ¬ crosses v h).
Proof.
  apply (scanning_horizontal_lines 4 26 [(1, 1); (1, 2); (1, 3); (2, 1)]).
  - repeat constructor; simpl; lia.
  - simpl. lia.
Defined.

(** A run of [js/grid.js] on the elements of scenario A. *)
Example scanning_run_scenario_A :
  Scanning.run 4 6 [(1, 1); (1, 2); (1, 3); (2, 1)]
  = Ok ([Item 1 (0, 0) 1 1; Item 2 (0, 1) 1 2; Item 3 (1, 0) 1 3; Item 4 (0, 3) 2 1], 2,
        [FirstFit.VSeg 0 0 0; FirstFit.VSeg 2 0 1], [FirstFit.HSeg 0 0 2]).
Proof. vm_compute. reflexivity. Qed.

(** * The caller's pools *)

Section Pools.

Variable cols : nat.
Variable rnd : nat → nat.
Variable startsWith : list (option (nat * nat)).
Implicit Types (st : FirstFit.state).

Lemma shrinkRows_pools e shrinkTo st st' :
  FirstFit.shrinkRows e shrinkTo st = Ok st' →
  FirstFit.st_sizes st' = FirstFit.st_sizes st ∧
  FirstFit.st_classSizes st' = FirstFit.st_classSizes st.
Proof.
  unfold FirstFit.shrinkRows. destruct (FirstFit.st_data st !! e) as [it|]; [|done].
  case_decide as Hpos; [|done]. intros Hrun. apply rbind_Ok in Hrun as (g & _ & Hrun).
  by injection Hrun as <-.
Qed.

Lemma shrinkOccupants_pools r from to shrinkTo st st' :
  FirstFit.shrinkOccupants r from to shrinkTo st = Ok st' →
  FirstFit.st_sizes st' = FirstFit.st_sizes st ∧
  FirstFit.st_classSizes st' = FirstFit.st_classSizes st.
Proof.
  unfold FirstFit.shrinkOccupants. generalize (to - from) as n. intros n.
  revert from st. induction n as [|n IH]; intros from st; cbn [seq forM].
  - by intros [= <-].
  - intros H. apply rbind_Ok in H as (st1 & H1 & H).
    apply rbind_Ok in H1 as (c & _ & H1). apply IH in H as [-> ->].
    destruct c as [e|]; [by apply shrinkRows_pools in H1 | by injection H1 as <-].
Qed.

Lemma normalise_pools total st st' :
  FirstFit.normalise cols total st = Ok st' →
  FirstFit.st_sizes st' = FirstFit.st_sizes st ∧
  FirstFit.st_classSizes st' = FirstFit.st_classSizes st.
Proof.
  unfold FirstFit.normalise.
  destruct (FirstFit.st_data st !! (total - 1)) as [last|]; [|done].
  intros H. apply rbind_Ok in H as (st1 & H1 & H).
  apply rbind_Ok in H as (b & _ & H). apply rbind_Ok in H as (st2 & H2 & H).
  apply rbind_Ok in H as (b' & _ & H). apply rbind_Ok in H as (st3 & H3 & H).
  injection H as <-. simpl.
  assert (FirstFit.st_sizes st1 = FirstFit.st_sizes st ∧
          FirstFit.st_classSizes st1 = FirstFit.st_classSizes st) as [E1 E1'].
  { destruct (aget _ _); [by apply shrinkOccupants_pools in H1 | by injection H1 as <-]. }
  assert (FirstFit.st_sizes st2 = FirstFit.st_sizes st1 ∧
          FirstFit.st_classSizes st2 = FirstFit.st_classSizes st1) as [E2 E2'].
  { destruct b; [by injection H2 as <- | by apply shrinkOccupants_pools in H2]. }
  assert (FirstFit.st_sizes st3 = FirstFit.st_sizes st2 ∧
          FirstFit.st_classSizes st3 = FirstFit.st_classSizes st2) as [E3 E3'].
  { destruct b'; [by injection H3 as <-|].
    apply rbind_Ok in H3 as (g & _ & H3). by injection H3 as <-. }
  split; congruence.
Qed.

Lemma getRandomSize_pools p rem ref st (sizes : list (nat * nat))
    (classSizes : list (string * list (nat * nat))) :
  FirstFit.st_sizes st ≡ₚ sizes →
  Forall2 (λ kv kv' : string * list (nat * nat), kv.1 = kv'.1 ∧ kv.2 ≡ₚ kv'.2)
          (FirstFit.st_classSizes st) classSizes →
  FirstFit.st_sizes (FirstFit.getRandomSize cols rnd p rem ref st).2 ≡ₚ sizes ∧
  Forall2 (λ kv kv' : string * list (nat * nat), kv.1 = kv'.1 ∧ kv.2 ≡ₚ kv'.2)
          (FirstFit.st_classSizes (FirstFit.getRandomSize cols rnd p rem ref st).2)
          classSizes.
Proof.
  intros Hs Hc. rewrite getRandomSize_unfold. simpl. destruct ref as [|n]; simpl.
  - split; [|done]. by rewrite shuffle_Permutation.
  - split; [done|]. apply Forall2_alter_l; [done|].
    intros [key l] [key' l'] Hl _ [Hk Hp]. simpl in *. split; [done|].
    rewrite Hl. by rewrite shuffle_Permutation.
Qed.

Lemma resolveSize_pools p rem i cl st (sizes : list (nat * nat))
    (classSizes : list (string * list (nat * nat))) :
  FirstFit.st_sizes st ≡ₚ sizes →
  Forall2 (λ kv kv' : string * list (nat * nat), kv.1 = kv'.1 ∧ kv.2 ≡ₚ kv'.2)
          (FirstFit.st_classSizes st) classSizes →
  FirstFit.st_sizes (FirstFit.resolveSize cols rnd startsWith p rem i cl st).2 ≡ₚ sizes ∧
  Forall2 (λ kv kv' : string * list (nat * nat), kv.1 = kv'.1 ∧ kv.2 ≡ₚ kv'.2)
          (FirstFit.st_classSizes (FirstFit.resolveSize cols rnd startsWith p rem i cl st).2)
          classSizes.
Proof.
  intros Hs Hc. unfold FirstFit.resolveSize.
  apply (foldl_preserves _
           (λ acc : nat * nat * FirstFit.state,
              FirstFit.st_sizes acc.2 ≡ₚ sizes ∧
              Forall2 (λ kv kv' : string * list (nat * nat), kv.1 = kv'.1 ∧ kv.2 ≡ₚ kv'.2)
                      (FirstFit.st_classSizes acc.2) classSizes)).
  - by apply getRandomSize_pools.
  - intros acc n [H1 H2].
    destruct (classOverride_cases cols rnd p rem cl n acc) as [->| ->]; [done|].
    by apply getRandomSize_pools.
Qed.

End Pools.

(** Property X16.  The plugin reorders the caller's pools and does nothing else to
    them: when a call with at least one row in every pinned size has
    returned, [s.sizes] is a permutation of what it was, and [s.classSizes]
    has the same keys in the same order, each with a permutation of the pool
    it had. *)
Theorem pools_are_only_reordered (cols : nat) (rnd : nat → nat)
    (startsWith : list (option (nat * nat))) (sizes : list (nat * nat))
    (classSizes : list (string * list (nat * nat)))
    (elements : list (list string)) :
  (∀ i sz, aget startsWith i = Some sz → 1 ≤ sz.1) →
  ∃ out st,
    FirstFit.run cols rnd startsWith sizes classSizes elements = Ok (out, st) ∧
    FirstFit.st_sizes st ≡ₚ sizes ∧
    Forall2 (λ kv kv' : string * list (nat * nat), kv.1 = kv'.1 ∧ kv.2 ≡ₚ kv'.2)
            (FirstFit.st_classSizes st) classSizes.
Proof.
  intros Hpin.
  destruct (run_returns cols rnd startsWith sizes classSizes elements Hpin)
    as (out & st & Hrun).
  exists out, st. split; [done|].
  assert (Forall2 (λ kv kv' : string * list (nat * nat), kv.1 = kv'.1 ∧ kv.2 ≡ₚ kv'.2)
            classSizes classSizes) as Hrefl.
  { apply Forall2_same_length_lookup_2; [done|]. intros i x y Hx Hy.
    rewrite Hx in Hy. by injection Hy as <-. }
  destruct elements as [|cl0 elements0] eqn:Eel.
  { by injection Hrun as <- <-. }
  rewrite <- Eel in *. assert (elements ≠ []) as Hne by (by rewrite Eel).
  destruct (run_Ok _ _ _ _ _ _ _ _ Hne Hrun) as (st1 & v & h & Hpack & Hnorm & _ & _ & _).
  apply normalise_pools in Hnorm as [-> ->].
  pose (P := λ (i : nat) (st : FirstFit.state),
          FirstFit.st_sizes st ≡ₚ sizes ∧
          Forall2 (λ kv kv' : string * list (nat * nat), kv.1 = kv'.1 ∧ kv.2 ≡ₚ kv'.2)
                  (FirstFit.st_classSizes st) classSizes).
  apply (each_preserves cols rnd startsWith P (length elements) elements)
    with (3 := Hpack); [|by split].
  intros i cl st0 st0' [H1 H2] Hplace.
  apply place_Ok in Hplace as (p & g' & _ & _ & ->). simpl.
  by apply resolveSize_pools.
Qed.

Lemma pools_are_only_reordered_witness :
  (∀ i sz, aget [None; Some (1, 2)] i = Some sz → 1 ≤ sz.1) ∧
  ∃ out st,
    FirstFit.run 3 (λ k, k) [None; Some (1, 2)] [(1, 1); (2, 1); (1, 2)]
      [("big", [(2, 2); (1, 3)])] [[]; ["big"]; []; []; []] = Ok (out, st) ∧
    FirstFit.st_sizes st ≡ₚ [(1, 1); (2, 1); (1, 2)] ∧
    Forall2 (λ kv kv' : string * list (nat * nat), kv.1 = kv'.1 ∧ kv.2 ≡ₚ kv'.2)
            (FirstFit.st_classSizes st) [("big", [(2, 2); (1, 3)])].
Proof.
  assert (∀ i sz, aget [None; Some (1, 2)] i = Some sz → 1 ≤ sz.1) as Hpin.
  { intros [|[|i]] sz; simpl; [done| |done]. intros [= <-]. simpl. lia. }
  split; [exact Hpin|].
  apply (pools_are_only_reordered 3 (λ k, k) [None; Some (1, 2)]
           [(1, 1); (2, 1); (1, 2)] [("big", [(2, 2); (1, 3)])]
           [[]; ["big"]; []; []; []] Hpin).
Defined.

(** * The shuffle *)

Section FisherYates.

Implicit Types (l t : list (nat * nat)) (rnd : nat → nat).

(** The draws before the [k]-th play no part in a shuffle that starts
    there. *)
Lemma shuffleFrom_ext rnd rnd' c l k :
  (∀ i, k ≤ i → rnd i = rnd' i) →
  FirstFit.shuffleFrom rnd c l k = FirstFit.shuffleFrom rnd' c l k.
Proof.
  revert l k. induction c as [|c IH]; intros l k Hext; simpl; [done|].
  rewrite (Hext k) by lia. apply IH. intros i Hi. apply Hext. lia.
Qed.

(** A swap that brings [x] from index [j] to the last index [c] of a
    prefix. *)
Lemma swap_brings l c j x y :
  j ≤ c → l !! c = Some y → l !! j = Some x →
  FirstFit.swap l c j !! c = Some x ∧
  take c (FirstFit.swap l c j) ++ [x] ≡ₚ take (S c) l ∧
  drop (S c) (FirstFit.swap l c j) = drop (S c) l.
Proof.
  intros Hj Hc Hx.
  pose proof (lookup_lt_Some _ _ _ Hc) as Hlen.
  assert (FirstFit.swap l c j !! c = Some x) as Hat.
  { unfold FirstFit.swap. rewrite Hc, Hx.
    destruct (decide (j = c)) as [->|Hne].
    - rewrite list_lookup_insert_eq by (rewrite length_insert; lia). congruence.
    - rewrite list_lookup_insert_ne by done.
      by rewrite list_lookup_insert_eq by lia. }
  assert (drop (S c) (FirstFit.swap l c j) = drop (S c) l) as Hdrop.
  { unfold FirstFit.swap. rewrite Hc, Hx.
    by rewrite !drop_insert_lt by lia. }
  split; [done|]. split; [|done].
  rewrite <- (take_S_r _ _ _ Hat).
  apply (Permutation_app_inv_r (drop (S c) l)).
  rewrite <- Hdrop at 1. rewrite !take_drop. apply swap_Permutation.
Qed.

(** Every arrangement of the array is the outcome of some draws. *)
Lemma shuffleFrom_reaches c l t k :
  length t = length l → c ≤ length l →
  take c l ≡ₚ take c t → drop c l = drop c t →
  ∃ rnd, (FirstFit.shuffleFrom rnd c l k).1 = t.
Proof.
  revert l k. induction c as [|c IH]; intros l k Hlen Hc Htake Hdrop.
  - exists (λ _, 0). simpl. by rewrite !drop_0 in Hdrop.
  - assert (is_Some (t !! c)) as [x Hx] by (apply lookup_lt_is_Some; lia).
    assert (is_Some (l !! c)) as [y Hy] by (apply lookup_lt_is_Some; lia).
    assert (x ∈ take (S c) l) as Hin.
    { rewrite Htake, (take_S_r _ _ _ Hx). apply elem_of_app. right.
      apply list_elem_of_here. }
    apply list_elem_of_lookup_1 in Hin as [j Hj].
    apply lookup_take_Some in Hj as [Hj Hjc].
    destruct (swap_brings l c j x y ltac:(lia) Hy Hj) as (Hat & Hperm & Hdrop').
    destruct (IH (FirstFit.swap l c j) (S k)) as [rnd' Hrnd'].
    + by rewrite swap_length.
    + rewrite swap_length. lia.
    + apply (Permutation_app_inv_r [x]). rewrite Hperm, Htake.
      by rewrite (take_S_r _ _ _ Hx).
    + rewrite (drop_S _ _ _ Hat), (drop_S _ _ _ Hx), Hdrop'. by rewrite Hdrop.
    + exists (λ i, if decide (i = k) then j else rnd' i).
      cbn [FirstFit.shuffleFrom]. rewrite decide_True by done.
      rewrite Nat.mod_small by lia.
      rewrite (shuffleFrom_ext _ rnd'); [done|].
      intros i Hi. rewrite decide_False; [done | lia].
Qed.

Lemma shuffleFrom_draws rnd c l k : (FirstFit.shuffleFrom rnd c l k).2 = k + c.
Proof.
  revert l k. induction c as [|c IH]; intros l k; simpl; [lia|]. rewrite IH. lia.
Qed.

End FisherYates.

(** Property X17.  [shuffle] is a full Fisher-Yates shuffle: the arrangements it can
    leave in the array, over all outcomes of [Math.random], are exactly the
    permutations of the array; it makes one draw for every entry. *)
Theorem shuffle_reaches_every_permutation (l t : list (nat * nat)) (k : nat) :
  ((∃ rnd, (FirstFit.shuffle rnd l k).1 = t) ↔ l ≡ₚ t) ∧
  ∀ rnd, (FirstFit.shuffle rnd l k).2 = k + length l.
Proof.
  split; [|intros rnd; apply shuffleFrom_draws]. split.
  - intros [rnd <-]. symmetry. apply shuffle_Permutation.
  - intros Hperm. apply shuffleFrom_reaches.
    + symmetry. by apply Permutation_length.
    + done.
    + rewrite !take_ge; [done | | done]. by rewrite (Permutation_length Hperm).
    + rewrite !drop_ge; [done | | done]. by rewrite (Permutation_length Hperm).
Qed.

(** * The grid and the element data after a call *)

(** Normalisation keeps every id in the grid inside the rectangle of its
    element. *)
Lemma normalise_cells (cols total : nat) (st st' : FirstFit.state) (last : item) :
  sound (FirstFit.st_grid st) (FirstFit.st_data st) →
  idsOk (FirstFit.st_data st) →
  FirstFit.st_data st !! (total - 1) = Some last →
  FirstFit.normalise cols total st = Ok st' →
  rowsDefined (FirstFit.st_grid st') ∧
  ∀ i j e, cell (FirstFit.st_grid st') i j = Some e →
           ∃ it, FirstFit.st_data st' !! e = Some it ∧ in_rect it i j.
Proof.
  intros Hs Hids Hlast Hrun. unfold FirstFit.normalise in Hrun. rewrite Hlast in Hrun.
  pose proof (proj2 (proj2 Hs) _ _ Hlast) as Hend.
  apply rbind_Ok in Hrun as (st1 & H1 & Hrun).
  assert (sound (FirstFit.st_grid st1) (FirstFit.st_data st1) ∧
          length (FirstFit.st_grid st1) = length (FirstFit.st_grid st) ∧
          FirstFit.st_data st1 !! (total - 1) = Some last) as (Hs1 & Hlg1 & Hlast1).
  { destruct (aget (FirstFit.st_grid st) ((item_pos last).1 + item_rows last)) eqn:E.
    - apply shrinkOccupants_data in H1 as (? & ? & ? & Hprot); [|done|].
      + split; [done|]. split; [done|].
        apply Hprot; [done|]. intros i _ [Hrow _]. lia.
      + apply aget_is_Some_lt. rewrite E. eauto.
    - injection H1 as <-. done. }
  apply rbind_Ok in Hrun as (b & Hb & Hrun).
  apply rbind_Ok in Hrun as (st2 & H2 & Hrun).
  assert (sound (FirstFit.st_grid st2) (FirstFit.st_data st2) ∧
          length (FirstFit.st_grid st2) = length (FirstFit.st_grid st) ∧
          FirstFit.st_data st2 !! (total - 1) = Some last) as (Hs2 & Hlg2 & Hlast2).
  { destruct b.
    - injection H2 as <-. done.
    - apply allFilled_false in Hb as [_ Hrow%aget_is_Some_lt].
      apply shrinkOccupants_data in H2 as (? & ? & ? & Hprot); [|done|done].
      split; [done|]. split; [congruence|].
      apply Hprot; [done|]. intros i Hi [_ Hcol]. lia. }
  apply rbind_Ok in Hrun as (b' & Hb' & Hrun).
  apply rbind_Ok in Hrun as (st3 & H3 & Hrun). injection Hrun as <-. simpl.
  assert (rowsDefined (FirstFit.st_grid st3) ∧
          ∀ i j e, cell (FirstFit.st_grid st3) i j = Some e →
                   ∃ it, FirstFit.st_data st3 !! e = Some it ∧ in_rect it i j)
    as [Hdef3 Hin3].
  { destruct b'.
    - injection H3 as <-. split; apply Hs2.
    - apply allFilled_false in Hb' as [Hrange _].
      apply rbind_Ok in H3 as (g3 & Hg3 & H3). injection H3 as <-. simpl.
      destruct (writeRect_spec (FirstFit.st_grid st2) (item_pos last).1 (item_rows last)
                  ((item_pos last).2 + item_cols last)
                  (cols - ((item_pos last).2 + item_cols last))
                  (item_id <$> FirstFit.st_data st2 !! (total - 1)))
        as (g3' & Hg3' & Hlg3 & Hrows3 & Hcell3).
      { intros i Hi. apply Hs2. lia. }
      rewrite Hg3 in Hg3'. injection Hg3' as <-.
      pose proof (Hids _ _ Hlast) as Hid.
      split.
      + intros i Hi. rewrite Hlg3 in Hi. destruct (aget g3 i) eqn:E; [eauto|].
        apply Hrows3 in E. destruct (proj1 Hs2 i Hi). congruence.
      + intros i j e. rewrite Hcell3, Hlast2. simpl. case_decide as Hreg.
        * intros [= <-]. rewrite Hid, list_lookup_alter_eq, Hlast2. simpl.
          eexists. split; [done|]. unfold in_rect. simpl. lia.
        * intros Hc. apply Hs2 in Hc as (it & Hit & Hrect).
          destruct (decide (e = total - 1)) as [->|Hne].
          -- rewrite list_lookup_alter_eq, Hit. simpl. eexists. split; [done|].
             rewrite Hlast2 in Hit. injection Hit as <-.
             unfold in_rect in *. simpl. lia.
          -- rewrite list_lookup_alter_ne by done. eauto. }
  split; [by apply rowsDefined_take|].
  intros i j e. rewrite cell_take. case_decide; [apply Hin3 | done].
Qed.

(** Property X18.  A call with at least one row in every pinned size returns, and
    then, pinned sizes or not, each id held by a cell of the virtual grid is
    the id of an element whose rectangle, as stored with the element when
    the call ends, covers that cell; and every row of the grid exists. *)
Theorem grid_ids_lie_in_their_rectangles (cols : nat) (rnd : nat → nat)
    (startsWith : list (option (nat * nat))) (sizes : list (nat * nat))
    (classSizes : list (string * list (nat * nat)))
    (elements : list (list string)) :
  (∀ i sz, aget startsWith i = Some sz → 1 ≤ sz.1) →
  ∃ out st,
    FirstFit.run cols rnd startsWith sizes classSizes elements = Ok (out, st) ∧
    rowsDefined (FirstFit.occupancy out) ∧
    ∀ i j e, cell (FirstFit.occupancy out) i j = Some e →
             ∃ it, FirstFit.placements out !! e = Some it ∧ item_id it = e ∧
                   in_rect it i j.
Proof.
  intros Hpin.
  destruct (run_returns cols rnd startsWith sizes classSizes elements Hpin)
    as (out & st & Hrun).
  exists out, st. split; [done|].
  destruct elements as [|cl0 elements0] eqn:Eel.
  { injection Hrun as <- <-. simpl. split; [intros i Hi; simpl in Hi; lia | done]. }
  rewrite <- Eel in *. assert (elements ≠ []) as Hne by (by rewrite Eel).
  destruct (run_Ok _ _ _ _ _ _ _ _ Hne Hrun) as (st1 & v & h & Hpack & Hnorm & _ & _ & ->).
  simpl.
  destruct (each_layout _ _ _ _ _ _ _ _ Hpack) as (Hs & Hids & Hlen).
  assert (is_Some (FirstFit.st_data st1 !! (length elements - 1))) as [last Hlast].
  { apply lookup_lt_is_Some. rewrite Eel in *. simpl in *. lia. }
  destruct (normalise_cells cols (length elements) st1 st last Hs Hids Hlast Hnorm)
    as [Hdef Hin].
  destruct (normalise_data cols (length elements) st1 st last Hs Hlast Hnorm)
    as (_ & _ & Hd & _).
  split; [done|]. intros i j e Hc. destruct (Hin i j e Hc) as (it & Hit & Hrect).
  exists it. split; [done|]. split; [|done].
  destruct (Hd e it Hit) as (it0 & Hit0 & -> & _). by apply Hids.
Qed.

Lemma grid_ids_lie_in_their_rectangles_witness :
  (∀ i sz, aget [Some (1, 1); Some (2, 1); Some (2, 1)] i = Some sz → 1 ≤ sz.1) ∧
  ∃ out st,
    FirstFit.run 2 (λ _, 0) [Some (1, 1); Some (2, 1); Some (2, 1)] [(1, 1)] []
      [[]; []; []] = Ok (out, st) ∧
    rowsDefined (FirstFit.occupancy out) ∧
    ∀ i j e, cell (FirstFit.occupancy out) i j = Some e →
             ∃ it, FirstFit.placements out !! e = Some it ∧ item_id it = e ∧
                   in_rect it i j.
Proof.
  assert (∀ i sz, aget [Some (1, 1); Some (2, 1); Some (2, 1)] i = Some sz → 1 ≤ sz.1)
    as Hpin.
  { intros [|[|[|i]]] sz; simpl; intros [= <-]; simpl; lia. }
  split; [exact Hpin|].
  apply (grid_ids_lie_in_their_rectangles 2 (λ _, 0)
           [Some (1, 1); Some (2, 1); Some (2, 1)] [(1, 1)] [] [[]; []; []] Hpin).
Defined.

(** * Worked runs of the extended model *)

(** Two columns, the pool [[[1, 1], [3, 1]]], three elements.  The first
    draw hands [[1, 1]] to the first element, the second element takes
    [[3, 1]] in column 1, and the last element goes under the first one.
    The row of the last element is full, so nothing on its right is shrunk:
    the grid is cut to two rows and the second element keeps three. *)
Example tall_right_neighbour_run :
  ∃ st,
    FirstFit.run 2 (λ k, match k with 0 => 1 | _ => 0 end) [] [(1, 1); (3, 1)] []
      [[]; []; []]
    = Ok (FirstFit.Output
            [Item 0 (0, 0) 1 1; Item 1 (0, 1) 3 1; Item 2 (1, 0) 1 1]
            [Some [Some 0; Some 1]; Some [Some 2; Some 1]]
            [FirstFit.VSeg 0 0 1]
            [FirstFit.HSeg 0 0 0]
            2, st).
Proof. eexists. vm_compute. reflexivity. Qed.
